(** * Baum-Welch HMM core (hmm-core.js): a shallow embedding and its properties

  The development follows the order of the source file:
  - [Int32]: the 32-bit integer operations of JavaScript ([|0], [>>>],
    [^], [|], [Math.imul]) over [Z], with the wrap-around written out;
  - [mulberry32]: the seeded generator, as a state-passing function;
  - [Arith]: the operations on JavaScript numbers the estimator uses, kept
    abstract so that every structural result holds for IEEE doubles and for
    exact arithmetic alike;
  - the class [HMM]: constructor, [_forward], [_backward], [_estep],
    [_mstep], [train], with loops as folds over index ranges and arrays as
    lists updated by index;
  - [F64]: the instance on binary64 primitive floats (executable);
  - [XR]: the instance on real numbers extended with the IEEE special
    values (no rounding), in which the normalisation results are proved. *)

From Stdlib Require Import ZArith List Bool Lia.
From Stdlib Require Import Reals Lra.
From Stdlib Require Import Floats Uint63.
Import ListNotations.


(* ================================================================== *)
(** ** 32-bit integer arithmetic of JavaScript *)

Module Int32.

Local Open Scope Z_scope.

Definition two32 : Z := 4294967296.

(** [x >>> 0]: the unsigned 32-bit reading of an integer. *)
Definition to_uint32 (x : Z) : Z := x mod two32.

(** [x | 0]: the signed 32-bit reading of an integer. *)
Definition to_int32 (x : Z) : Z := (x + 2147483648) mod two32 - 2147483648.

(** [a ^ b] *)
Definition xor (a b : Z) : Z := to_int32 (Z.lxor (to_int32 a) (to_int32 b)).

(** [a | b] *)
Definition or (a b : Z) : Z := to_int32 (Z.lor (to_int32 a) (to_int32 b)).

(** [a >>> n] *)
Definition shr_u (a n : Z) : Z := Z.shiftr (to_uint32 a) (n mod 32).

(** [Math.imul(a, b)] *)
Definition imul (a b : Z) : Z := to_int32 (to_int32 a * to_int32 b).

Lemma to_uint32_range x : 0 <= to_uint32 x < two32.
Proof. unfold to_uint32, two32. apply Z.mod_pos_bound. lia. Qed.

Lemma to_int32_range x : -2147483648 <= to_int32 x < 2147483648.
Proof.
  unfold to_int32, two32.
  pose proof (Z.mod_pos_bound (x + 2147483648) 4294967296 ltac:(lia)). lia.
Qed.

Lemma to_int32_small x : -2147483648 <= x < 2147483648 -> to_int32 x = x.
Proof.
  intros H. unfold to_int32, two32.
  rewrite Z.mod_small by lia. lia.
Qed.

Lemma to_int32_idem x : to_int32 (to_int32 x) = to_int32 x.
Proof. apply to_int32_small, to_int32_range. Qed.

Lemma to_int32_add_mod x k : to_int32 (x + k * two32) = to_int32 x.
Proof.
  unfold to_int32.
  replace (x + k * two32 + 2147483648) with (x + 2147483648 + k * two32) by lia.
  now rewrite Z.mod_add by (unfold two32; lia).
Qed.

Lemma to_int32_eqm x y : x mod two32 = y mod two32 -> to_int32 x = to_int32 y.
Proof.
  intros H. unfold to_int32.
  rewrite <- (Zplus_mod_idemp_l x), <- (Zplus_mod_idemp_l y), H. reflexivity.
Qed.

Lemma to_int32_mod x : (to_int32 x) mod two32 = x mod two32.
Proof.
  unfold to_int32.
  rewrite Zminus_mod, Z.mod_mod by (unfold two32; lia).
  rewrite <- Zminus_mod. f_equal. lia.
Qed.

End Int32.

(* ================================================================== *)
(** ** §1 mulberry32

  [mulberry32(seed)] returns a closure over the variable [seed]; the
  closure's state is that variable, so a generator is modelled by the
  current value of [seed], and a call of the closure by the function from
  the state before the call to the value drawn and the state after. *)

Definition rng : Type := Z.

Definition mulberry32 (seed : Z) : rng := seed.

(** One call of the closure, up to the final division: the unsigned 32-bit
  numerator [(t ^ t >>> 14) >>> 0], and the new value of [seed]. *)
Definition rand_u32 (seed : rng) : Z * rng :=
let seed := Int32.or seed 0 in                               (* seed |= 0 *)
let seed := Int32.or (seed + 1831565813) 0 in     (* seed + 0x6D2B79F5 | 0 *)
let t := Int32.imul (Int32.xor seed (Int32.shr_u seed 15)) (Int32.or 1 seed) in
let t := Int32.xor (t + Int32.imul (Int32.xor t (Int32.shr_u t 7)) (Int32.or 61 t)) t in
(Int32.to_uint32 (Int32.xor t (Int32.shr_u t 14)), seed).

Arguments rand_u32 : simpl never.

(** The numerators of the first [n] calls, and the state left behind. *)
Fixpoint draws (n : nat) (g : rng) : list Z * rng :=
match n with
| O => ([], g)
| S n' =>
    let '(u, g') := rand_u32 g in
    let '(us, g'') := draws n' g' in
    (u :: us, g'')
end.

(* ================================================================== *)
(** ** JavaScript numbers

  The estimator uses the four arithmetic operations, two comparisons,
  truthiness ([x || d]), [isFinite], [Math.abs], [Math.log], [Math.exp]
  and a handful of literals.  They are the fields of [Arith]; the code
  below is written once against this interface. *)

Class Arith : Type := {
num : Type;
of_Z : Z -> num;             (* an integer-valued number *)
lit_0_2 : num;               (* 0.2 *)
lit_1e_300 : num;            (* 1e-300 *)
lit_1e_6 : num;              (* 1e-6 *)
NaN : num;                   (* what [undefined] becomes in arithmetic *)
neg_Infinity : num;          (* -Infinity *)
nadd : num -> num -> num;
nsub : num -> num -> num;
nneg : num -> num;           (* unary minus *)
nmul : num -> num -> num;
ndiv : num -> num -> num;
ngt : num -> num -> bool;    (* x > y *)
nlt : num -> num -> bool;    (* x < y *)
ToBoolean : num -> bool;     (* false on 0, -0 and NaN *)
isFinite : num -> bool;
Math_abs : num -> num;
Math_log : num -> num;
Math_exp : num -> num;
(* three facts about the special values, used by the control flow *)
ToBoolean_0 : ToBoolean (of_Z 0) = false;
ngt_neg_Infinity : ngt neg_Infinity neg_Infinity = false;
isFinite_neg_Infinity : isFinite neg_Infinity = false
}.

Declare Scope num_scope.
Delimit Scope num_scope with num.
Bind Scope num_scope with num.
Infix "+" := nadd : num_scope.
Infix "-" := nsub : num_scope.
Infix "*" := nmul : num_scope.
Infix "/" := ndiv : num_scope.
Notation "- x" := (nneg x) : num_scope.
Infix ">?" := ngt (at level 70, no associativity) : num_scope.
Infix "<?" := nlt (at level 70, no associativity) : num_scope.
Notation "0" := (of_Z 0%Z) : num_scope.
Notation "1" := (of_Z 1%Z) : num_scope.

(** A one-dimensional array of numbers, and an array of such arrays. *)
Abbreviation row := (list num).
Abbreviation matrix := (list (list num)).

(* ================================================================== *)
(** ** Arrays and loops *)

Section Arrays.
Context {X : Type}.

(** [a[i] = v] on an array of fixed length: a write past the end is
    dropped (the typed arrays of the source never grow). *)
Fixpoint set (a : list X) (i : nat) (v : X) : list X :=
  match a, i with
  | [], _ => []
  | _ :: a', O => v :: a'
  | x :: a', S i' => x :: set a' i' v
  end.

(** [a[k]] for a number [k] that need not be a valid index: [undefined]
    is [None]. *)
Definition index (a : list X) (k : Z) : option X :=
  if (k <? 0)%Z then None else nth_error a (Z.to_nat k).

(** [for (let i = lo; i < hi; i++) body] on the variables [s]. *)
Definition for_range {S : Type} (lo hi : nat) (body : nat -> S -> S) (s : S) : S :=
  fold_left (fun s i => body i s) (seq lo (hi - lo)) s.

(** [for (let t = hi - 1; t >= 0; t--) body]. *)
Definition for_down {S : Type} (hi : nat) (body : nat -> S -> S) (s : S) : S :=
  fold_left (fun s i => body i s) (rev (seq 0 hi)) s.

(** [Array.from({ length: n }, (_, i) => f(i))]. *)
Definition Array_from (n : nat) (f : nat -> X) : list X := map f (seq 0 n).

End Arrays.

(** [Array.from({ length: n }, () => f())] where [f] draws from a generator:
  the calls happen in index order, each on the state the previous left. *)
Fixpoint Array_from_rng {X : Type} (n : nat) (f : rng -> X * rng) (g : rng)
: list X * rng :=
match n with
| O => ([], g)
| S n' =>
    let '(x, g') := f g in
    let '(xs, g'') := Array_from_rng n' f g' in
    (x :: xs, g'')
end.

(* ================================================================== *)
(** ** The source, function by function *)

Section Core.
Context {AR : Arith}.
Local Open Scope num_scope.


(** [a[i]] and [m[t][i]] read as numbers; the default is only met outside
    the bounds, where JavaScript yields [undefined]. *)
Definition get (a : row) (i : nat) : num := nth i a NaN.
Definition get2 (m : matrix) (t i : nat) : num := get (nth t m []) i.
Definition get3 (x : list matrix) (t i j : nat) : num := get2 (nth t x []) i j.

(** [m[t][i] = v] *)
Definition set2 (m : matrix) (t i : nat) (v : num) : matrix :=
  set m t (set (nth t m []) i v).

(** [new Float64Array(n)] *)
Definition Float64Array (n : nat) : row := repeat 0 n.

(** [x || d] for a possibly undefined number [x]. *)
Definition or_else (x : option num) (d : num) : num :=
  match x with
  | Some v => if ToBoolean v then v else d
  | None => d
  end.

(** [v.reduce((a, b) => a + b, 0)] *)
Definition sum (v : row) : num := fold_left nadd v 0.

(** *** §1, continued: the float a call of the generator returns *)
Definition rand (g : rng) : num * rng :=
  let '(u, g') := rand_u32 g in (of_Z u / of_Z 4294967296, g').

(** *** §1 logSumExp *)
Definition logSumExp (arr : row) : num :=
  let max := fold_left (fun max x => if x >? max then x else max) arr neg_Infinity in
  if negb (isFinite max) then neg_Infinity
  else
    let s := fold_left (fun s x => s + Math_exp (x - max)) arr 0 in
    max + Math_log s.

(** *** §2.1 Initialisation *)

Record options : Type := {
  opt_maxIter : option Z;
  opt_epsilon : option num;
  opt_seed : option Z
}.

(** [opts = {}] *)
Definition no_options : options :=
  {| opt_maxIter := None; opt_epsilon := None; opt_seed := None |}.

(** [x || d] for an integer option. *)
Definition or_elseZ (x : option Z) (d : Z) : Z :=
  match x with
  | Some v => if (v =? 0)%Z then d else v
  | None => d
  end.

Record HMM : Type := {
  Obs : list Z;              (* this.O *)
  T : nat;
  N : Z;
  M : Z;
  maxIter : Z;
  epsilon : num;
  pi : row;
  A : matrix;
  B : matrix;
  logLikeHistory : list num;
  iterations : Z;
  converged : bool;
  finalAlpha : option matrix;
  finalGamma : option matrix
}.

Definition _randRow (k : Z) (g : rng) : row * rng :=
  let '(v, g') :=
    Array_from_rng (Z.to_nat k) (fun g => let '(x, g') := rand g in (x + lit_0_2, g')) g in
  let s := sum v in
  (map (fun x => x / s) v, g').

Definition constructor (obs : list Z) (N M : Z) (opts : options) : HMM :=
  let rand := mulberry32 (or_elseZ (opt_seed opts) 42) in
  let '(pi, rand) := _randRow N rand in
  let '(A, rand) := Array_from_rng (Z.to_nat N) (_randRow N) rand in
  let '(B, rand) := Array_from_rng (Z.to_nat N) (_randRow M) rand in
  {| Obs := obs;
     T := length obs;
     N := N;
     M := M;
     maxIter := or_elseZ (opt_maxIter opts) 100;
     epsilon := or_else (opt_epsilon opts) lit_1e_6;
     pi := pi;
     A := A;
     B := B;
     logLikeHistory := [];
     iterations := 0;
     converged := false;
     finalAlpha := None;
     finalGamma := None |}.

(** [B[j][O[t]] || 1e-300]: the emission probability of the symbol seen at
    time [t] in state [j], floored.  [O[t]] past the end of the sequence
    and a symbol that is no index of the row both read [undefined]. *)
Definition emit (h : HMM) (j t : nat) : num :=
  or_else
    (match nth_error (Obs h) t with
     | Some o => index (nth j (B h) []) o
     | None => None
     end)
    lit_1e_300.

(** The loops below run [i] over [0 <= i < N]. *)
Definition Nn (h : HMM) : nat := Z.to_nat (N h).

(** Allocating [T] typed arrays of length [N] raises a [RangeError] when
    [N] is negative, and indexing row 0 or row [T-1] of an empty matrix a
    [TypeError]; the passes below return [None] in these cases. *)
Definition alloc_ok (h : HMM) : bool :=
  negb ((0 <? T h)%nat && (N h <? 0)%Z).
Definition rows_ok (h : HMM) : bool :=
  alloc_ok h && negb ((T h =? 0)%nat && (0 <? N h)%Z).

(** *** §2.2 Forward pass *)

Record forward_result : Type := {
  alpha : matrix;
  c : row;
  logLik : num;
  logAlpha : matrix
}.

(** [sum > 0 ? 1 / sum : 1] *)
Definition scale (sum : num) : num := if sum >? 0 then 1 / sum else 1.

(** [c[t] > 0 ? c[t] : 1e-300], and likewise for [alpha[t][i]]. *)
Definition floor_pos (x : num) : num := if x >? 0 then x else lit_1e_300.

Definition _forward (h : HMM) : option forward_result :=
  if negb (rows_ok h) then None else
  let n := Nn h in
  let alpha := Array_from (T h) (fun _ => Float64Array n) in
  let c := Float64Array (T h) in
  let logAlpha := Array_from (T h) (fun _ => Float64Array n) in
  (* t = 0 *)
  let sum := 0 in
  let '(alpha, sum) :=
    for_range 0 n (fun i '(alpha, sum) =>
      let alpha := set2 alpha 0 i (get (pi h) i * emit h i 0) in
      (alpha, sum + get2 alpha 0 i)) (alpha, sum) in
  let c := set c 0 (scale sum) in
  let alpha :=
    for_range 0 n (fun i alpha => set2 alpha 0 i (get2 alpha 0 i * get c 0)) alpha in
  (* t = 1 ... T-1 *)
  let '(alpha, c, sum) :=
    for_range 1 (T h) (fun t '(alpha, c, sum) =>
      let sum := 0 in
      let '(alpha, sum) :=
        for_range 0 n (fun j '(alpha, sum) =>
          let acc := 0 in
          let acc :=
            for_range 0 n (fun i acc => acc + get2 alpha (t - 1) i * get2 (A h) i j) acc in
          let alpha := set2 alpha t j (acc * emit h j t) in
          (alpha, sum + get2 alpha t j)) (alpha, sum) in
      let c := set c t (scale sum) in
      let alpha :=
        for_range 0 n (fun j alpha => set2 alpha t j (get2 alpha t j * get c t)) alpha in
      (alpha, c, sum)) (alpha, c, sum) in
  (* log P(O|lambda) *)
  let logLik := 0 in
  let logLik :=
    for_range 0 (T h) (fun t logLik => logLik - Math_log (floor_pos (get c t))) logLik in
  (* log alpha for the charts *)
  let logAlpha :=
    for_range 0 (T h) (fun t logAlpha =>
      let logUnscale := - Math_log (floor_pos (get c t)) in
      for_range 0 n (fun i logAlpha =>
        set2 logAlpha t i (Math_log (floor_pos (get2 alpha t i)) + logUnscale)) logAlpha)
      logAlpha in
  Some {| alpha := alpha; c := c; logLik := logLik; logAlpha := logAlpha |}.

(** *** §2.3 Backward pass *)

Definition _backward (h : HMM) (c : row) : option matrix :=
  if negb (rows_ok h) then None else
  let n := Nn h in
  let beta := Array_from (T h) (fun _ => Float64Array n) in
  (* t = T-1 *)
  let beta :=
    for_range 0 n (fun i beta => set2 beta (T h - 1) i (get c (T h - 1))) beta in
  let beta :=
    for_down (T h - 1) (fun t beta =>
      for_range 0 n (fun i beta =>
        let acc := 0 in
        let acc :=
          for_range 0 n (fun j acc =>
            acc + get2 (A h) i j * emit h j (t + 1) * get2 beta (t + 1) j) acc in
        set2 beta t i (acc * get c t)) beta) beta in
  Some beta.

(** *** §2.4 E-step *)

Record estep_result : Type := {
  gamma : matrix;
  xi : list matrix
}.

Definition _estep (h : HMM) (alpha beta : matrix) : option estep_result :=
  if negb (alloc_ok h) then None else
  let n := Nn h in
  let gamma :=
    Array_from (T h) (fun t =>
      let g := Float64Array n in
      let s := 0 in
      let '(g, s) :=
        for_range 0 n (fun i '(g, s) =>
          let g := set g i (get2 alpha t i * get2 beta t i) in
          (g, s + get g i)) (g, s) in
      if s >? 0 then for_range 0 n (fun i g => set g i (get g i / s)) g else g) in
  let xi :=
    Array_from (T h - 1) (fun t =>
      let mat := Array_from n (fun _ => Float64Array n) in
      let s := 0 in
      let '(mat, s) :=
        for_range 0 n (fun i '(mat, s) =>
          for_range 0 n (fun j '(mat, s) =>
            let mat :=
              set2 mat i j
                (get2 alpha t i * get2 (A h) i j * emit h j (t + 1) * get2 beta (t + 1) j) in
            (mat, s + get2 mat i j)) (mat, s)) (mat, s) in
      if s >? 0 then
        for_range 0 n (fun i mat =>
          for_range 0 n (fun j mat => set2 mat i j (get2 mat i j / s)) mat) mat
      else mat) in
  Some {| gamma := gamma; xi := xi |}.

(** *** §2.5 M-step *)

Record mstep_result : Type := {
  new_pi : row;
  new_A : matrix;
  new_B : matrix
}.

(** [den || 1e-300] and [... || 1] on a number that is always defined. *)
Definition or_num (x d : num) : num := if ToBoolean x then x else d.

Definition normalise (r : row) : row :=
  let s := or_num (sum r) 1 in
  map (fun x => x / s) r.

(** [Array.from(gamma[0])] raises a [TypeError] when [gamma] is empty. *)
Definition _mstep (h : HMM) (gamma : matrix) (xi : list matrix) : option mstep_result :=
  match gamma with
  | [] => None
  | gamma0 :: _ =>
      let n := Nn h in
      let pi := gamma0 in
      let newA :=
        Array_from n (fun i =>
          let den := 0 in
          let den := for_range 0 (T h - 1) (fun t den => den + get2 gamma t i) den in
          let den := or_num den lit_1e_300 in
          Array_from n (fun j =>
            let num := 0 in
            let num := for_range 0 (T h - 1) (fun t num => num + get3 xi t i j) num in
            num / den)) in
      let newB :=
        Array_from n (fun i =>
          let den := 0 in
          let den := for_range 0 (T h) (fun t den => den + get2 gamma t i) den in
          let den := or_num den lit_1e_300 in
          Array_from (Z.to_nat (M h)) (fun k =>
            let num := 0 in
            let num :=
              for_range 0 (T h) (fun t num =>
                if (nth t (Obs h) (-1) =? Z.of_nat k)%Z then num + get2 gamma t i else num) num in
            num / den)) in
      Some {| new_pi := normalise pi;
              new_A := map normalise newA;
              new_B := map normalise newB |}
  end.

(** *** §2.6 Training loop *)

(** The two template strings handed to the callback, by their holes:
    the first carries [iter + 1], [logLik] and [deltaStr], which is ['+∞']
    ([None]) while [prevLL] is not finite and [delta] afterwards; the
    second carries [iter + 1]. *)
Inductive message : Type :=
| Iter_message (iter1 : Z) (logLik : num) (deltaStr : option num)
| Converged_message (iter1 : Z).

(** One call [logCallback(message, iterIndex, isDone)]; the third argument
    is absent ([None]) in the per-iteration call. *)
Record call : Type := {
  call_message : message;
  call_iter : Z;
  call_done : option bool
}.

Definition set_params (h : HMM) (m : mstep_result) (ll : num) (its : Z) : HMM :=
  {| Obs := Obs h; T := T h; N := N h; M := M h;
     maxIter := maxIter h; epsilon := epsilon h;
     pi := new_pi m; A := new_A m; B := new_B m;
     logLikeHistory := logLikeHistory h ++ [ll];
     iterations := its;
     converged := converged h;
     finalAlpha := finalAlpha h; finalGamma := finalGamma h |}.

Definition set_converged (h : HMM) : HMM :=
  {| Obs := Obs h; T := T h; N := N h; M := M h;
     maxIter := maxIter h; epsilon := epsilon h;
     pi := pi h; A := A h; B := B h;
     logLikeHistory := logLikeHistory h;
     iterations := iterations h;
     converged := true;
     finalAlpha := finalAlpha h; finalGamma := finalGamma h |}.

Definition set_final (h : HMM) (fa fg : matrix) : HMM :=
  {| Obs := Obs h; T := T h; N := N h; M := M h;
     maxIter := maxIter h; epsilon := epsilon h;
     pi := pi h; A := A h; B := B h;
     logLikeHistory := logLikeHistory h;
     iterations := iterations h;
     converged := converged h;
     finalAlpha := Some fa; finalGamma := Some fg |}.

Notation "x <- e ;; k" := (match e with Some x => k | None => None end)
  (at level 61, e at next level, right associativity).

(** The three lines that recompute the passes on the current parameters
    and store [finalAlpha] and [finalGamma]; they occur twice in [train]. *)
Definition final_pass (h : HMM) : option HMM :=
  f <- _forward h ;;
  fb <- _backward h (c f) ;;
  fg <- _estep h (alpha f) fb ;;
  Some (set_final h (logAlpha f) (gamma fg)).

(** The state of the [for] loop of [train] between two iterations. *)
Record loop_state : Type := {
  ls_hmm : HMM;
  ls_prevLL : num;
  ls_calls : list call
}.

(** The callback, when one is supplied, is recorded call by call. *)
Definition invoke (logCallback : bool) (calls : list call) (k : call) : list call :=
  if logCallback then calls ++ [k] else calls.

(** The body of the loop at index [iter]: [inl] when the body ends in
    [break], [inr] when it runs to its end. *)
Definition train_body (logCallback : bool) (iter : nat) (s : loop_state)
  : option (loop_state + loop_state) :=
  let h := ls_hmm s in
  let prevLL := ls_prevLL s in
  f <- _forward h ;;
  beta <- _backward h (c f) ;;
  e <- _estep h (alpha f) beta ;;
  m <- _mstep h (gamma e) (xi e) ;;
  let h := set_params h m (logLik f) (Z.of_nat iter + 1) in
  let delta := logLik f - prevLL in
  let deltaStr := if negb (isFinite prevLL) then None else Some delta in
  let calls :=
    invoke logCallback (ls_calls s)
      {| call_message := Iter_message (Z.of_nat iter + 1) (logLik f) deltaStr;
         call_iter := Z.of_nat iter;
         call_done := None |} in
  if (0 <? iter)%nat && (Math_abs delta <? epsilon h) then
    let h := set_converged h in
    h <- final_pass h ;;
    let calls :=
      invoke logCallback calls
        {| call_message := Converged_message (Z.of_nat iter + 1);
           call_iter := Z.of_nat iter;
           call_done := Some true |} in
    Some (inl {| ls_hmm := h; ls_prevLL := prevLL; ls_calls := calls |})
  else
    Some (inr {| ls_hmm := h; ls_prevLL := logLik f; ls_calls := calls |}).

(** [for (let iter = ...; iter < this.maxIter; iter++)] with [todo]
    iterations left before the bound. *)
Fixpoint train_loop (logCallback : bool) (todo : nat) (iter : nat) (s : loop_state)
  : option loop_state :=
  match todo with
  | O => Some s
  | S todo' =>
      r <- train_body logCallback iter s ;;
      match r with
      | inl s' => Some s'
      | inr s' => train_loop logCallback todo' (S iter) s'
      end
  end.

Definition train (h : HMM) (logCallback : bool) : option (HMM * list call) :=
  let prevLL := neg_Infinity in
  s <- train_loop logCallback (Z.to_nat (maxIter h)) 0
         {| ls_hmm := h; ls_prevLL := prevLL; ls_calls := [] |} ;;
  let h := ls_hmm s in
  if negb (converged h) then
    h <- final_pass h ;;
    Some (h, ls_calls s)
  else Some (h, ls_calls s).

End Core.

(* ================================================================== *)
(** ** The passes as formulas

    What each pass computes, written as the recurrences of the
    specification: rows are built by [map] over the state indices and sums
    run from index 0 upward, the order in which the loops accumulate. *)

Section Formulas.
Context {AR : Arith}.
Local Open Scope num_scope.

(** Sum over [0 <= i < n] of [f i]. *)
Definition sum_over (n : nat) (f : nat -> num) : num := sum (map f (seq 0 n)).

(** Forward pass: the row before scaling at [t = 0], and at a later [t]
    from the scaled row [prev] of [t - 1]. *)
Definition alpha_raw0 (h : HMM) : row :=
  map (fun i => get (pi h) i * emit h i 0) (seq 0 (Nn h)).

Definition alpha_raw (h : HMM) (prev : row) (t : nat) : row :=
  map (fun j => sum_over (Nn h) (fun i => get prev i * get2 (A h) i j) * emit h j t)
      (seq 0 (Nn h)).

(** Scaling a row: every entry times [c], where [c] is the reciprocal of
    the row's sum, or 1 when the sum is not positive. *)
Definition scaled (raw : row) : row := map (fun x => x * scale (sum raw)) raw.

Fixpoint raw_at (h : HMM) (t : nat) : row :=
  match t with
  | O => alpha_raw0 h
  | S t' => alpha_raw h (scaled (raw_at h t')) (S t')
  end.

Definition alpha_at (h : HMM) (t : nat) : row := scaled (raw_at h t).
Definition c_at (h : HMM) (t : nat) : num := scale (sum (raw_at h t)).

(** [0 - log c[0] - log c[1] - ...], each [c[t]] floored when not positive. *)
Definition logLik_of (c : row) : num :=
  fold_left (fun ll x => ll - Math_log (floor_pos x)) c 0.

Definition logAlpha_row (a : row) (ct : num) : row :=
  map (fun x => Math_log (floor_pos x) + - Math_log (floor_pos ct)) a.

Definition forward_formula (h : HMM) : forward_result :=
  let ts := seq 0 (T h) in
  {| alpha := map (alpha_at h) ts;
     c := map (c_at h) ts;
     logLik := logLik_of (map (c_at h) ts);
     logAlpha := map (fun t => logAlpha_row (alpha_at h t) (c_at h t)) ts |}.

(** Backward pass: the row at [T - 1], and the row at [t] from the row
    [next] of [t + 1]. *)
Definition beta_last (h : HMM) (c : row) : row :=
  map (fun _ => get c (T h - 1)) (seq 0 (Nn h)).

Definition beta_prev (h : HMM) (c : row) (next : row) (t : nat) : row :=
  map (fun i =>
         sum_over (Nn h) (fun j => get2 (A h) i j * emit h j (t + 1) * get next j)
         * get c t)
      (seq 0 (Nn h)).

(** The rows [t, t+1, ..., T-1], built from the last one down; [k] counts
    the rows still to come after row [t]. *)
Fixpoint beta_from (h : HMM) (c : row) (t k : nat) : row :=
  match k with
  | O => beta_last h c
  | S k' => beta_prev h c (beta_from h c (S t) k') t
  end.

Definition beta_at (h : HMM) (c : row) (t : nat) : row :=
  beta_from h c t (T h - 1 - t).

Definition backward_formula (h : HMM) (c : row) : matrix :=
  map (beta_at h c) (seq 0 (T h)).

(** E-step: a row divided by its sum when that sum is positive. *)
Definition normalised_if_pos (r : row) : row :=
  if sum r >? 0 then map (fun x => x / sum r) r else r.

Definition gamma_raw (h : HMM) (alpha beta : matrix) (t : nat) : row :=
  map (fun i => get2 alpha t i * get2 beta t i) (seq 0 (Nn h)).

Definition xi_raw (h : HMM) (alpha beta : matrix) (t : nat) : matrix :=
  map (fun i =>
         map (fun j => get2 alpha t i * get2 (A h) i j * emit h j (t + 1) * get2 beta (t + 1) j)
             (seq 0 (Nn h)))
      (seq 0 (Nn h)).

(** The sum of a matrix in row-major order, as the nested loops add it. *)
Definition sum2 (m : matrix) : num := sum (concat m).

Definition normalised2_if_pos (m : matrix) : matrix :=
  if sum2 m >? 0 then map (map (fun x => x / sum2 m)) m else m.

Definition estep_formula (h : HMM) (alpha beta : matrix) : estep_result :=
  {| gamma := map (fun t => normalised_if_pos (gamma_raw h alpha beta t)) (seq 0 (T h));
     xi := map (fun t => normalised2_if_pos (xi_raw h alpha beta t)) (seq 0 (T h - 1)) |}.

(** M-step: the ratios of soft counts before the final renormalisation. *)
Definition A_ratio (h : HMM) (gamma : matrix) (xi : list matrix) (i j : nat) : num :=
  sum_over (T h - 1) (fun t => get3 xi t i j)
  / or_num (sum_over (T h - 1) (fun t => get2 gamma t i)) lit_1e_300.

(** The occupancy of state [i] summed over the times at which symbol [k]
    was observed. *)
Definition count_symbol (h : HMM) (gamma : matrix) (i k : nat) : num :=
  fold_left (fun num t =>
               if (nth t (Obs h) (-1) =? Z.of_nat k)%Z then num + get2 gamma t i else num)
            (seq 0 (T h)) 0.

Definition B_ratio (h : HMM) (gamma : matrix) (i k : nat) : num :=
  count_symbol h gamma i k
  / or_num (sum_over (T h) (fun t => get2 gamma t i)) lit_1e_300.

Definition mstep_formula (h : HMM) (gamma : matrix) (xi : list matrix) : mstep_result :=
  {| new_pi := normalise (nth 0%nat gamma []);
     new_A := map (fun i => normalise (map (A_ratio h gamma xi i) (seq 0 (Nn h))))
                  (seq 0 (Nn h));
     new_B := map (fun i => normalise (map (B_ratio h gamma i) (seq 0 (Z.to_nat (M h)))))
                  (seq 0 (Nn h)) |}.

(** *** The training loop *)

(** One pass of forward, backward, E-step and M-step, and the assignments
    that follow it in the loop body: the updated estimator and the
    log-likelihood of the parameters it was computed from. *)
Definition em_update (h : HMM) (iter : nat) : option (HMM * num) :=
  match _forward h with
  | None => None
  | Some f =>
      match _backward h (c f) with
      | None => None
      | Some beta =>
          match _estep h (alpha f) beta with
          | None => None
          | Some e =>
              match _mstep h (gamma e) (xi e) with
              | None => None
              | Some m => Some (set_params h m (logLik f) (Z.of_nat iter + 1), logLik f)
              end
          end
      end
  end.

(** The per-iteration call and the call that reports convergence. *)

Definition iter_call (iter : nat) (prevLL ll : num) : call :=
  {| call_message :=
       Iter_message (Z.of_nat iter + 1) ll
         (if negb (isFinite prevLL) then None else Some (ll - prevLL));
     call_iter := Z.of_nat iter;
     call_done := None |}.

Definition done_call (iter : nat) : call :=
  {| call_message := Converged_message (Z.of_nat iter + 1);
     call_iter := Z.of_nat iter;
     call_done := Some true |}.

(** The convergence test of the loop body at index [iter]. *)

Definition fires (iter : nat) (prevLL ll eps : num) : bool :=
  (0 <? iter)%nat && (Math_abs (ll - prevLL) <? eps).

Definition same_model (h h' : HMM) : Prop :=
  Obs h' = Obs h /\ T h' = T h /\ N h' = N h /\ M h' = M h /\
  maxIter h' = maxIter h /\ epsilon h' = epsilon h.

Definition same_params (h h' : HMM) : Prop :=
  pi h' = pi h /\ A h' = A h /\ B h' = B h.

Fixpoint iter_calls (iter : nat) (prevLL : num) (lls : list num) : list call :=
  match lls with
  | [] => []
  | ll :: rest => iter_call iter prevLL ll :: iter_calls (S iter) ll rest
  end.

(** No iteration of the run passed the convergence test. *)

Fixpoint no_fire (iter : nat) (prevLL eps : num) (lls : list num) : bool :=
  match lls with
  | [] => true
  | ll :: rest => negb (fires iter prevLL ll eps) && no_fire (S iter) ll eps rest
  end.

(** *** The pieces the statements below speak of *)

(** The row of the forward pass at time [t] before scaling, from the rows
    [alpha] computed so far. *)
Definition forward_raw (h : HMM) (alpha : matrix) (t : nat) : row :=
  match t with
  | O => alpha_raw0 h
  | S t' => alpha_raw h (nth t' alpha []) (S t')
  end.



End Formulas.

Section ShapeDefs.
Context {AR : Arith}.
Local Open Scope num_scope.

(** *** Shapes *)

(** The shape the parameters are meant to have: [pi] of length N, [A] of
    N rows of length N, [B] of N rows of length M. *)
Definition shaped (h : HMM) : Prop :=
  length (pi h) = Nn h /\
  length (A h) = Nn h /\ Forall (fun r : row => length r = Nn h) (A h) /\
  length (B h) = Nn h /\ Forall (fun r : row => length r = Z.to_nat (M h)) (B h).

(** A [T] by [N] matrix. *)
Definition T_by_N (h : HMM) (m : matrix) : Prop :=
  length m = T h /\ Forall (fun r : row => length r = Nn h) m.

End ShapeDefs.

(* ================================================================== *)
(** ** IEEE doubles

  The numbers of the source are binary64 floats, which Rocq's primitive
  floats are, with the same rounding of [+], [-], [*] and [/].
  ECMAScript leaves [Math.log] and [Math.exp] to the implementation
  (up to a few fixed points), so the instance takes them as arguments. *)

#[local] Set Warnings "-inexact-float".

Module F64.

Definition float_of_Z (z : Z) : float :=
  match z with
  | Z0 => PrimFloat.zero
  | Zpos _ => PrimFloat.of_uint63 (Uint63.of_Z z)
  | Zneg _ => PrimFloat.opp (PrimFloat.of_uint63 (Uint63.of_Z (- z)))
  end.

Definition float_ToBoolean (x : float) : bool :=
  negb (PrimFloat.is_zero x || PrimFloat.is_nan x).

Definition arith (ln ex : float -> float) : Arith :=
  {| num := float;
     of_Z := float_of_Z;
     lit_0_2 := 0.2%float;
     lit_1e_300 := 1e-300%float;
     lit_1e_6 := 1e-6%float;
     NaN := PrimFloat.nan;
     neg_Infinity := PrimFloat.neg_infinity;
     nadd := PrimFloat.add;
     nsub := PrimFloat.sub;
     nneg := PrimFloat.opp;
     nmul := PrimFloat.mul;
     ndiv := PrimFloat.div;
     ngt := fun x y => PrimFloat.ltb y x;
     nlt := PrimFloat.ltb;
     ToBoolean := float_ToBoolean;
     isFinite := PrimFloat.is_finite;
     Math_abs := PrimFloat.abs;
     Math_log := ln;
     Math_exp := ex;
     ToBoolean_0 := eq_refl;
     ngt_neg_Infinity := eq_refl;
     isFinite_neg_Infinity := eq_refl |}.

End F64.

(* ================================================================== *)
(** ** Exact arithmetic

    The same operations on real numbers, with the IEEE special values kept
    ([Infinity], [-Infinity], [NaN]) and rounding dropped: every finite
    result is the exact real one.  Zero carries no sign; a division of a
    non-zero number by zero gives the infinity of the dividend's sign. *)

Module XR.

Inductive xreal : Type :=
| Fin (r : R)
| PInf
| NInf
| Nan.

Definition Rgtb (a b : R) : bool := if Rlt_dec b a then true else false.
Definition Reqb (a b : R) : bool := if Req_dec_T a b then true else false.

Definition xneg (x : xreal) : xreal :=
  match x with
  | Fin a => Fin (- a)
  | PInf => NInf
  | NInf => PInf
  | Nan => Nan
  end.

Definition xadd (x y : xreal) : xreal :=
  match x, y with
  | Fin a, Fin b => Fin (a + b)
  | Nan, _ | _, Nan => Nan
  | PInf, NInf | NInf, PInf => Nan
  | PInf, _ | _, PInf => PInf
  | NInf, _ | _, NInf => NInf
  end.

Definition xsub (x y : xreal) : xreal := xadd x (xneg y).

(** The infinity of the sign of [a], or [NaN] when [a] is zero. *)
Definition signed_inf (a : R) : xreal :=
  if Rgtb a 0 then PInf else if Rgtb 0 a then NInf else Nan.

Definition xmul (x y : xreal) : xreal :=
  match x, y with
  | Fin a, Fin b => Fin (a * b)
  | Nan, _ | _, Nan => Nan
  | PInf, Fin a | Fin a, PInf => signed_inf a
  | NInf, Fin a | Fin a, NInf => signed_inf (- a)
  | PInf, PInf | NInf, NInf => PInf
  | PInf, NInf | NInf, PInf => NInf
  end.

Definition xdiv (x y : xreal) : xreal :=
  match x, y with
  | Fin a, Fin b => if Reqb b 0 then signed_inf a else Fin (a / b)
  | Nan, _ | _, Nan => Nan
  | Fin _, PInf | Fin _, NInf => Fin 0
  | PInf, Fin b => if Rgtb 0 b then NInf else PInf
  | NInf, Fin b => if Rgtb 0 b then PInf else NInf
  | _, _ => Nan
  end.

Definition xgt (x y : xreal) : bool :=
  match x, y with
  | Fin a, Fin b => Rgtb a b
  | Nan, _ | _, Nan => false
  | PInf, PInf | NInf, _ | _, PInf => false
  | PInf, _ | _, NInf => true
  end.

Definition xtruthy (x : xreal) : bool :=
  match x with
  | Fin a => negb (Reqb a 0)
  | Nan => false
  | _ => true
  end.

Definition xfinite (x : xreal) : bool :=
  match x with
  | Fin _ => true
  | _ => false
  end.

Definition xabs (x : xreal) : xreal :=
  match x with
  | Fin a => Fin (Rabs a)
  | Nan => Nan
  | _ => PInf
  end.

Definition xlog (x : xreal) : xreal :=
  match x with
  | Fin a => if Rgtb a 0 then Fin (ln a) else if Reqb a 0 then NInf else Nan
  | PInf => PInf
  | _ => Nan
  end.

Definition xexp (x : xreal) : xreal :=
  match x with
  | Fin a => Fin (exp a)
  | PInf => PInf
  | NInf => Fin 0
  | Nan => Nan
  end.

Lemma xtruthy_0 : xtruthy (Fin (IZR 0)) = false.
Proof. simpl. unfold Reqb. now destruct (Req_dec_T 0 0). Qed.

Definition arith : Arith :=
  {| num := xreal;
     of_Z := fun z => Fin (IZR z);
     lit_0_2 := Fin (2 / 10);
     lit_1e_300 := Fin (/ 10 ^ 300);
     lit_1e_6 := Fin (/ 10 ^ 6);
     NaN := Nan;
     neg_Infinity := NInf;
     nadd := xadd;
     nsub := xsub;
     nneg := xneg;
     nmul := xmul;
     ndiv := xdiv;
     ngt := xgt;
     nlt := fun x y => xgt y x;
     ToBoolean := xtruthy;
     isFinite := xfinite;
     Math_abs := xabs;
     Math_log := xlog;
     Math_exp := xexp;
     ToBoolean_0 := xtruthy_0;
     ngt_neg_Infinity := eq_refl;
     isFinite_neg_Infinity := eq_refl |}.

(** The real number a finite value stands for. *)
Definition toR (x : xreal) : R :=
  match x with
  | Fin a => a
  | _ => 0%R
  end.

End XR.

(* ================================================================== *)
(** ** Exact arithmetic: the predicates of the invariants *)

Section ExactDefs.
Import XR.
Local Existing Instance XR.arith.
Local Open Scope num_scope.

(** A finite positive value, a finite value that is not negative. *)
Definition Pos (x : xreal) : Prop := exists a, x = Fin a /\ (0 < a)%R.

Definition NonNeg (x : xreal) : Prop := exists a, x = Fin a /\ (0 <= a)%R.

(** The sum of a list of reals, from the left. *)
Definition Rsum (l : list R) : R := fold_left Rplus l 0%R.

(** What the passes need of the parameters: at least one state, [pi] and
    the rows of [A] of length N with positive entries, and no negative or
    non-finite entry in [B]. *)
Definition Usable (h : HMM) : Prop :=
  (1 <= Nn h)%nat /\
  length (pi h) = Nn h /\ Forall Pos (pi h) /\
  length (A h) = Nn h /\
  Forall (fun r : row => length r = Nn h /\ Forall Pos r) (A h) /\
  Forall (Forall NonNeg) (B h).

(** Every row of [pi], [A] and [B] sums to 1. *)
Definition rows_sum_to_one (h : HMM) : Prop :=
  sum (pi h) = Fin 1 /\
  Forall (fun r : row => sum r = Fin 1) (A h) /\
  Forall (fun r : row => sum r = Fin 1) (B h).

(** The invariant of training: a usable model whose rows sum to 1, with
    N rows of length M in [B]. *)
Definition Model (h : HMM) : Prop :=
  Usable h /\ rows_sum_to_one h /\
  length (B h) = Nn h /\ Forall (fun r : row => length r = Z.to_nat (M h)) (B h).

(** Entry by entry positive matrices of the shape of [alpha] and [beta]. *)
Definition PosMatrix (h : HMM) (m : matrix) : Prop :=
  forall t i, (t < T h)%nat -> (i < Nn h)%nat -> Pos (get2 m t i).

(** The occupancies the E-step returns for a usable model. *)
Definition PosOccupancy (h : HMM) (g : matrix) (x : list matrix) : Prop :=
  (forall t, (t < T h)%nat ->
     length (nth t g []) = Nn h /\ Forall Pos (nth t g []) /\ sum (nth t g []) = Fin 1) /\
  (forall t i j, (S t < T h)%nat -> (i < Nn h)%nat -> (j < Nn h)%nat ->
     Pos (get3 x t i j)) /\
  (forall t, (S t < T h)%nat -> sum2 (nth t x []) = Fin 1).

(** The observation sequence training needs for the rows to stay
    normalised: its recorded length, at least two symbols, one of them a
    symbol of the alphabet. *)
Definition trainable (h : HMM) : Prop :=
  T h = length (Obs h) /\ (2 <= T h)%nat /\
  exists t o, nth_error (Obs h) t = Some o /\ (0 <= o < M h)%Z.

(** A real number or [-Infinity]. *)
Definition extended (x : xreal) : Prop :=
  match x with
  | Fin _ | NInf => True
  | _ => False
  end.

(** [exp] of an extended real, and of its distance to [m]. *)
Definition Rexp (x : xreal) : R :=
  match x with
  | Fin a => exp a
  | _ => 0%R
  end.

Definition Rexp_from (m : R) (x : xreal) : R :=
  match x with
  | Fin a => exp (a - m)
  | _ => 0%R
  end.

Definition pick (max x : xreal) : xreal := if xgt x max then x else max.

End ExactDefs.

(* ================================================================== *)
(** ** Exact arithmetic: the quantities of the passes as real numbers *)

Section ExactQuantities.
Import XR.
Local Existing Instance XR.arith.
Local Open Scope num_scope.

(** A value that is a real number, one in [lo, hi), and an entry of a row
    of [k] initial probabilities: above [1 / (6 k)] and at most 1. *)
Definition real (x : xreal) : Prop := exists a, x = Fin a.

Definition within (lo hi : R) (x : xreal) : Prop :=
  exists a, x = Fin a /\ (lo <= a < hi)%R.

Definition above_sixth (k : Z) (x : xreal) : Prop :=
  exists a, x = Fin a /\ (1 / (6 * IZR k) < a <= 1)%R.

(** Every log-likelihood recorded so far is a real number, at most 0. *)
Definition history_nonpos (h : HMM) : Prop :=
  Forall (fun x => exists a, x = Fin a /\ (a <= 0)%R) (logLikeHistory h).

(** The total of the products [alpha[t][i] * beta[t][i]] at time [t], and
    the total of the products of the slice of [xi] at time [t], for the
    [alpha] and [beta] the two passes compute. *)
Definition occupancy_total (h : HMM) (t : nat) : R :=
  Rsum (map (fun i =>
               toR (get2 (alpha (forward_formula h)) t i)
               * toR (get2 (backward_formula h (c (forward_formula h))) t i))%R
            (seq 0 (Nn h))).

Definition transition_total (h : HMM) (t : nat) : R :=
  Rsum (map (fun i =>
               Rsum (map (fun j =>
                            toR (get2 (alpha (forward_formula h)) t i)
                            * toR (get2 (A h) i j) * toR (emit h j (t + 1))
                            * toR (get2 (backward_formula h (c (forward_formula h)))
                                     (t + 1) j))%R
                         (seq 0 (Nn h))))
            (seq 0 (Nn h))).

(** The soft counts of the M-step: the occupancy of state [i] over the
    times before [upto], and over the times at which [k] was seen. *)
Definition visits (h : HMM) (upto i : nat) : R :=
  Rsum (map (fun t =>
               toR (get2 (gamma (estep_formula h (alpha (forward_formula h))
                                   (backward_formula h (c (forward_formula h))))) t i))
            (seq 0 upto)).

Definition visits_seeing (h : HMM) (i k : nat) : R :=
  Rsum (map (fun t =>
               if (nth t (Obs h) (-1) =? Z.of_nat k)%Z
               then toR (get2 (gamma (estep_formula h (alpha (forward_formula h))
                                        (backward_formula h (c (forward_formula h))))) t i)
               else 0%R)
            (seq 0 (T h))).

(** The forward recursion without scaling, on real numbers:
    [alpha[0][i] = pi[i] * b_i(O[0])] and
    [alpha[t][j] = (sum_i alpha[t-1][i] * A[i][j]) * b_j(O[t])], with [b]
    the floored emission probability. *)
Fixpoint unscaled (h : HMM) (t : nat) (j : nat) : R :=
  match t with
  | O => (toR (get (pi h) j) * toR (emit h j 0))%R
  | S t' =>
      (Rsum (map (fun i => unscaled h t' i * toR (get2 (A h) i j))%R (seq 0 (Nn h)))
       * toR (emit h j t))%R
  end.

(** The product of the scale factors [c[0] ... c[t-1]]. *)
Fixpoint scale_product (h : HMM) (t : nat) : R :=
  match t with
  | O => 1%R
  | S t' => (scale_product h t' * toR (get (c (forward_formula h)) t'))%R
  end.

End ExactQuantities.

(* ================================================================== *)
(** ** Arrays and loops: the facts the passes rest on *)

Section ArrayFacts.
Context {X : Type}.
Implicit Types (a : list X) (v d : X).

Lemma set_length a i v : length (set a i v) = length a.
Proof.
  revert i; induction a as [|x a IH]; intros [|i]; simpl; auto.
Qed.

Lemma nth_set_same a i v d : (i < length a)%nat -> nth i (set a i v) d = v.
Proof.
  revert i; induction a as [|x a IH]; intros [|i] H; simpl in *; try lia; auto.
  apply IH; lia.
Qed.

Lemma nth_set_other a i j v d : i <> j -> nth j (set a i v) d = nth j a d.
Proof.
  revert i j; induction a as [|x a IH]; intros [|i] [|j] H; simpl; auto; try congruence.
Qed.

Lemma set_set a i v w : set (set a i v) i w = set a i w.
Proof.
  revert i; induction a as [|x a IH]; intros [|i]; simpl; auto.
  now rewrite IH.
Qed.

Lemma set_app_length a1 x a2 v :
  set (a1 ++ x :: a2) (length a1) v = a1 ++ v :: a2.
Proof.
  induction a1 as [|y a1 IH]; simpl; auto. now rewrite IH.
Qed.

Lemma set_app_at a1 x a2 k v :
  length a1 = k -> set (a1 ++ x :: a2) k v = a1 ++ v :: a2.
Proof. intros <-. apply set_app_length. Qed.

Lemma nth_app_at a1 x a2 k d :
  length a1 = k -> nth k (a1 ++ x :: a2) d = x.
Proof. intros <-. rewrite app_nth2 by lia. now rewrite Nat.sub_diag. Qed.

Lemma skipn_cons_nth a k d :
  (k < length a)%nat -> skipn k a = nth k a d :: skipn (S k) a.
Proof.
  revert k; induction a as [|x a IH]; intros [|k] H; simpl in *; try lia; auto.
  apply IH; lia.
Qed.

Lemma firstn_succ_nth a k d :
  (k < length a)%nat -> firstn (S k) a = firstn k a ++ [nth k a d].
Proof.
  revert k; induction a as [|x a IH]; intros [|k] H; simpl in *; try lia; auto.
  f_equal. apply IH; lia.
Qed.

Lemma for_range_nil {S : Type} lo hi (body : nat -> S -> S) s :
  (hi <= lo)%nat -> for_range lo hi body s = s.
Proof.
  intros H. unfold for_range. now replace (hi - lo)%nat with 0%nat by lia.
Qed.

Lemma for_range_S {S : Type} lo hi (body : nat -> S -> S) s :
  (lo <= hi)%nat ->
  for_range lo (Datatypes.S hi) body s = body hi (for_range lo hi body s).
Proof.
  intros H. unfold for_range.
  replace (Datatypes.S hi - lo)%nat with (Datatypes.S (hi - lo)) by lia.
  rewrite seq_S, fold_left_app. simpl.
  now replace (lo + (hi - lo))%nat with hi by lia.
Qed.

(** The invariant rule of an upward loop. *)
Lemma for_range_ind {S : Type} (P : nat -> S -> Prop) lo hi (body : nat -> S -> S) s :
  (lo <= hi)%nat ->
  P lo s ->
  (forall i s, (lo <= i < hi)%nat -> P i s -> P (Datatypes.S i) (body i s)) ->
  P hi (for_range lo hi body s).
Proof.
  intros Hle H0 Hstep.
  induction hi as [|hi IH].
  - assert (lo = 0%nat) by lia; subst. now rewrite for_range_nil.
  - destruct (Nat.eq_dec lo (Datatypes.S hi)) as [->|Hne].
    + now rewrite for_range_nil.
    + rewrite for_range_S by lia.
      apply Hstep; [lia|]. apply IH; [lia|].
      intros i s' Hi. apply Hstep. lia.
Qed.

Lemma for_down_S {S : Type} hi (body : nat -> S -> S) s :
  for_down (Datatypes.S hi) body s = for_down hi body (body hi s).
Proof.
  unfold for_down. rewrite seq_S, rev_app_distr. reflexivity.
Qed.

(** The invariant rule of a downward loop. *)
Lemma for_down_ind {S : Type} (P : nat -> S -> Prop) hi (body : nat -> S -> S) s :
  P hi s ->
  (forall t s, (t < hi)%nat -> P (Datatypes.S t) s -> P t (body t s)) ->
  P 0%nat (for_down hi body s).
Proof.
  revert s. induction hi as [|hi IH]; intros s H0 Hstep.
  - exact H0.
  - rewrite for_down_S. apply IH.
    + apply Hstep; [lia | exact H0].
    + intros t s' Ht. apply Hstep. lia.
Qed.

(** Two loops whose bodies agree run alike. *)
Lemma for_range_ext {S : Type} lo hi (body body' : nat -> S -> S) s :
  (forall i s, (lo <= i < hi)%nat -> body i s = body' i s) ->
  for_range lo hi body s = for_range lo hi body' s.
Proof.
  intros H. destruct (Nat.le_gt_cases lo hi) as [Hle|Hgt].
  - induction hi as [|hi IH].
    + now rewrite !for_range_nil by lia.
    + destruct (Nat.eq_dec lo (Datatypes.S hi)) as [->|Hne].
      * now rewrite !for_range_nil by lia.
      * rewrite !for_range_S by lia. rewrite IH; [|intros; apply H; lia|lia].
        apply H. lia.
  - now rewrite !for_range_nil by lia.
Qed.

End ArrayFacts.

Section LoopFacts.
Context {AR : Arith}.
Local Open Scope num_scope.

Lemma set_nth_self {X : Type} (a : list X) i d :
  (i < length a)%nat -> set a i (nth i a d) = a.
Proof.
  revert i; induction a as [|x a IH]; intros [|i] H; simpl in *; try lia; auto.
  rewrite IH; auto; lia.
Qed.

Lemma get2_set_same (m : matrix) t r i :
  (t < length m)%nat -> get2 (set m t r) t i = get r i.
Proof. intros H. unfold get2. now rewrite nth_set_same. Qed.

Lemma get2_set_other (m : matrix) t t' r i :
  t <> t' -> get2 (set m t r) t' i = get2 m t' i.
Proof. intros H. unfold get2. now rewrite nth_set_other. Qed.

Lemma set2_set (m : matrix) t r j v :
  (t < length m)%nat -> set2 (set m t r) t j v = set m t (set r j v).
Proof. intros H. unfold set2. now rewrite nth_set_same, set_set. Qed.

Lemma for_range_sum (n : nat) (f : nat -> num) a0 :
  for_range 0 n (fun i acc => acc + f i) a0 = fold_left nadd (map f (seq 0 n)) a0.
Proof.
  unfold for_range. rewrite Nat.sub_0_r.
  revert a0. generalize (seq 0 n). induction l as [|x l IH]; intros a0; simpl; auto.
Qed.

Lemma Float64Array_length n : length (Float64Array n) = n.
Proof. apply repeat_length. Qed.

(** Writing [f k] after the first [k] entries were written. *)
Lemma set_prefix (f : nat -> num) (g0 : row) k :
  (k < length g0)%nat ->
  set (map f (seq 0 k) ++ skipn k g0) k (f k) = map f (seq 0 (S k)) ++ skipn (S k) g0.
Proof.
  intros Hk.
  rewrite (skipn_cons_nth g0 k NaN) by lia.
  rewrite set_app_at by now rewrite length_map, length_seq.
  rewrite seq_S, map_app. simpl. now rewrite <- app_assoc.
Qed.

Lemma prefix_length (f : nat -> num) (g0 : row) k :
  (k <= length g0)%nat -> length (map f (seq 0 k) ++ skipn k g0) = length g0.
Proof. intros H. rewrite length_app, length_map, length_seq, length_skipn. lia. Qed.

Lemma set_mapped (op : num -> num) (g : row) k :
  (k < length g)%nat ->
  set (map op (firstn k g) ++ skipn k g) k
      (op (get (map op (firstn k g) ++ skipn k g) k))
  = map op (firstn (S k) g) ++ skipn (S k) g.
Proof.
  intros Hk.
  assert (Hl : length (map op (firstn k g)) = k)
    by (rewrite length_map, length_firstn; lia).
  rewrite (skipn_cons_nth g k NaN) by lia.
  unfold get. rewrite nth_app_at by exact Hl.
  rewrite set_app_at by exact Hl.
  rewrite (firstn_succ_nth g k NaN) by lia.
  rewrite map_app. simpl. now rewrite <- app_assoc.
Qed.

Lemma mapped_length (op : num -> num) (g : row) k :
  length (map op (firstn k g) ++ skipn k g) = length g.
Proof.
  rewrite <- (firstn_skipn k g) at 3. now rewrite !length_app, length_map.
Qed.

(** A loop that writes [f i] at index [i] and adds [f i] to an accumulator
    builds [map f] and its left-to-right sum. *)
Lemma fill_acc (body : nat -> row * num -> row * num) (f : nat -> num) n g0 s0 :
  length g0 = n ->
  (forall i g s, (i < n)%nat -> length g = n ->
     body i (g, s) = (set g i (f i), s + f i)) ->
  for_range 0 n body (g0, s0)
  = (map f (seq 0 n), fold_left nadd (map f (seq 0 n)) s0).
Proof.
  intros Hlen Hb.
  assert (H : forall k, (k <= n)%nat ->
    for_range 0 k body (g0, s0)
    = (map f (seq 0 k) ++ skipn k g0, fold_left nadd (map f (seq 0 k)) s0)).
  { induction k as [|k IH]; intros Hk.
    - reflexivity.
    - rewrite for_range_S by lia. rewrite IH by lia.
      rewrite Hb; [|lia|rewrite prefix_length; lia].
      rewrite set_prefix by lia.
      now rewrite (seq_S k), map_app, fold_left_app. }
  rewrite H by lia. rewrite skipn_all2 by lia. now rewrite app_nil_r.
Qed.

(** A loop that replaces every entry by its image under [op]. *)
Lemma map_loop (body : nat -> row -> row) (op : num -> num) n (g : row) :
  length g = n ->
  (forall i r, (i < n)%nat -> length r = n -> body i r = set r i (op (get r i))) ->
  for_range 0 n body g = map op g.
Proof.
  intros Hlen Hb.
  assert (H : forall k, (k <= n)%nat ->
    for_range 0 k body g = map op (firstn k g) ++ skipn k g).
  { induction k as [|k IH]; intros Hk.
    - reflexivity.
    - rewrite for_range_S by lia. rewrite IH by lia.
      rewrite Hb; [|lia|rewrite mapped_length; lia].
      apply set_mapped. lia. }
  rewrite H by lia. rewrite firstn_all2, skipn_all2 by lia. now rewrite app_nil_r.
Qed.

(** The same two loops on row [t] of a matrix. *)
Lemma fill_row_acc (body : nat -> matrix * num -> matrix * num) (f : nat -> num)
      (m0 : matrix) (t n : nat) (s0 : num) :
  (t < length m0)%nat ->
  length (nth t m0 []) = n ->
  (forall j r s, (j < n)%nat -> length r = n ->
     body j (set m0 t r, s) = (set m0 t (set r j (f j)), s + f j)) ->
  for_range 0 n body (m0, s0)
  = (set m0 t (map f (seq 0 n)), fold_left nadd (map f (seq 0 n)) s0).
Proof.
  intros Ht Hlen Hb.
  assert (H : forall k, (k <= n)%nat ->
    for_range 0 k body (m0, s0)
    = (set m0 t (map f (seq 0 k) ++ skipn k (nth t m0 [])),
       fold_left nadd (map f (seq 0 k)) s0)).
  { induction k as [|k IH]; intros Hk.
    - simpl. now rewrite set_nth_self.
    - rewrite for_range_S by lia. rewrite IH by lia.
      rewrite Hb; [|lia|rewrite prefix_length; lia].
      rewrite set_prefix by lia.
      now rewrite (seq_S k), map_app, fold_left_app. }
  rewrite H by lia. rewrite skipn_all2 by lia. now rewrite app_nil_r.
Qed.

Lemma map_row (body : nat -> matrix -> matrix) (op : num -> num)
      (m0 : matrix) (t n : nat) (r0 : row) :
  (t < length m0)%nat ->
  length r0 = n ->
  (forall j r, (j < n)%nat -> length r = n ->
     body j (set m0 t r) = set m0 t (set r j (op (get r j)))) ->
  for_range 0 n body (set m0 t r0) = set m0 t (map op r0).
Proof.
  intros Ht Hlen Hb.
  assert (H : forall k, (k <= n)%nat ->
    for_range 0 k body (set m0 t r0)
    = set m0 t (map op (firstn k r0) ++ skipn k r0)).
  { induction k as [|k IH]; intros Hk.
    - reflexivity.
    - rewrite for_range_S by lia. rewrite IH by lia.
      rewrite Hb; [|lia|rewrite mapped_length; lia].
      f_equal. apply set_mapped. lia. }
  rewrite H by lia. rewrite firstn_all2, skipn_all2 by lia. now rewrite app_nil_r.
Qed.


Lemma Array_from_const {X : Type} (x : X) k : Array_from k (fun _ => x) = repeat x k.
Proof.
  unfold Array_from. generalize 0%nat. induction k as [|k IH]; intros s; simpl; auto.
  now rewrite IH.
Qed.

Lemma set_app_repeat {X : Type} (l : list X) (x y : X) k t :
  length l = t -> set (l ++ repeat x (S k)) t y = (l ++ [y]) ++ repeat x k.
Proof.
  intros Hl. simpl repeat. rewrite set_app_at by exact Hl.
  now rewrite <- app_assoc.
Qed.

Lemma nth_app_repeat {X : Type} (l : list X) (x d : X) k t :
  length l = t -> nth t (l ++ repeat x (S k)) d = x.
Proof. intros Hl. simpl repeat. now apply nth_app_at. Qed.

Lemma get2_map_seq (f : nat -> row) (t' t : nat) (rest : matrix) i :
  (t' < t)%nat -> get2 (map f (seq 0 t) ++ rest) t' i = get (f t') i.
Proof.
  intros H. unfold get2. rewrite app_nth1 by now rewrite length_map, length_seq.
  rewrite (nth_indep _ [] (f 0%nat)) by now rewrite length_map, length_seq.
  rewrite map_nth. now rewrite seq_nth.
Qed.

Lemma get_map_seq (f : nat -> num) (t' t : nat) (rest : row) :
  (t' < t)%nat -> get (map f (seq 0 t) ++ rest) t' = f t'.
Proof.
  intros H. unfold get. rewrite app_nth1 by now rewrite length_map, length_seq.
  rewrite (nth_indep _ NaN (f 0%nat)) by now rewrite length_map, length_seq.
  rewrite map_nth. now rewrite seq_nth.
Qed.

Lemma get_set_same (r : row) j v : (j < length r)%nat -> get (set r j v) j = v.
Proof. intros H. unfold get. now apply nth_set_same. Qed.

Lemma app_repeat_lt {X : Type} (l : list X) (x : X) k t :
  length l = t -> (t < length (l ++ repeat x (S k)))%nat.
Proof. intros <-. rewrite length_app, repeat_length. lia. Qed.

Lemma scaled_length (r : row) : length (scaled r) = length r.
Proof. unfold scaled. now rewrite length_map. Qed.

Lemma raw_at_length (h : HMM) t : length (raw_at h t) = Nn h.
Proof.
  destruct t; simpl; unfold alpha_raw0, alpha_raw; now rewrite length_map, length_seq.
Qed.

Lemma alpha_at_length (h : HMM) t : length (alpha_at h t) = Nn h.
Proof. unfold alpha_at. now rewrite scaled_length, raw_at_length. Qed.

Lemma fill_row (body : nat -> matrix -> matrix) (f : nat -> num)
      (m0 : matrix) (t n : nat) :
  (t < length m0)%nat ->
  length (nth t m0 []) = n ->
  (forall j r, (j < n)%nat -> length r = n ->
     body j (set m0 t r) = set m0 t (set r j (f j))) ->
  for_range 0 n body m0 = set m0 t (map f (seq 0 n)).
Proof.
  intros Ht Hlen Hb.
  assert (H : forall k, (k <= n)%nat ->
    for_range 0 k body m0 = set m0 t (map f (seq 0 k) ++ skipn k (nth t m0 []))).
  { induction k as [|k IH]; intros Hk.
    - simpl. now rewrite set_nth_self.
    - rewrite for_range_S by lia. rewrite IH by lia.
      rewrite Hb; [|lia|rewrite prefix_length; lia].
      now rewrite set_prefix by lia. }
  rewrite H by lia. rewrite skipn_all2 by lia. now rewrite app_nil_r.
Qed.

Lemma map_get_seq (r : row) : map (get r) (seq 0 (length r)) = r.
Proof.
  apply (nth_ext _ _ NaN NaN).
  - now rewrite length_map, length_seq.
  - intros i Hi. rewrite length_map, length_seq in Hi.
    rewrite (nth_indep _ NaN (get r 0)) by now rewrite length_map, length_seq.
    rewrite map_nth. now rewrite seq_nth.
Qed.

Lemma map_seq_get (g : num -> num) (r : row) n :
  length r = n -> map (fun i => g (get r i)) (seq 0 n) = map g r.
Proof.
  intros <-. rewrite <- (map_get_seq r) at 2. now rewrite map_map.
Qed.

(** A loop over the indices of an array that folds its entries. *)
Lemma index_loop {S : Type} (g : S -> num -> S) (l : row) n a :
  length l = n ->
  for_range 0 n (fun t acc => g acc (get l t)) a = fold_left g l a.
Proof.
  intros <-. unfold for_range. rewrite Nat.sub_0_r.
  rewrite <- (map_get_seq l) at 2.
  generalize (seq 0 (length l)). intros ix. revert a.
  induction ix as [|i ix IH]; intros a; simpl; auto.
Qed.

Lemma get_app_snoc (cs : row) (v : num) (rest : row) t :
  length cs = t -> get ((cs ++ [v]) ++ rest) t = v.
Proof.
  intros Hc. unfold get. rewrite <- app_assoc. simpl app. now apply nth_app_at.
Qed.

End LoopFacts.

(** The side condition of the loop lemmas: what one turn of the loop does
    to row [t] of the matrix. *)
Ltac fill_side Ht :=
  intros; cbv beta iota zeta;
  rewrite ?set2_set by exact Ht;
  rewrite ?get2_set_same by exact Ht;
  rewrite ?get_set_same by lia.

(* ================================================================== *)
(** ** Each pass computes its formula *)

Section PassFacts.
Context {AR : Arith}.
Local Open Scope num_scope.

Lemma forward_eq (h : HMM) :
  rows_ok h = true -> _forward h = Some (forward_formula h).
Proof.
  intros Hok. unfold _forward. rewrite Hok. change (negb true) with false. cbv iota.
  unfold forward_formula.
  destruct (T h) as [|k] eqn:HT.
  - (* an empty sequence: N <= 0, every loop is empty *)
    assert (Hn : Nn h = 0%nat).
    { unfold rows_ok in Hok. rewrite HT in Hok.
      apply andb_prop in Hok. destruct Hok as [_ H2]. simpl in H2.
      apply negb_true_iff, Z.ltb_ge in H2. unfold Nn. lia. }
    rewrite Hn. reflexivity.
  - cbv zeta. rewrite !Array_from_const. unfold Float64Array at 3 4.
    set (zeros := Float64Array (Nn h)).
    (* t = 0 *)
    assert (Ht0 : (0 < length (repeat zeros (S k)))%nat) by (simpl; lia).
    match goal with |- context [for_range 0 (Nn h) ?b (repeat zeros (S k), 0)] =>
      rewrite (fill_row_acc b (fun i => get (pi h) i * emit h i 0)
                            (repeat zeros (S k)) 0 (Nn h) 0 Ht0)
    end.
    2:{ apply Float64Array_length. }
    2:{ fill_side Ht0. reflexivity. }
    cbv iota.
    fold (alpha_raw0 h). fold (sum (alpha_raw0 h)).
    match goal with |- context [for_range 0 (Nn h) ?b (set (repeat zeros (S k)) 0 (alpha_raw0 h))] =>
      rewrite (map_row b (fun x => x * scale (sum (alpha_raw0 h)))
                       (repeat zeros (S k)) 0 (Nn h) (alpha_raw0 h) Ht0)
    end.
    2:{ unfold alpha_raw0. now rewrite length_map, length_seq. }
    2:{ fill_side Ht0. reflexivity. }
    (* t = 1 ... T-1 *)
    match goal with |- context [for_range 1 (S k) ?body ?init] =>
      assert (Hloop : exists s, for_range 1 (S k) body init
                = (map (alpha_at h) (seq 0 (S k)) ++ repeat zeros (S k - S k),
                   map (c_at h) (seq 0 (S k)) ++ repeat 0 (S k - S k), s))
    end.
    { apply (for_range_ind (fun t st => exists s, st
                = (map (alpha_at h) (seq 0 t) ++ repeat zeros (S k - t),
                   map (c_at h) (seq 0 t) ++ repeat 0 (S k - t), s))); [lia| |].
      - exists (sum (alpha_raw0 h)). replace (S k - 1)%nat with k by lia. reflexivity.
      - intros t st Ht [s ->]. cbv iota.
        destruct t as [|t']; [lia|].
        replace (S k - S t')%nat with (S (k - S t')) by lia.
        set (done := map (alpha_at h) (seq 0 (S t'))).
        set (cs := map (c_at h) (seq 0 (S t'))).
        assert (Hd : length done = S t') by (unfold done; now rewrite length_map, length_seq).
        assert (Hc : length cs = S t') by (unfold cs; now rewrite length_map, length_seq).
        pose proof (app_repeat_lt done zeros (k - S t') (S t') Hd) as Hlt.
        rewrite (fill_row_acc _ (fun j =>
                   sum_over (Nn h) (fun i => get (alpha_at h t') i * get2 (A h) i j)
                   * emit h j (S t'))
                   (done ++ repeat zeros (S (k - S t'))) (S t') (Nn h) 0 Hlt).
        2:{ rewrite nth_app_repeat by exact Hd. apply Float64Array_length. }
        2:{ fill_side Hlt.
            assert (E : for_range 0 (Nn h)
                          (fun i acc => acc + get2 (set (done ++ repeat zeros (S (k - S t'))) (S t') r) (S t' - 1) i * get2 (A h) i j) 0
                        = sum_over (Nn h) (fun i => get (alpha_at h t') i * get2 (A h) i j)).
            { rewrite for_range_sum. unfold sum_over, sum. f_equal.
              apply map_ext. intros i.
              rewrite get2_set_other by lia.
              replace (S t' - 1)%nat with t' by lia.
              unfold done. rewrite get2_map_seq by lia. reflexivity. }
            rewrite E. reflexivity. }
        cbv iota.
        change (map _ (seq 0 (Nn h))) with (raw_at h (S t')).
        fold (sum (raw_at h (S t'))).
        rewrite (map_row _ (fun x => x * scale (sum (raw_at h (S t'))))
                   (done ++ repeat zeros (S (k - S t'))) (S t') (Nn h) (raw_at h (S t')) Hlt).
        2:{ apply raw_at_length. }
        2:{ fill_side Hlt. rewrite (set_app_repeat cs) by exact Hc.
            rewrite get_app_snoc by exact Hc. reflexivity. }
        rewrite !set_app_repeat by assumption.
        exists (sum (raw_at h (S t'))).
        unfold done, cs. rewrite (seq_S (S t')), !map_app. simpl.
        replace (k - S t')%nat with (k - t' - 1)%nat by lia. reflexivity. }
    destruct Hloop as [s ->]. cbv iota.
    rewrite Nat.sub_diag. simpl repeat.
    f_equal. f_equal.
    + apply app_nil_r.
    + apply app_nil_r.
    + rewrite app_nil_r.
      apply (index_loop (fun ll x => ll - Math_log (floor_pos x))).
      now rewrite length_map, length_seq.
    + fold zeros.
      match goal with |- for_range 0 (S k) ?body ?init = _ =>
        assert (Hla : for_range 0 (S k) body init
                = map (fun t => logAlpha_row (alpha_at h t) (c_at h t)) (seq 0 (S k))
                  ++ repeat zeros (S k - S k));
        [| rewrite Hla, Nat.sub_diag; apply app_nil_r]
      end.
      apply (for_range_ind (fun t st => st
                = map (fun t => logAlpha_row (alpha_at h t) (c_at h t)) (seq 0 t)
                  ++ repeat zeros (S k - t))); [lia|reflexivity|].
      intros t st Ht ->.
      replace (S k - t)%nat with (S (k - t)) by lia.
      set (done := map (fun t => logAlpha_row (alpha_at h t) (c_at h t)) (seq 0 t)).
      assert (Hd : length done = t) by (unfold done; now rewrite length_map, length_seq).
      pose proof (app_repeat_lt done zeros (k - t) t Hd) as Hlt.
      rewrite (fill_row _ (fun i =>
                 Math_log (floor_pos (get (alpha_at h t) i))
                 + - Math_log (floor_pos (c_at h t)))
                 (done ++ repeat zeros (S (k - t))) t (Nn h) Hlt).
      2:{ rewrite nth_app_repeat by exact Hd. apply Float64Array_length. }
      2:{ fill_side Hlt. rewrite get2_map_seq by lia. rewrite get_map_seq by lia.
          reflexivity. }
      rewrite set_app_repeat by exact Hd.
      rewrite (map_seq_get (fun x => Math_log (floor_pos x) + - Math_log (floor_pos (c_at h t))))
        by apply alpha_at_length.
      unfold done. rewrite (seq_S t), map_app. simpl.
      replace (k - t)%nat with (S k - S t)%nat by lia. reflexivity.
Qed.

Lemma repeat_snoc {X : Type} (x : X) t : repeat x (S t) = repeat x t ++ [x].
Proof. induction t as [|t IH]; simpl in *; auto. now rewrite <- IH. Qed.

Lemma rows_ok_Nn (h : HMM) : rows_ok h = true -> T h = 0%nat -> Nn h = 0%nat.
Proof.
  intros Hok HT. unfold rows_ok in Hok. rewrite HT in Hok.
  apply andb_prop in Hok. destruct Hok as [_ H2]. simpl in H2.
  apply negb_true_iff, Z.ltb_ge in H2. unfold Nn. lia.
Qed.

Lemma get2_after_zeros (zeros z : row) (f : nat -> row) t k j :
  get2 (repeat zeros t ++ z :: map f (seq (S t) (S k))) (S t) j = get (f (S t)) j.
Proof.
  unfold get2. rewrite app_nth2 by (rewrite repeat_length; lia).
  rewrite repeat_length. replace (S t - t)%nat with 1%nat by lia. reflexivity.
Qed.

Lemma beta_at_last (h : HMM) (c : row) t :
  S t = T h -> beta_at h c t = beta_last h c.
Proof.
  intros Ht. unfold beta_at. now replace (T h - 1 - t)%nat with 0%nat by lia.
Qed.

Lemma beta_at_step (h : HMM) (c : row) t :
  (S t < T h)%nat -> beta_at h c t = beta_prev h c (beta_at h c (S t)) t.
Proof.
  intros Ht. unfold beta_at.
  now replace (T h - 1 - t)%nat with (S (T h - 1 - S t)) by lia.
Qed.

Lemma backward_eq (h : HMM) (c : row) :
  rows_ok h = true -> _backward h c = Some (backward_formula h c).
Proof.
  intros Hok. unfold _backward. rewrite Hok. change (negb true) with false. cbv iota.
  unfold backward_formula. cbv zeta. rewrite Array_from_const.
  remember (T h) as T0 eqn:HT. symmetry in HT.
  destruct T0 as [|k].
  - rewrite (rows_ok_Nn h Hok HT). reflexivity.
  - set (zeros := Float64Array (Nn h)).
    replace (S k - 1)%nat with k by lia.
    f_equal.
    (* t = T-1 *)
    assert (Hk : (k < length (repeat zeros (S k)))%nat) by (rewrite repeat_length; lia).
    rewrite (fill_row _ (fun _ => get c k) (repeat zeros (S k)) k (Nn h) Hk).
    2:{ rewrite nth_repeat_lt by lia. apply Float64Array_length. }
    2:{ fill_side Hk. reflexivity. }
    rewrite repeat_snoc. rewrite set_app_at by apply repeat_length.
    (* t = T-2 ... 0 *)
    apply (for_down_ind (fun t st => st
             = repeat zeros t ++ map (beta_at h c) (seq t (S k - t)))).
    + replace (S k - k)%nat with 1%nat by lia. simpl map.
      rewrite beta_at_last by lia.
      unfold beta_last. rewrite HT. replace (S k - 1)%nat with k by lia. reflexivity.
    + intros t st Ht ->.
      replace (S k - t)%nat with (S (S (k - S t))) by lia.
      replace (S k - S t)%nat with (S (k - S t)) by lia.
      rewrite repeat_snoc, <- app_assoc. simpl app.
      set (rest := map (beta_at h c) (seq (S t) (S (k - S t)))).
      assert (Hlt : (t < length (repeat zeros t ++ zeros :: rest))%nat)
        by (rewrite length_app, repeat_length; simpl; lia).
      rewrite (fill_row _ (fun i =>
                 sum_over (Nn h) (fun j =>
                   get2 (A h) i j * emit h j (t + 1) * get (beta_at h c (S t)) j)
                 * get c t)
                 (repeat zeros t ++ zeros :: rest) t (Nn h) Hlt).
      2:{ rewrite nth_app_at by apply repeat_length. apply Float64Array_length. }
      2:{ fill_side Hlt.
          match goal with |- context [for_range 0 (Nn h) ?b 0] =>
            assert (E : for_range 0 (Nn h) b 0
                      = sum_over (Nn h) (fun j' =>
                          get2 (A h) j j' * emit h j' (t + 1) * get (beta_at h c (S t)) j'))
          end.
          { rewrite for_range_sum. unfold sum_over, sum. f_equal.
            apply map_ext. intros j'.
            rewrite get2_set_other by lia.
            replace (t + 1)%nat with (S t) by lia.
            unfold rest. now rewrite get2_after_zeros. }
          rewrite E. reflexivity. }
      rewrite set_app_at by apply repeat_length.
      f_equal.
      unfold rest. simpl. f_equal.
      rewrite (beta_at_step h c t) by lia. reflexivity.
Qed.


(** A loop that replaces every element of a list by its image under [op],
    for elements that keep a property [Q]. *)
Lemma map_loop_on {X : Type} (Q : X -> Prop) (d : X) (body : nat -> list X -> list X)
      (op : X -> X) n (g : list X) :
  length g = n ->
  Forall Q g ->
  (forall x, Q x -> Q (op x)) ->
  (forall i r, (i < n)%nat -> length r = n -> Forall Q r ->
     body i r = set r i (op (nth i r d))) ->
  for_range 0 n body g = map op g.
Proof.
  intros Hlen HQ Hop Hb.
  assert (H : forall k, (k <= n)%nat ->
    for_range 0 k body g = map op (firstn k g) ++ skipn k g).
  { induction k as [|k IH]; intros Hk.
    - reflexivity.
    - rewrite for_range_S by lia. rewrite IH by lia.
      assert (Hl : length (map op (firstn k g)) = k)
        by (rewrite length_map, length_firstn; lia).
      rewrite Hb; [|lia| |].
      + rewrite (skipn_cons_nth g k d) by lia.
        rewrite nth_app_at by exact Hl.
        rewrite set_app_at by exact Hl.
        rewrite (firstn_succ_nth g k d) by lia.
        rewrite map_app. simpl. now rewrite <- app_assoc.
      + rewrite length_app, length_map, length_firstn, length_skipn. lia.
      + pose proof HQ as HQ'. rewrite <- (firstn_skipn k g) in HQ'.
        apply Forall_app in HQ'. destruct HQ' as [HQ1 HQ2].
        apply Forall_app. split; [|exact HQ2].
        apply Forall_map. eapply Forall_impl; [apply Hop | exact HQ1]. }
  rewrite H by lia. rewrite firstn_all2, skipn_all2 by lia. now rewrite app_nil_r.
Qed.

Lemma sum2_snoc (m : matrix) (r : row) s0 :
  fold_left nadd (concat (m ++ [r])) s0 = fold_left nadd r (fold_left nadd (concat m) s0).
Proof. rewrite concat_app. simpl. now rewrite app_nil_r, fold_left_app. Qed.

Lemma estep_eq (h : HMM) (alpha beta : matrix) :
  alloc_ok h = true -> _estep h alpha beta = Some (estep_formula h alpha beta).
Proof.
  intros Hok. unfold _estep. rewrite Hok. change (negb true) with false. cbv iota.
  cbv zeta. unfold estep_formula, Array_from at 1 2. f_equal. f_equal.
  - (* gamma *)
    apply map_ext. intros t.
    rewrite (fill_acc _ (fun i => get2 alpha t i * get2 beta t i)
                      (Nn h) (Float64Array (Nn h)) 0).
    2:{ apply Float64Array_length. }
    2:{ intros i g s Hi Hg. cbv beta iota zeta.
        now rewrite get_set_same by lia. }
    cbv iota. fold (gamma_raw h alpha beta t). fold (sum (gamma_raw h alpha beta t)).
    unfold normalised_if_pos.
    destruct (sum (gamma_raw h alpha beta t) >? 0); [|reflexivity].
    apply map_loop.
    + unfold gamma_raw. now rewrite length_map, length_seq.
    + reflexivity.
  - (* xi *)
    apply map_ext. intros t.
    rewrite Array_from_const.
    set (zeros := Float64Array (Nn h)).
    set (rowf := fun i => map (fun j =>
           get2 alpha t i * get2 (A h) i j * emit h j (t + 1) * get2 beta (t + 1) j)
           (seq 0 (Nn h))).
    match goal with |- context [for_range 0 (Nn h) ?body (repeat zeros (Nn h), 0)] =>
      assert (Hfill : for_range 0 (Nn h) body (repeat zeros (Nn h), 0)
                = (map rowf (seq 0 (Nn h)) ++ repeat zeros (Nn h - Nn h),
                   fold_left nadd (concat (map rowf (seq 0 (Nn h)))) 0))
    end.
    { apply (for_range_ind (fun i st => st
               = (map rowf (seq 0 i) ++ repeat zeros (Nn h - i),
                  fold_left nadd (concat (map rowf (seq 0 i))) 0)));
        [lia | now rewrite Nat.sub_0_r |].
      intros i st Hi ->. cbv iota.
      replace (Nn h - i)%nat with (S (Nn h - S i)) by lia.
      set (done := map rowf (seq 0 i)).
      assert (Hd : length done = i) by (unfold done; now rewrite length_map, length_seq).
      pose proof (app_repeat_lt done zeros (Nn h - S i) i Hd) as Hlt.
      rewrite (fill_row_acc _ (fun j =>
                 get2 alpha t i * get2 (A h) i j * emit h j (t + 1) * get2 beta (t + 1) j)
                 (done ++ repeat zeros (S (Nn h - S i))) i (Nn h) _ Hlt).
      2:{ rewrite nth_app_repeat by exact Hd. apply Float64Array_length. }
      2:{ fill_side Hlt. reflexivity. }
      fold (rowf i).
      rewrite set_app_repeat by exact Hd.
      unfold done. rewrite (seq_S i), map_app. simpl map.
      now rewrite sum2_snoc. }
    rewrite Hfill. cbv iota. rewrite Nat.sub_diag. simpl repeat. rewrite app_nil_r.
    change (map rowf (seq 0 (Nn h))) with (xi_raw h alpha beta t).
    change (fold_left nadd (concat (xi_raw h alpha beta t)) 0)
      with (sum2 (xi_raw h alpha beta t)).
    unfold normalised2_if_pos.
    destruct (sum2 (xi_raw h alpha beta t) >? 0); [|reflexivity].
    apply (map_loop_on (fun r => length r = Nn h) []).
    + unfold xi_raw. now rewrite length_map, length_seq.
    + unfold xi_raw. apply Forall_map, Forall_forall. intros i _.
      now rewrite length_map, length_seq.
    + intros r Hr. now rewrite length_map.
    + intros i m Hi Hm HQ.
      assert (Hlt : (i < length m)%nat) by lia.
      rewrite <- (set_nth_self m i []) at 1 by exact Hlt.
      apply map_row; auto.
      * rewrite Forall_forall in HQ. apply HQ, nth_In. lia.
      * intros j r Hj Hr. fill_side Hlt. reflexivity.
Qed.

Lemma mstep_eq (h : HMM) (gamma : matrix) (xi : list matrix) :
  gamma <> [] -> _mstep h gamma xi = Some (mstep_formula h gamma xi).
Proof.
  intros Hg. unfold _mstep. destruct gamma as [|gamma0 rest]; [congruence|].
  cbv zeta. unfold mstep_formula, Array_from. simpl nth.
  f_equal. f_equal.
  - rewrite map_map. apply map_ext. intros i. f_equal.
    apply map_ext. intros j. unfold A_ratio.
    now rewrite !for_range_sum.
  - rewrite map_map. apply map_ext. intros i. f_equal.
    apply map_ext. intros k. unfold B_ratio, count_symbol.
    rewrite for_range_sum. unfold for_range. now rewrite Nat.sub_0_r.
Qed.


End PassFacts.

(* ================================================================== *)
(** ** The training loop *)

Section TrainFacts.
Context {AR : Arith}.
Local Open Scope num_scope.

Lemma train_body_cases (cb : bool) (iter : nat) (s : loop_state) r :
  train_body cb iter s = Some r ->
  exists h1 ll,
    em_update (ls_hmm s) iter = Some (h1, ll) /\
    if fires iter (ls_prevLL s) ll (epsilon (ls_hmm s)) then
      exists h2,
        final_pass (set_converged h1) = Some h2 /\
        r = inl {| ls_hmm := h2;
                   ls_prevLL := ls_prevLL s;
                   ls_calls :=
                     invoke cb (invoke cb (ls_calls s) (iter_call iter (ls_prevLL s) ll))
                            (done_call iter) |}
    else
      r = inr {| ls_hmm := h1;
                 ls_prevLL := ll;
                 ls_calls := invoke cb (ls_calls s) (iter_call iter (ls_prevLL s) ll) |}.
Proof.
  unfold train_body, em_update, fires.
  destruct (_forward (ls_hmm s)) as [f|]; [|discriminate].
  destruct (_backward (ls_hmm s) (c f)) as [beta|]; [|discriminate].
  destruct (_estep (ls_hmm s) (alpha f) beta) as [e|]; [|discriminate].
  destruct (_mstep (ls_hmm s) (gamma e) (xi e)) as [m|]; [|discriminate].
  cbv zeta. intros H. eexists _, _. split; [reflexivity|].
  change (epsilon (set_params (ls_hmm s) m (logLik f) (Z.of_nat iter + 1)))
    with (epsilon (ls_hmm s)) in H.
  destruct ((0 <? iter)%nat && (Math_abs (logLik f - ls_prevLL s) <? epsilon (ls_hmm s))).
  - destruct (final_pass _) as [h2|]; [|discriminate].
    exists h2. split; [reflexivity|]. now inversion H.
  - now inversion H.
Qed.


(** The fields the passes read. *)

Lemma passes_ext (h h' : HMM) :
  same_model h h' -> same_params h h' ->
  _forward h' = _forward h /\
  (forall c, _backward h' c = _backward h c) /\
  (forall a b, _estep h' a b = _estep h a b).
Proof.
  intros (HO & HT & HN & HM & _ & _) (Hpi & HA & HB).
  destruct h, h'. simpl in *. subst.
  repeat split.
Qed.

Lemma em_update_fields (h h1 : HMM) (iter : nat) (ll : num) :
  em_update h iter = Some (h1, ll) ->
  same_model h h1 /\
  converged h1 = converged h /\
  logLikeHistory h1 = logLikeHistory h ++ [ll] /\
  iterations h1 = (Z.of_nat iter + 1)%Z /\
  finalAlpha h1 = finalAlpha h /\ finalGamma h1 = finalGamma h.
Proof.
  unfold em_update.
  destruct (_forward h) as [f|]; [|discriminate].
  destruct (_backward h (c f)) as [beta|]; [|discriminate].
  destruct (_estep h (alpha f) beta) as [e|]; [|discriminate].
  destruct (_mstep h (gamma e) (xi e)) as [m|]; [|discriminate].
  intros H. inversion H; subst. unfold same_model. simpl. repeat split.
Qed.

Lemma final_pass_fields (h h2 : HMM) :
  final_pass h = Some h2 ->
  same_model h h2 /\ same_params h h2 /\
  converged h2 = converged h /\
  logLikeHistory h2 = logLikeHistory h /\
  iterations h2 = iterations h /\
  exists f b e,
    _forward h2 = Some f /\ _backward h2 (c f) = Some b /\
    _estep h2 (alpha f) b = Some e /\
    finalAlpha h2 = Some (logAlpha f) /\ finalGamma h2 = Some (gamma e).
Proof.
  unfold final_pass.
  destruct (_forward h) as [f|] eqn:Ef; [|discriminate].
  destruct (_backward h (c f)) as [b|] eqn:Eb; [|discriminate].
  destruct (_estep h (alpha f) b) as [e|] eqn:Ee; [|discriminate].
  intros H. inversion H; subst. clear H.
  assert (Hm : same_model h (set_final h (logAlpha f) (gamma e)))
    by (unfold same_model; simpl; repeat split).
  assert (Hp : same_params h (set_final h (logAlpha f) (gamma e)))
    by (unfold same_params; simpl; repeat split).
  destruct (passes_ext _ _ Hm Hp) as (E1 & E2 & E3).
  repeat split; try apply Hm; try apply Hp.
  exists f, b, e. rewrite E1, E2, E3. repeat split; assumption.
Qed.

(** The per-iteration calls of consecutive iterations from index [iter],
    given the log-likelihoods [lls] they computed. *)

Lemma last_cons_default {X : Type} (x d : X) (l : list X) :
  last (x :: l) d = last l x.
Proof.
  revert x d. induction l as [|y l IH]; intros x d; [reflexivity|].
  change (last (x :: y :: l) d) with (last (y :: l) d).
  now rewrite !IH.
Qed.

(** What the [for] loop of [train] does, from any iteration index. *)

Lemma train_loop_run (cb : bool) (todo iter : nat) (s s' : loop_state) :
  train_loop cb todo iter s = Some s' ->
  converged (ls_hmm s) = false ->
  let h := ls_hmm s in
  let h' := ls_hmm s' in
  same_model h h' /\
  exists lls,
    logLikeHistory h' = logLikeHistory h ++ lls /\
    (lls <> [] -> iterations h' = Z.of_nat (iter + length lls)) /\
    (lls = [] -> h' = h) /\
    (lls <> [] ->
     exists hprev h1,
       em_update hprev (iter + length lls - 1) = Some (h1, last lls NaN) /\
       same_params h1 h') /\
    if converged h' then
      exists lls0 ll,
        lls = lls0 ++ [ll] /\
        (length lls <= todo)%nat /\
        no_fire iter (ls_prevLL s) (epsilon h) lls0 = true /\
        fires (iter + length lls0) (last lls0 (ls_prevLL s)) ll (epsilon h) = true /\
        ls_calls s' =
          (if cb then ls_calls s ++ iter_calls iter (ls_prevLL s) lls
                      ++ [done_call (iter + length lls0)]
           else ls_calls s) /\
        exists f b e,
          _forward h' = Some f /\ _backward h' (c f) = Some b /\
          _estep h' (alpha f) b = Some e /\
          finalAlpha h' = Some (logAlpha f) /\ finalGamma h' = Some (gamma e)
    else
      length lls = todo /\
      no_fire iter (ls_prevLL s) (epsilon h) lls = true /\
      ls_calls s' = (if cb then ls_calls s ++ iter_calls iter (ls_prevLL s) lls
                     else ls_calls s) /\
      finalAlpha h' = finalAlpha h /\ finalGamma h' = finalGamma h.
Proof.
  revert iter s. induction todo as [|todo IH]; intros iter s Hrun Hconv; simpl in Hrun.
  - inversion Hrun; subst. cbv zeta. split; [unfold same_model; repeat split|].
    exists []. rewrite app_nil_r, Hconv.
    repeat split; try congruence. now destruct cb; rewrite ?app_nil_r.
  - destruct (train_body cb iter s) as [r|] eqn:Hbody; [|discriminate].
    apply train_body_cases in Hbody.
    destruct Hbody as (h1 & ll & Hup & Hcase).
    destruct (em_update_fields _ _ _ _ Hup) as (Hm1 & Hc1 & Hh1 & Hi1 & Hfa1 & Hfg1).
    destruct (fires iter (ls_prevLL s) ll (epsilon (ls_hmm s))) eqn:Hfire.
    + (* the test passes: the loop stops here *)
      destruct Hcase as (h2 & Hfp & ->). inversion Hrun; subst s'. clear Hrun.
      destruct (final_pass_fields _ _ Hfp) as (Hm2 & Hp2 & Hc2 & Hh2 & Hi2 & Hart).
      cbv zeta. simpl ls_hmm. simpl ls_calls. simpl ls_prevLL.
      split.
      { destruct Hm1 as (?&?&?&?&?&?), Hm2 as (?&?&?&?&?&?).
        unfold same_model. simpl in *. repeat split; congruence. }
      exists [ll]. rewrite Hh2. simpl logLikeHistory. rewrite Hh1.
      split; [reflexivity|]. split; [|split; [discriminate|split]].
      { intros _. rewrite Hi2. simpl. rewrite Hi1. simpl. lia. }
      { intros _. exists (ls_hmm s), h1. simpl. rewrite Nat.add_sub. split; [exact Hup|].
        destruct Hp2 as (?&?&?). unfold same_params. simpl in *. auto. }
      rewrite Hc2. simpl converged.
      exists [], ll. simpl. rewrite Nat.add_0_r.
      repeat split; auto; try lia.
      destruct cb; simpl; [now rewrite <- app_assoc | reflexivity].
    + (* the test fails: on to the next iteration *)
      subst r.
      specialize (IH (S iter) _ Hrun). simpl ls_hmm in IH. simpl ls_prevLL in IH.
      simpl ls_calls in IH. rewrite Hc1 in IH. specialize (IH Hconv).
      cbv zeta in IH. destruct IH as (Hm' & lls & Hh' & Hit' & Hnil' & Hprev' & Hrest).
      cbv zeta. split.
      { destruct Hm1 as (?&?&?&?&?&?), Hm' as (?&?&?&?&?&?).
        unfold same_model. repeat split; congruence. }
      assert (Heps : epsilon h1 = epsilon (ls_hmm s)) by apply Hm1.
      rewrite Heps in Hrest.
      exists (ll :: lls). rewrite Hh', Hh1, <- app_assoc. simpl app.
      split; [reflexivity|]. split; [|split; [discriminate|split]].
      { intros _. destruct lls as [|l lls].
        - rewrite (Hnil' eq_refl), Hi1. simpl. lia.
        - rewrite Hit' by discriminate. simpl. f_equal. lia. }
      { intros _. destruct lls as [|l lls].
        - exists (ls_hmm s), h1. rewrite (Hnil' eq_refl). simpl. rewrite Nat.add_sub.
          split; [exact Hup | unfold same_params; auto].
        - destruct (Hprev' ltac:(discriminate)) as (hp & hq & Hq & Hsp).
          exists hp, hq. split; [|exact Hsp].
          rewrite last_cons_default.
          replace (iter + length (ll :: l :: lls) - 1)%nat
            with (S iter + length (l :: lls) - 1)%nat by (simpl; lia).
          rewrite Hq. now rewrite !last_cons_default. }
      destruct (converged (ls_hmm s')).
      * destruct Hrest as (lls0 & ll' & -> & Hlen & Hnf & Hf & Hcalls & Hart).
        exists (ll :: lls0), ll'. simpl length. simpl no_fire. rewrite Hfire. simpl negb.
        rewrite Nat.add_succ_r. simpl in Hf.
        repeat split; auto.
        -- simpl in Hlen. rewrite length_app in *. simpl in *. lia.
        -- now rewrite last_cons_default.
        -- rewrite Hcalls. destruct cb; simpl; [|reflexivity].
           now rewrite <- !app_assoc.
      * destruct Hrest as (Hlen & Hnf & Hcalls & Hfa & Hfg).
        simpl length. simpl no_fire. rewrite Hfire. simpl negb.
        repeat split; auto; try congruence.
        rewrite Hcalls. destruct cb; simpl; [|reflexivity].
        now rewrite <- !app_assoc.
Qed.


(** What [train] does on an estimator that has not converged yet. *)

Lemma train_run (cb : bool) (h h' : HMM) (calls : list call) :
  converged h = false ->
  train h cb = Some (h', calls) ->
  same_model h h' /\
  exists lls,
    logLikeHistory h' = logLikeHistory h ++ lls /\
    (lls <> [] -> iterations h' = Z.of_nat (length lls)) /\
    (lls <> [] ->
     exists hprev h1,
       em_update hprev (length lls - 1) = Some (h1, last lls NaN) /\
       same_params h1 h') /\
    (exists f b e,
       _forward h' = Some f /\ _backward h' (c f) = Some b /\
       _estep h' (alpha f) b = Some e /\
       finalAlpha h' = Some (logAlpha f) /\ finalGamma h' = Some (gamma e)) /\
    if converged h' then
      exists lls0 ll,
        lls = lls0 ++ [ll] /\
        (length lls <= Z.to_nat (maxIter h))%nat /\
        no_fire 0 neg_Infinity (epsilon h) lls0 = true /\
        fires (length lls0) (last lls0 neg_Infinity) ll (epsilon h) = true /\
        calls = (if cb then iter_calls 0 neg_Infinity lls ++ [done_call (length lls0)]
                 else [])
    else
      length lls = Z.to_nat (maxIter h) /\
      no_fire 0 neg_Infinity (epsilon h) lls = true /\
      calls = (if cb then iter_calls 0 neg_Infinity lls else []).
Proof.
  intros Hconv. unfold train. cbv zeta.
  destruct (train_loop cb (Z.to_nat (maxIter h)) 0 _) as [s|] eqn:Hloop; [|discriminate].
  apply train_loop_run in Hloop; [|exact Hconv].
  cbv zeta in Hloop. simpl ls_hmm in Hloop. simpl ls_prevLL in Hloop.
  simpl ls_calls in Hloop.
  destruct Hloop as (Hm & lls & Hh & Hit & Hnil & Hprev & Hrest).
  destruct (converged (ls_hmm s)) eqn:Hc; simpl negb; cbv iota.
  - intros H. inversion H; subst h' calls. clear H.
    split; [exact Hm|]. exists lls. rewrite Hc.
    destruct Hrest as (lls0 & ll & -> & Hlen & Hnf & Hf & Hcalls & Hart).
    split; [exact Hh|].
    split; [intros Hne; now rewrite Hit|].
    split; [exact Hprev|].
    split; [exact Hart|].
    exists lls0, ll. repeat split; auto; try (rewrite Hcalls; now destruct cb).
  - destruct (final_pass (ls_hmm s)) as [h2|] eqn:Hfp; [|discriminate].
    intros H. inversion H; subst h' calls. clear H.
    destruct (final_pass_fields _ _ Hfp) as (Hm2 & Hp2 & Hc2 & Hh2 & Hi2 & Hart).
    destruct Hrest as (Hlen & Hnf & Hcalls & _ & _).
    split.
    { destruct Hm as (?&?&?&?&?&?), Hm2 as (?&?&?&?&?&?).
      unfold same_model. repeat split; congruence. }
    exists lls. rewrite Hh2, Hi2, Hc2, Hc.
    split; [exact Hh|].
    split; [intros Hne; now rewrite Hit|].
    split.
    { intros Hne. destruct (Hprev Hne) as (hp & hq & Hq & Hsp).
      exists hp, hq. split; [exact Hq|].
      destruct Hsp as (?&?&?), Hp2 as (?&?&?). unfold same_params. repeat split; congruence. }
    split; [exact Hart|].
    repeat split; auto; try (rewrite Hcalls; now destruct cb).
Qed.

Lemma iter_calls_length (iter : nat) (prevLL : num) (lls : list num) :
  length (iter_calls iter prevLL lls) = length lls.
Proof.
  revert iter prevLL. induction lls as [|ll lls IH]; intros; simpl; auto.
Qed.


Lemma rows_ok_alloc (h : HMM) : rows_ok h = true -> alloc_ok h = true.
Proof. unfold rows_ok. intros H. now apply andb_prop in H. Qed.

Lemma rows_ok_same (h h' : HMM) : same_model h h' -> rows_ok h' = rows_ok h.
Proof.
  intros (_ & HT & HN & _). unfold rows_ok, alloc_ok. now rewrite HT, HN.
Qed.

Lemma em_update_total (h : HMM) (iter : nat) :
  rows_ok h = true -> (1 <= T h)%nat ->
  exists h1 ll, em_update h iter = Some (h1, ll).
Proof.
  intros Hok HT. unfold em_update.
  rewrite forward_eq by exact Hok.
  rewrite backward_eq by exact Hok.
  rewrite estep_eq by now apply rows_ok_alloc.
  rewrite mstep_eq.
  - eexists _, _. reflexivity.
  - unfold estep_formula. simpl gamma.
    destruct (T h); [lia|]. discriminate.
Qed.

Lemma final_pass_total (h : HMM) :
  rows_ok h = true -> exists h2, final_pass h = Some h2.
Proof.
  intros Hok. unfold final_pass.
  rewrite forward_eq by exact Hok.
  rewrite backward_eq by exact Hok.
  rewrite estep_eq by now apply rows_ok_alloc.
  eexists. reflexivity.
Qed.

Lemma train_loop_total (cb : bool) (todo iter : nat) (s : loop_state) :
  rows_ok (ls_hmm s) = true -> (1 <= T (ls_hmm s))%nat ->
  exists s', train_loop cb todo iter s = Some s' /\ rows_ok (ls_hmm s') = true.
Proof.
  revert iter s. induction todo as [|todo IH]; intros iter s Hok HT; simpl.
  - now exists s.
  - destruct (em_update_total (ls_hmm s) iter Hok HT) as (h1 & ll & Hup).
    destruct (em_update_fields _ _ _ _ Hup) as (Hm1 & _).
    assert (Hok1 : rows_ok h1 = true) by now rewrite (rows_ok_same _ _ Hm1).
    destruct (train_body cb iter s) as [r|] eqn:Hbody.
    + destruct (train_body_cases _ _ _ _ Hbody) as (h1' & ll' & Hup' & Hcase).
      rewrite Hup in Hup'. inversion Hup'; subst h1' ll'. clear Hup'.
      destruct (fires iter (ls_prevLL s) ll (epsilon (ls_hmm s))).
      * destruct Hcase as (h2 & Hfp & ->). eexists. split; [reflexivity|]. simpl.
        destruct (final_pass_fields _ _ Hfp) as (Hm2 & _).
        rewrite (rows_ok_same _ _ Hm2). exact Hok1.
      * subst r. apply IH; simpl; [exact Hok1|].
        destruct Hm1 as (_ & -> & _). exact HT.
    + exfalso. unfold train_body in Hbody. unfold em_update in Hup.
      destruct (_forward (ls_hmm s)) as [f|]; [|discriminate].
      destruct (_backward (ls_hmm s) (c f)) as [beta|]; [|discriminate].
      destruct (_estep (ls_hmm s) (alpha f) beta) as [e|]; [|discriminate].
      destruct (_mstep (ls_hmm s) (gamma e) (xi e)) as [m|]; [|discriminate].
      cbv zeta in Hbody. inversion Hup; subst h1 ll. clear Hup.
      destruct (_ && _) in Hbody; [|discriminate].
      destruct (final_pass_total (set_converged
                  (set_params (ls_hmm s) m (logLik f) (Z.of_nat iter + 1))))
        as (h2 & Hfp); [exact Hok1|].
      rewrite Hfp in Hbody. discriminate.
Qed.

Lemma train_total (cb : bool) (h : HMM) :
  rows_ok h = true -> (1 <= T h)%nat ->
  exists h' calls, train h cb = Some (h', calls).
Proof.
  intros Hok HT. unfold train. cbv zeta.
  destruct (train_loop_total cb (Z.to_nat (maxIter h)) 0
              {| ls_hmm := h; ls_prevLL := neg_Infinity; ls_calls := [] |} Hok HT)
    as (s & -> & Hok').
  destruct (negb (converged (ls_hmm s))).
  - destruct (final_pass_total _ Hok') as (h2 & ->). eexists _, _. reflexivity.
  - eexists _, _. reflexivity.
Qed.

(** C5. In [train], the convergence test is made from the second iteration
    on only; when it passes, [converged] is set, the three passes are run
    once more on the parameters the M-step has just written, [finalAlpha]
    and [finalGamma] are stored from them, the callback is called with
    [done = true] and the loop stops; when the loop runs to the iteration
    cap instead, the same extra pass stores the final artifacts, nothing is
    raised and [converged] stays false. *)

Theorem train_convergence (cb : bool) (h : HMM) :
  converged h = false ->
  (rows_ok h = true -> (1 <= T h)%nat ->
   exists h' calls, train h cb = Some (h', calls)) /\
  forall h' calls,
    train h cb = Some (h', calls) ->
    exists lls,
      (* one log-likelihood is pushed per iteration run *)
      logLikeHistory h' = logLikeHistory h ++ lls /\
      (* the parameters left behind are those of the last M-step *)
      (lls <> [] ->
       exists hprev h1,
         em_update hprev (length lls - 1) = Some (h1, last lls NaN) /\
         same_params h1 h') /\
      (* the final artifacts are computed from these parameters *)
      (exists f b e,
         _forward h' = Some f /\ _backward h' (c f) = Some b /\
         _estep h' (alpha f) b = Some e /\
         finalAlpha h' = Some (logAlpha f) /\ finalGamma h' = Some (gamma e)) /\
      if converged h' then
        exists lls0 ll,
          lls = lls0 ++ [ll] /\
          (1 <= length lls0)%nat /\
          (length lls <= Z.to_nat (maxIter h))%nat /\
          no_fire 0 neg_Infinity (epsilon h) lls0 = true /\
          (Math_abs (ll - last lls0 neg_Infinity) <? epsilon h) = true /\
          (cb = true -> last calls (done_call 0) = done_call (length lls0))
      else
        length lls = Z.to_nat (maxIter h) /\
        no_fire 0 neg_Infinity (epsilon h) lls = true.
Proof.
  intros Hconv. split; [apply train_total|].
  intros h' calls Hrun.
  destruct (train_run cb h h' calls Hconv Hrun)
    as (_ & lls & Hh & _ & Hprev & Hart & Hrest).
  exists lls. repeat (split; [assumption|]).
  destruct (converged h').
  - destruct Hrest as (lls0 & ll & -> & Hlen & Hnf & Hf & Hcalls).
    exists lls0, ll. unfold fires in Hf. apply andb_prop in Hf. destruct Hf as [Hpos Htest].
    apply Nat.ltb_lt in Hpos.
    repeat split; auto.
    intros ->. rewrite Hcalls. now rewrite last_last.
  - destruct Hrest as (Hlen & Hnf & _). now split.
Qed.

(** C7. The callback is called once per iteration run, with the message of
    that iteration and its zero-based index, and once more, with
    [done = true], after the call of the iteration on which the convergence
    test passed; a run that ends at the iteration cap makes no such call. *)


End TrainFacts.

(* ================================================================== *)
(** ** Construction *)

Section ConstructorFacts.
Context {AR : Arith}.
Local Open Scope num_scope.

Lemma Array_from_rng_length {X : Type} (n : nat) (f : rng -> X * rng) (g : rng) :
  length (fst (Array_from_rng n f g)) = n.
Proof.
  revert g. induction n as [|n IH]; intros g; simpl; auto.
  destruct (f g) as [x g']. specialize (IH g').
  destruct (Array_from_rng n f g') as [xs g'']. simpl in *. now rewrite IH.
Qed.

Lemma Array_from_rng_Forall {X : Type} (P : X -> Prop) (n : nat)
      (f : rng -> X * rng) (g : rng) :
  (forall g, P (fst (f g))) -> Forall P (fst (Array_from_rng n f g)).
Proof.
  intros Hf. revert g. induction n as [|n IH]; intros g; simpl; auto.
  specialize (Hf g). destruct (f g) as [x g']. specialize (IH g').
  destruct (Array_from_rng n f g') as [xs g'']. simpl in *. now constructor.
Qed.

Lemma randRow_length (k : Z) (g : rng) : length (fst (_randRow k g)) = Z.to_nat k.
Proof.
  unfold _randRow.
  pose proof (Array_from_rng_length (Z.to_nat k)
    (fun g => let '(x, g') := rand g in (x + lit_0_2, g')) g) as H.
  destruct (Array_from_rng _ _ g) as [v g']. simpl in *. now rewrite length_map.
Qed.

Lemma constructor_fields (obs : list Z) (N0 M0 : Z) (opts : options) :
  let h := constructor obs N0 M0 opts in
  Obs h = obs /\ T h = length obs /\ N h = N0 /\ M h = M0 /\
  maxIter h = or_elseZ (opt_maxIter opts) 100 /\
  epsilon h = or_else (opt_epsilon opts) lit_1e_6 /\
  logLikeHistory h = [] /\ iterations h = 0%Z /\ converged h = false /\
  finalAlpha h = None /\ finalGamma h = None.
Proof.
  unfold constructor.
  destruct (_randRow N0 _) as [p g1].
  destruct (Array_from_rng _ (_randRow N0) g1) as [a g2].
  destruct (Array_from_rng _ (_randRow M0) g2) as [b g3].
  simpl. repeat split.
Qed.

Lemma constructor_shape (obs : list Z) (N0 M0 : Z) (opts : options) :
  let h := constructor obs N0 M0 opts in
  length (pi h) = Z.to_nat N0 /\
  length (A h) = Z.to_nat N0 /\
  Forall (fun r => length r = Z.to_nat N0) (A h) /\
  length (B h) = Z.to_nat N0 /\
  Forall (fun r => length r = Z.to_nat M0) (B h).
Proof.
  unfold constructor.
  pose proof (randRow_length N0 (mulberry32 (or_elseZ (opt_seed opts) 42))) as Hp.
  destruct (_randRow N0 _) as [p g1].
  pose proof (Array_from_rng_length (Z.to_nat N0) (_randRow N0) g1) as Ha.
  pose proof (Array_from_rng_Forall (fun r => length r = Z.to_nat N0) (Z.to_nat N0)
                (_randRow N0) g1 (randRow_length N0)) as Ha'.
  destruct (Array_from_rng _ (_randRow N0) g1) as [a g2].
  pose proof (Array_from_rng_length (Z.to_nat N0) (_randRow M0) g2) as Hb.
  pose proof (Array_from_rng_Forall (fun r => length r = Z.to_nat M0) (Z.to_nat N0)
                (_randRow M0) g2 (randRow_length M0)) as Hb'.
  destruct (Array_from_rng _ (_randRow M0) g2) as [b g3].
  simpl in *. repeat split; assumption.
Qed.


(** C10. A falsy option is replaced by its default at construction:
    [seed: 0] gives the estimator of [seed: 42], [maxIter: 0] that of
    [maxIter: 100] and [epsilon: 0] that of the default epsilon, so
    training them gives the same results. *)
Theorem falsy_options_are_defaults (obs : list Z) (N0 M0 : Z) (cb : bool) :
  (forall mi eps,
     constructor obs N0 M0 {| opt_maxIter := mi; opt_epsilon := eps; opt_seed := Some 0%Z |}
     = constructor obs N0 M0 {| opt_maxIter := mi; opt_epsilon := eps; opt_seed := Some 42%Z |}) /\
  (forall eps sd,
     constructor obs N0 M0 {| opt_maxIter := Some 0%Z; opt_epsilon := eps; opt_seed := sd |}
     = constructor obs N0 M0 {| opt_maxIter := Some 100%Z; opt_epsilon := eps; opt_seed := sd |}) /\
  (forall mi sd,
     constructor obs N0 M0 {| opt_maxIter := mi; opt_epsilon := Some 0; opt_seed := sd |}
     = constructor obs N0 M0 {| opt_maxIter := mi; opt_epsilon := None; opt_seed := sd |}) /\
  constructor obs N0 M0 {| opt_maxIter := Some 0%Z; opt_epsilon := Some 0; opt_seed := Some 0%Z |}
  = constructor obs N0 M0 no_options /\
  train (constructor obs N0 M0
           {| opt_maxIter := Some 0%Z; opt_epsilon := Some 0; opt_seed := Some 0%Z |}) cb
  = train (constructor obs N0 M0
             {| opt_maxIter := Some 100%Z; opt_epsilon := None; opt_seed := Some 42%Z |}) cb.
Proof.
  assert (E : or_else (Some 0) lit_1e_6 = or_else None lit_1e_6)
    by (simpl; now rewrite ToBoolean_0).
  repeat split; intros; unfold constructor, no_options; simpl opt_seed;
    simpl opt_maxIter; simpl opt_epsilon; rewrite ?E; reflexivity.
Qed.

End ConstructorFacts.

(* ================================================================== *)
(** ** The generator, and the part of the callback *)

Lemma Int32_or_0 (x : Z) : Int32.or x 0 = Int32.to_int32 x.
Proof.
  unfold Int32.or. rewrite (Int32.to_int32_small 0) by lia.
  now rewrite Z.lor_0_r, Int32.to_int32_idem.
Qed.

Lemma to_int32_add_l (x k : Z) :
  Int32.to_int32 (Int32.to_int32 x + k) = Int32.to_int32 (x + k).
Proof.
  apply Int32.to_int32_eqm.
  rewrite <- Zplus_mod_idemp_l, Int32.to_int32_mod, Zplus_mod_idemp_l. reflexivity.
Qed.

(** A call reads the state through [seed |= 0] only. *)
Lemma rand_u32_to_int32 (s : rng) : rand_u32 (Int32.to_int32 s) = rand_u32 s.
Proof. unfold rand_u32. now rewrite !Int32_or_0, Int32.to_int32_idem. Qed.

Lemma rand_u32_state (s : rng) :
  snd (rand_u32 s) = Int32.to_int32 (s + 1831565813).
Proof.
  unfold rand_u32. cbv zeta. simpl snd.
  now rewrite !Int32_or_0, to_int32_add_l.
Qed.

Lemma rand_u32_congr (s s' : rng) :
  (s mod Int32.two32 = s' mod Int32.two32)%Z -> rand_u32 s = rand_u32 s'.
Proof.
  intros H. rewrite <- (rand_u32_to_int32 s), <- (rand_u32_to_int32 s').
  now rewrite (Int32.to_int32_eqm s s' H).
Qed.

Lemma draws_S (n : nat) (g : rng) :
  draws (S n) g = let '(u, g') := rand_u32 g in
                  let '(us, g'') := draws n g' in (u :: us, g'').
Proof. reflexivity. Qed.


Lemma draws_state (n : nat) (s : rng) :
  snd (draws (S n) s) = Int32.to_int32 (s + (Z.of_nat n + 1) * 1831565813).
Proof.
  revert s. induction n as [|n IH]; intros s.
  - rewrite draws_S. pose proof (rand_u32_state s) as H.
    destruct (rand_u32 s) as [u g]. cbv iota. change (draws 0 g) with (@nil Z, g).
    cbv iota. cbn [snd] in *. rewrite H. f_equal.
  - rewrite draws_S.
    pose proof (rand_u32_state s) as H.
    destruct (rand_u32 s) as [u g]. cbn [snd] in H. specialize (IH g). cbv iota.
    destruct (draws (S n) g) as [us g'']. cbn [snd] in *. rewrite IH, H.
    rewrite to_int32_add_l. f_equal. lia.
Qed.


(** On binary64 numbers the first draws of the generators seeded with 1
    and with 42 are these, whatever [Math.log] and [Math.exp] are. *)
Example first_draws_binary64 (ln ex : float -> float) :
  fst (@rand (F64.arith ln ex) (mulberry32 1)) = 0.6270739405881613%float /\
  fst (@rand (F64.arith ln ex) (mulberry32 42)) = 0.6011037519201636%float.
Proof. split; vm_compute; reflexivity. Qed.

Section CallbackFacts.
Context {AR : Arith}.
Local Open Scope num_scope.





End CallbackFacts.




(* ================================================================== *)
(** ** The backward recurrence, and what construction accepts *)

Section BackwardFacts.
Context {AR : Arith}.
Local Open Scope num_scope.

Lemma get2_map (f : nat -> row) (n t i : nat) :
  (t < n)%nat -> get2 (map f (seq 0 n)) t i = get (f t) i.
Proof.
  intros H. rewrite <- (app_nil_r (map f (seq 0 n))). now apply get2_map_seq.
Qed.

Lemma get_map (f : nat -> num) (n i : nat) :
  (i < n)%nat -> get (map f (seq 0 n)) i = f i.
Proof.
  intros H. rewrite <- (app_nil_r (map f (seq 0 n))). now apply get_map_seq.
Qed.



End BackwardFacts.


(** What the first iteration makes of two such sequences, on binary64
    numbers: with one symbol the sums over [t < T - 1] are empty and the
    row of [A] is left at zero by the [|| 1] of [normalise]; with no symbol
    inside [0, M) no emission is ever counted and the rows of [B] are. *)
Example one_symbol_zeroes_A (ln ex : float -> float) :
  option_map (fun r => (pi (fst r), A (fst r), B (fst r)))
    (@em_update (F64.arith ln ex) (constructor [0]%Z 1 1 no_options) 0)
  = Some ([1%float], [[0%float]], [[1%float]]).
Proof. vm_compute. reflexivity. Qed.

Example no_symbol_in_range_zeroes_B (ln ex : float -> float) :
  option_map (fun r => B (fst r))
    (@em_update (F64.arith ln ex) (constructor [5; 5; 5]%Z 2 2 no_options) 0)
  = Some [[0%float; 0%float]; [0%float; 0%float]].
Proof. vm_compute. reflexivity. Qed.

(* ================================================================== *)
(** ** Exact arithmetic: positivity and sums *)

Section ExactFacts.
Import XR.
Local Existing Instance XR.arith.
Local Open Scope num_scope.


Lemma Rgtb_true a b : (b < a)%R -> Rgtb a b = true.
Proof. intros H. unfold Rgtb. destruct (Rlt_dec b a); [reflexivity|contradiction]. Qed.

Lemma Rgtb_false a b : (a <= b)%R -> Rgtb a b = false.
Proof. intros H. unfold Rgtb. destruct (Rlt_dec b a); [lra|reflexivity]. Qed.

Lemma Reqb_false a b : a <> b -> Reqb a b = false.
Proof. intros H. unfold Reqb. destruct (Req_dec_T a b); [contradiction|reflexivity]. Qed.

Lemma Reqb_true a : Reqb a a = true.
Proof. unfold Reqb. destruct (Req_dec_T a a); [reflexivity|contradiction]. Qed.

Lemma Pos_NonNeg x : Pos x -> NonNeg x.
Proof. intros (a & -> & H). exists a. split; [reflexivity|lra]. Qed.

Lemma Pos_add x y : Pos x -> Pos y -> Pos (x + y).
Proof. intros (a & -> & Ha) (b & -> & Hb). exists (a + b)%R. split; [reflexivity|lra]. Qed.

Lemma NonNeg_add x y : NonNeg x -> NonNeg y -> NonNeg (x + y).
Proof. intros (a & -> & Ha) (b & -> & Hb). exists (a + b)%R. split; [reflexivity|lra]. Qed.

Lemma NonNeg_Pos_add x y : NonNeg x -> Pos y -> Pos (x + y).
Proof. intros (a & -> & Ha) (b & -> & Hb). exists (a + b)%R. split; [reflexivity|lra]. Qed.

Lemma Pos_NonNeg_add x y : Pos x -> NonNeg y -> Pos (x + y).
Proof. intros (a & -> & Ha) (b & -> & Hb). exists (a + b)%R. split; [reflexivity|lra]. Qed.

Lemma Pos_mul x y : Pos x -> Pos y -> Pos (x * y).
Proof.
  intros (a & -> & Ha) (b & -> & Hb). exists (a * b)%R. split; [reflexivity|].
  now apply Rmult_lt_0_compat.
Qed.

Lemma xdiv_Fin a b : b <> 0%R -> Fin a / Fin b = Fin (a / b).
Proof. intros H. simpl. now rewrite Reqb_false. Qed.

Lemma Pos_div x y : Pos x -> Pos y -> Pos (x / y).
Proof.
  intros (a & -> & Ha) (b & -> & Hb). exists (a / b)%R.
  split; [apply xdiv_Fin; lra|]. now apply Rdiv_lt_0_compat.
Qed.

Lemma NonNeg_div x y : NonNeg x -> Pos y -> NonNeg (x / y).
Proof.
  intros (a & -> & Ha) (b & -> & Hb). exists (a / b)%R.
  split; [apply xdiv_Fin; lra|]. apply Rmult_le_pos; [lra|].
  left. now apply Rinv_0_lt_compat.
Qed.

Lemma zero_NonNeg : NonNeg 0.
Proof. exists 0%R. split; [reflexivity|lra]. Qed.

Lemma one_Pos : Pos 1.
Proof. exists 1%R. split; [reflexivity|lra]. Qed.

Lemma Pos_gt0 x : Pos x -> (x >? 0) = true.
Proof. intros (a & -> & Ha). simpl. now apply Rgtb_true. Qed.

Lemma Pos_truthy x : Pos x -> ToBoolean x = true.
Proof. intros (a & -> & Ha). simpl. rewrite Reqb_false; [reflexivity|lra]. Qed.

Lemma lit_1e_300_Pos : Pos lit_1e_300.
Proof.
  exists (/ 10 ^ 300)%R. split; [reflexivity|].
  apply Rinv_0_lt_compat, pow_lt. lra.
Qed.

Lemma lit_0_2_Pos : Pos lit_0_2.
Proof. exists (2 / 10)%R. split; [reflexivity|lra]. Qed.

(** *** Sums *)

Lemma fold_Fin (l : list R) (a : R) :
  fold_left nadd (map Fin l) (Fin a) = Fin (fold_left Rplus l a).
Proof. revert a. induction l as [|x l IH]; intros a; simpl; auto. Qed.

Lemma sum_Fin (l : list R) : sum (map Fin l) = Fin (Rsum l).
Proof. apply fold_Fin. Qed.

Lemma fold_Rplus (l : list R) (a : R) : fold_left Rplus l a = (a + Rsum l)%R.
Proof.
  unfold Rsum. revert a. induction l as [|x l IH]; intros a; simpl; [lra|].
  rewrite IH, (IH (0 + x)%R). lra.
Qed.

Lemma Rsum_cons x l : Rsum (x :: l) = (x + Rsum l)%R.
Proof. unfold Rsum at 1. simpl. rewrite fold_Rplus. lra. Qed.

Lemma Rsum_nonneg l : Forall (fun a => 0 <= a)%R l -> (0 <= Rsum l)%R.
Proof.
  induction 1 as [|x l Hx Hl IH]; [unfold Rsum; simpl; lra|].
  rewrite Rsum_cons. lra.
Qed.

Lemma Rsum_pos l : Forall (fun a => 0 < a)%R l -> l <> [] -> (0 < Rsum l)%R.
Proof.
  intros H Hne. destruct H as [|x l Hx Hl]; [congruence|].
  rewrite Rsum_cons.
  assert (0 <= Rsum l)%R by (apply Rsum_nonneg; eapply Forall_impl; [|exact Hl]; simpl; intros; lra).
  lra.
Qed.

Lemma Rsum_pos_exists l :
  Forall (fun a => 0 <= a)%R l -> Exists (fun a => 0 < a)%R l -> (0 < Rsum l)%R.
Proof.
  intros H He. induction H as [|x l Hx Hl IH]; [inversion He|].
  rewrite Rsum_cons. pose proof (Rsum_nonneg l Hl).
  inversion He; subst; [lra|]. specialize (IH H1). lra.
Qed.

Lemma Rsum_div l s : Rsum (map (fun a => a / s)%R l) = (Rsum l / s)%R.
Proof.
  induction l as [|x l IH]; [unfold Rsum; simpl; lra|].
  simpl map. rewrite !Rsum_cons, IH. lra.
Qed.

(** A row of finite values is the image of the reals it stands for. *)
Lemma NonNeg_row (r : row) :
  Forall NonNeg r ->
  exists l, r = map Fin l /\ Forall (fun a => 0 <= a)%R l.
Proof.
  induction 1 as [|x r (a & -> & Ha) Hr (l & -> & Hl)].
  - exists []. split; [reflexivity|constructor].
  - exists (a :: l). split; [reflexivity|now constructor].
Qed.

Lemma Pos_row (r : row) :
  Forall Pos r ->
  exists l, r = map Fin l /\ Forall (fun a => 0 < a)%R l.
Proof.
  induction 1 as [|x r (a & -> & Ha) Hr (l & -> & Hl)].
  - exists []. split; [reflexivity|constructor].
  - exists (a :: l). split; [reflexivity|now constructor].
Qed.

Lemma Forall_Pos_NonNeg (r : row) : Forall Pos r -> Forall NonNeg r.
Proof. intros H. eapply Forall_impl; [|exact H]. apply Pos_NonNeg. Qed.

Lemma sum_NonNeg (r : row) : Forall NonNeg r -> NonNeg (sum r).
Proof.
  intros H. destruct (NonNeg_row r H) as (l & -> & Hl).
  exists (Rsum l). split; [apply sum_Fin | now apply Rsum_nonneg].
Qed.

Lemma sum_Pos (r : row) : Forall Pos r -> r <> [] -> Pos (sum r).
Proof.
  intros H Hne. destruct (Pos_row r H) as (l & -> & Hl).
  exists (Rsum l). split; [apply sum_Fin|]. apply Rsum_pos; [exact Hl|].
  destruct l; [now simpl in Hne | discriminate].
Qed.

Lemma sum_Pos_exists (r : row) : Forall NonNeg r -> Exists Pos r -> Pos (sum r).
Proof.
  intros H He. destruct (NonNeg_row r H) as (l & -> & Hl).
  exists (Rsum l). split; [apply sum_Fin|]. apply Rsum_pos_exists; [exact Hl|].
  apply Exists_exists in He. destruct He as (x & Hin & (a & -> & Ha)).
  apply in_map_iff in Hin. destruct Hin as (b & Hb & Hin). inversion Hb; subst.
  apply Exists_exists. now exists a.
Qed.

(** Dividing a row by its positive sum gives a row that sums to 1. *)
Lemma sum_divided (r : row) (s : R) :
  Forall NonNeg r -> sum r = Fin s -> (0 < s)%R ->
  sum (map (fun x => x / Fin s) r) = Fin 1 /\
  Forall NonNeg (map (fun x => x / Fin s) r).
Proof.
  intros H Hs Hpos. split.
  - destruct (NonNeg_row r H) as (l & -> & Hl).
    rewrite sum_Fin in Hs. injection Hs as Hs'. subst s.
    rewrite map_map.
    rewrite (map_ext (fun a => xdiv (Fin a) (Fin (Rsum l))) (fun a => Fin (a / Rsum l)%R))
      by (intros; apply xdiv_Fin; lra).
    rewrite <- (map_map (fun a => (a / Rsum l)%R) Fin), sum_Fin, Rsum_div.
    f_equal. field. lra.
  - apply Forall_map. eapply Forall_impl; [|exact H].
    intros x Hx. apply NonNeg_div; [exact Hx|]. now exists s.
Qed.

Lemma Pos_divided (r : row) (s : R) :
  Forall Pos r -> (0 < s)%R -> Forall Pos (map (fun x => x / Fin s) r).
Proof.
  intros H Hpos. apply Forall_map. eapply Forall_impl; [|exact H].
  intros x Hx. apply Pos_div; [exact Hx|]. now exists s.
Qed.


(** *** Models with positive initial and transition probabilities *)


Lemma get_Forall (P : xreal -> Prop) (r : row) i :
  Forall P r -> (i < length r)%nat -> P (get r i).
Proof.
  intros H Hi. rewrite Forall_forall in H. apply H. unfold get. now apply nth_In.
Qed.

Lemma get2_A_Pos (h : HMM) i j :
  Usable h -> (i < Nn h)%nat -> (j < Nn h)%nat -> Pos (get2 (A h) i j).
Proof.
  intros (_ & _ & _ & HA & HA' & _) Hi Hj. unfold get2.
  rewrite Forall_forall in HA'.
  destruct (HA' (nth i (A h) [])) as [Hl Hp]; [apply nth_In; lia|].
  apply get_Forall; [exact Hp | lia].
Qed.

Lemma or_else_Pos (x : option xreal) (d : xreal) :
  (forall v, x = Some v -> NonNeg v) -> Pos d -> Pos (or_else x d).
Proof.
  intros Hx Hd. destruct x as [v|]; simpl; [|exact Hd].
  destruct (Hx v eq_refl) as (a & -> & Ha). simpl.
  destruct (Req_dec_T a 0) as [->|Hne].
  - now rewrite Reqb_true.
  - rewrite Reqb_false by exact Hne. simpl. exists a. split; [reflexivity|lra].
Qed.

Lemma emit_Pos (h : HMM) j t : Forall (Forall NonNeg) (B h) -> Pos (emit h j t).
Proof.
  intros HB. unfold emit. apply or_else_Pos; [|apply lit_1e_300_Pos].
  intros v Hv. destruct (nth_error (Obs h) t) as [o|]; [|discriminate].
  unfold index in Hv. destruct (o <? 0)%Z; [discriminate|].
  apply nth_error_In in Hv.
  destruct (Nat.lt_ge_cases j (length (B h))) as [Hj|Hj].
  - rewrite Forall_forall in HB. specialize (HB (nth j (B h) []) (nth_In _ _ Hj)).
    rewrite Forall_forall in HB. now apply HB.
  - rewrite nth_overflow in Hv by exact Hj. inversion Hv.
Qed.

Lemma map_seq_Forall (P : xreal -> Prop) (f : nat -> xreal) n :
  (forall i, (i < n)%nat -> P (f i)) -> Forall P (map f (seq 0 n)).
Proof.
  intros H. apply Forall_map, Forall_forall. intros i Hi.
  apply in_seq in Hi. apply H. lia.
Qed.

Lemma sum_over_Pos (f : nat -> xreal) n :
  (1 <= n)%nat -> (forall i, (i < n)%nat -> Pos (f i)) -> Pos (sum_over n f).
Proof.
  intros Hn H. unfold sum_over. apply sum_Pos; [now apply map_seq_Forall|].
  destruct n; [lia|]. discriminate.
Qed.

(** Scaling a positive row: the scale factor is the reciprocal of the sum,
    scaling divides by the sum, and the scaled row sums to 1. *)
Lemma scaled_Pos (raw : row) :
  Forall Pos raw -> raw <> [] ->
  exists s,
    sum raw = Fin s /\ (0 < s)%R /\
    scale (sum raw) = Fin (1 / s) /\
    scaled raw = map (fun x => x / Fin s) raw /\
    Forall Pos (scaled raw) /\
    sum (scaled raw) = Fin 1.
Proof.
  intros Hp Hne. destruct (sum_Pos raw Hp Hne) as (s & Hs & Hpos).
  exists s. split; [exact Hs|]. split; [exact Hpos|].
  assert (Hsc : scale (sum raw) = Fin (1 / s)).
  { unfold scale. rewrite Hs.
    rewrite Pos_gt0 by (now exists s).
    apply xdiv_Fin. lra. }
  assert (Heq : scaled raw = map (fun x => x / Fin s) raw).
  { unfold scaled. rewrite Hsc. apply map_ext_in. intros x Hx.
    rewrite Forall_forall in Hp. destruct (Hp x Hx) as (a & -> & Ha).
    rewrite xdiv_Fin by lra. simpl. f_equal. field. lra. }
  split; [exact Hsc|]. split; [exact Heq|]. rewrite Heq. split.
  - now apply Pos_divided.
  - apply sum_divided; auto. now apply Forall_Pos_NonNeg.
Qed.

Lemma alpha_raw0_Pos (h : HMM) : Usable h -> Forall Pos (alpha_raw0 h).
Proof.
  intros Hu. pose proof Hu as (_ & Hlp & Hp & _ & _ & HB).
  unfold alpha_raw0. apply map_seq_Forall. intros i Hi.
  apply Pos_mul; [apply get_Forall; [exact Hp|lia] | now apply emit_Pos].
Qed.

Lemma alpha_raw_Pos (h : HMM) (prev : row) t :
  Usable h -> length prev = Nn h -> Forall Pos prev -> Forall Pos (alpha_raw h prev t).
Proof.
  intros Hu Hl Hprev. pose proof Hu as (Hn & _ & _ & _ & _ & HB).
  unfold alpha_raw. apply map_seq_Forall. intros j Hj.
  apply Pos_mul; [|now apply emit_Pos].
  apply sum_over_Pos; [exact Hn|]. intros i Hi.
  apply Pos_mul; [apply get_Forall; [exact Hprev|lia] | now apply get2_A_Pos].
Qed.

Lemma nonempty_of_length {X : Type} (l : list X) n :
  length l = n -> (1 <= n)%nat -> l <> [].
Proof. intros Hl Hn ->. simpl in Hl. lia. Qed.

Lemma raw_at_Pos (h : HMM) t : Usable h -> Forall Pos (raw_at h t).
Proof.
  intros Hu. induction t as [|t IH]; simpl.
  - now apply alpha_raw0_Pos.
  - apply alpha_raw_Pos; [exact Hu | now rewrite scaled_length, raw_at_length |].
    destruct (scaled_Pos (raw_at h t) IH) as (s & _ & _ & _ & _ & Hp & _); [|exact Hp].
    apply (nonempty_of_length _ (Nn h)); [apply raw_at_length | apply Hu].
Qed.

Lemma raw_at_nonempty (h : HMM) t : Usable h -> raw_at h t <> [].
Proof.
  intros Hu. apply (nonempty_of_length _ (Nn h)); [apply raw_at_length | apply Hu].
Qed.

Lemma c_at_Pos (h : HMM) t : Usable h -> Pos (c_at h t).
Proof.
  intros Hu.
  destruct (scaled_Pos (raw_at h t) (raw_at_Pos h t Hu) (raw_at_nonempty h t Hu))
    as (s & _ & Hpos & Hsc & _).
  unfold c_at. rewrite Hsc. exists (1 / s)%R. split; [reflexivity|].
  apply Rdiv_lt_0_compat; lra.
Qed.

Lemma alpha_at_Pos (h : HMM) t : Usable h -> Forall Pos (alpha_at h t).
Proof.
  intros Hu.
  now destruct (scaled_Pos (raw_at h t) (raw_at_Pos h t Hu) (raw_at_nonempty h t Hu))
    as (s & _ & _ & _ & _ & Hp & _).
Qed.

Lemma Usable_rows_ok (h : HMM) : Usable h -> (1 <= T h)%nat -> rows_ok h = true.
Proof.
  intros (Hn & _) HT. unfold rows_ok, alloc_ok, Nn in *.
  replace (N h <? 0)%Z with false by (symmetry; apply Z.ltb_ge; lia).
  rewrite andb_false_r. simpl. destruct (T h); [lia|reflexivity].
Qed.

End ExactFacts.

(* ================================================================== *)
(** ** The forward pass, row by row *)

Section ForwardRows.
Context {AR : Arith}.
Local Open Scope num_scope.


Lemma nth_map_seq {X : Type} (f : nat -> X) (n t : nat) (d : X) :
  (t < n)%nat -> nth t (map f (seq 0 n)) d = f t.
Proof.
  intros H. rewrite (nth_indep _ d (f 0%nat)) by now rewrite length_map, length_seq.
  rewrite map_nth. now rewrite seq_nth.
Qed.

Lemma forward_raw_formula (h : HMM) (t : nat) :
  (t < T h)%nat -> forward_raw h (alpha (forward_formula h)) t = raw_at h t.
Proof.
  intros Ht. destruct t as [|t']; [reflexivity|].
  simpl. now rewrite nth_map_seq by lia.
Qed.


End ForwardRows.

Section ForwardExact.
Import XR.
Local Existing Instance XR.arith.
Local Open Scope num_scope.

Lemma floor_pos_Pos (x : xreal) : Pos x -> floor_pos x = x.
Proof. intros H. unfold floor_pos. now rewrite Pos_gt0. Qed.

Lemma logLik_of_Pos (cs : row) :
  Forall Pos cs ->
  logLik_of cs = Fin (- Rsum (map (fun x => ln (toR x)) cs)).
Proof.
  intros H. unfold logLik_of.
  assert (G : forall a, fold_left (fun ll x => ll - Math_log (floor_pos x)) cs (Fin a)
                        = Fin (a - Rsum (map (fun x => ln (toR x)) cs))).
  { induction H as [|x cs Hx Hcs IH]; intros a.
    - simpl. unfold Rsum. simpl. f_equal. lra.
    - cbn [fold_left map]. rewrite floor_pos_Pos by exact Hx.
      destruct Hx as (b & -> & Hb). cbn [Math_log arith xlog].
      rewrite Rgtb_true by exact Hb. cbn [nsub arith xsub xneg xadd toR].
      rewrite IH, Rsum_cons. f_equal. lra. }
  change 0 with (Fin 0). rewrite G. f_equal. lra.
Qed.


End ForwardExact.

(* ================================================================== *)
(** ** The E-step, row by row, and the backward pass *)

Section EstepRows.
Context {AR : Arith}.
Local Open Scope num_scope.


Lemma beta_from_length (h : HMM) (cs : row) t k : length (beta_from h cs t k) = Nn h.
Proof.
  destruct k; simpl; unfold beta_last, beta_prev; now rewrite length_map, length_seq.
Qed.

End EstepRows.

Section BackwardExact.
Import XR.
Local Existing Instance XR.arith.
Local Open Scope num_scope.

Lemma beta_from_Pos (h : HMM) (cs : row) :
  Usable h -> (forall t, (t < T h)%nat -> Pos (get cs t)) -> (1 <= T h)%nat ->
  forall k t, (t + k = T h - 1)%nat -> Forall Pos (beta_from h cs t k).
Proof.
  intros Hu Hc HT. pose proof Hu as (Hn & _ & _ & _ & _ & HB).
  induction k as [|k IH]; intros t Htk; simpl.
  - unfold beta_last. apply map_seq_Forall. intros i _. apply Hc. lia.
  - unfold beta_prev. apply map_seq_Forall. intros i Hi.
    apply Pos_mul; [|apply Hc; lia].
    apply sum_over_Pos; [exact Hn|]. intros j Hj.
    apply Pos_mul; [apply Pos_mul; [now apply get2_A_Pos | now apply emit_Pos]|].
    apply get_Forall; [apply IH; lia | now rewrite beta_from_length].
Qed.

Lemma beta_at_Pos (h : HMM) (cs : row) t :
  Usable h -> (forall t, (t < T h)%nat -> Pos (get cs t)) -> (t < T h)%nat ->
  Forall Pos (beta_at h cs t).
Proof.
  intros Hu Hc Ht. unfold beta_at. apply beta_from_Pos; auto; lia.
Qed.


Lemma forward_PosMatrix (h : HMM) :
  Usable h -> PosMatrix h (alpha (forward_formula h)).
Proof.
  intros Hu t i Ht Hi. cbn [alpha forward_formula]. rewrite get2_map by exact Ht.
  apply get_Forall; [now apply alpha_at_Pos | now rewrite alpha_at_length].
Qed.

Lemma forward_c_Pos (h : HMM) t :
  Usable h -> (t < T h)%nat -> Pos (get (c (forward_formula h)) t).
Proof.
  intros Hu Ht. cbn [c forward_formula]. rewrite get_map by exact Ht.
  now apply c_at_Pos.
Qed.

Lemma backward_PosMatrix (h : HMM) (cs : row) :
  Usable h -> (forall t, (t < T h)%nat -> Pos (get cs t)) ->
  PosMatrix h (backward_formula h cs).
Proof.
  intros Hu Hc t i Ht Hi. unfold backward_formula. rewrite get2_map by exact Ht.
  apply get_Forall; [now apply beta_at_Pos|].
  unfold beta_at. now rewrite beta_from_length.
Qed.

Lemma gamma_raw_Pos (h : HMM) (alpha beta : matrix) t :
  PosMatrix h alpha -> PosMatrix h beta -> (t < T h)%nat ->
  Forall Pos (gamma_raw h alpha beta t).
Proof.
  intros Ha Hb Ht. unfold gamma_raw. apply map_seq_Forall. intros i Hi.
  apply Pos_mul; [now apply Ha | now apply Hb].
Qed.

Lemma xi_raw_Pos (h : HMM) (alpha beta : matrix) t :
  Usable h -> PosMatrix h alpha -> PosMatrix h beta -> (S t < T h)%nat ->
  Forall (Forall Pos) (xi_raw h alpha beta t).
Proof.
  intros Hu Ha Hb Ht. pose proof Hu as (_ & _ & _ & _ & _ & HB).
  unfold xi_raw. apply Forall_map, Forall_forall. intros i Hi. apply in_seq in Hi.
  apply map_seq_Forall. intros j Hj.
  repeat apply Pos_mul.
  - apply Ha; lia.
  - apply get2_A_Pos; auto; lia.
  - now apply emit_Pos.
  - apply Hb; lia.
Qed.

(** Normalising a positive row, and a positive matrix. *)
Lemma normalised_if_pos_Pos (r : row) :
  Forall Pos r -> r <> [] ->
  exists s,
    sum r = Fin s /\ (0 < s)%R /\
    normalised_if_pos r = map (fun x => x / Fin s) r /\
    Forall Pos (normalised_if_pos r) /\
    sum (normalised_if_pos r) = Fin 1.
Proof.
  intros Hp Hne. destruct (sum_Pos r Hp Hne) as (s & Hs & Hpos).
  exists s. split; [exact Hs|]. split; [exact Hpos|].
  unfold normalised_if_pos. rewrite Pos_gt0 by (rewrite Hs; now exists s).
  rewrite Hs. split; [reflexivity|]. split.
  - now apply Pos_divided.
  - apply sum_divided; auto. now apply Forall_Pos_NonNeg.
Qed.

Lemma concat_Forall (m : matrix) : Forall (Forall Pos) m -> Forall Pos (concat m).
Proof.
  induction 1 as [|r m Hr Hm IH]; simpl; [constructor|].
  apply Forall_app. now split.
Qed.

Lemma normalised2_if_pos_Pos (m : matrix) :
  Forall (Forall Pos) m -> concat m <> [] ->
  exists s,
    sum2 m = Fin s /\ (0 < s)%R /\
    normalised2_if_pos m = map (map (fun x => x / Fin s)) m /\
    Forall (Forall Pos) (normalised2_if_pos m) /\
    sum2 (normalised2_if_pos m) = Fin 1.
Proof.
  intros Hp Hne. pose proof (concat_Forall m Hp) as Hc.
  destruct (sum_Pos (concat m) Hc Hne) as (s & Hs & Hpos).
  exists s. split; [exact Hs|]. split; [exact Hpos|].
  unfold normalised2_if_pos. fold (sum2 m) in Hs.
  rewrite Pos_gt0 by (rewrite Hs; now exists s).
  rewrite Hs. split; [reflexivity|]. split.
  - apply Forall_map. eapply Forall_impl; [|exact Hp].
    intros r Hr. now apply Pos_divided.
  - unfold sum2. rewrite <- concat_map.
    apply sum_divided; auto. now apply Forall_Pos_NonNeg.
Qed.

Lemma xi_raw_nonempty (h : HMM) (alpha beta : matrix) t :
  (1 <= Nn h)%nat -> concat (xi_raw h alpha beta t) <> [].
Proof.
  intros Hn. unfold xi_raw. destruct (Nn h) as [|n]; [lia|].
  simpl. discriminate.
Qed.

Lemma gamma_raw_nonempty (h : HMM) (alpha beta : matrix) t :
  (1 <= Nn h)%nat -> gamma_raw h alpha beta t <> [].
Proof.
  intros Hn. unfold gamma_raw. destruct (Nn h) as [|n]; [lia|]. discriminate.
Qed.

End BackwardExact.

(* ================================================================== *)
(** ** The M-step keeps the rows normalised *)

Section MstepExact.
Import XR.
Local Existing Instance XR.arith.
Local Open Scope num_scope.

Lemma or_num_Pos (x d : xreal) : Pos x -> or_num x d = x.
Proof. intros H. unfold or_num. now rewrite Pos_truthy. Qed.

Lemma normalise_Pos (r : row) :
  Forall Pos r -> r <> [] ->
  Forall Pos (normalise r) /\ sum (normalise r) = Fin 1.
Proof.
  intros Hp Hne. destruct (sum_Pos r Hp Hne) as (s & Hs & Hpos).
  unfold normalise. rewrite or_num_Pos by (rewrite Hs; now exists s). rewrite Hs.
  split; [now apply Pos_divided|].
  apply sum_divided; auto. now apply Forall_Pos_NonNeg.
Qed.

Lemma normalise_NonNeg (r : row) :
  Forall NonNeg r -> Exists Pos r ->
  Forall NonNeg (normalise r) /\ sum (normalise r) = Fin 1.
Proof.
  intros Hp He. destruct (sum_Pos_exists r Hp He) as (s & Hs & Hpos).
  unfold normalise. rewrite or_num_Pos by (rewrite Hs; now exists s). rewrite Hs.
  destruct (sum_divided r s Hp Hs Hpos) as [H1 H2]. now split.
Qed.

Lemma normalise_length (r : row) : length (normalise r) = length r.
Proof. unfold normalise. now rewrite length_map. Qed.


Lemma estep_PosOccupancy (h : HMM) (alpha beta : matrix) :
  Usable h -> PosMatrix h alpha -> PosMatrix h beta ->
  PosOccupancy h (gamma (estep_formula h alpha beta)) (xi (estep_formula h alpha beta)).
Proof.
  intros Hu Ha Hb. pose proof Hu as (Hn & _).
  unfold estep_formula. cbn [gamma xi]. split; [|split].
  - intros t Ht. rewrite nth_map_seq by exact Ht.
    destruct (normalised_if_pos_Pos (gamma_raw h alpha beta t)
                (gamma_raw_Pos h alpha beta t Ha Hb Ht)
                (gamma_raw_nonempty h alpha beta t Hn))
      as (s & _ & _ & Heq & Hp & Hone).
    split; [|now split]. rewrite Heq. unfold gamma_raw.
    now rewrite !length_map, length_seq.
  - intros t i j Ht Hi Hj. unfold get3. rewrite nth_map_seq by lia.
    destruct (normalised2_if_pos_Pos (xi_raw h alpha beta t)
                (xi_raw_Pos h alpha beta t Hu Ha Hb Ht)
                (xi_raw_nonempty h alpha beta t Hn))
      as (s & _ & Hpos & Heq & _ & _).
    rewrite Heq. unfold xi_raw. rewrite map_map. unfold get2.
    rewrite nth_map_seq by exact Hi. unfold get. rewrite map_map.
    rewrite nth_map_seq by exact Hj.
    apply Pos_div; [|now exists s].
    repeat apply Pos_mul.
    + apply Ha; lia.
    + now apply get2_A_Pos.
    + apply emit_Pos, Hu.
    + apply Hb; lia.
  - intros t Ht. rewrite nth_map_seq by lia.
    now destruct (normalised2_if_pos_Pos (xi_raw h alpha beta t)
                (xi_raw_Pos h alpha beta t Hu Ha Hb Ht)
                (xi_raw_nonempty h alpha beta t Hn))
      as (s & _ & _ & _ & _ & Hone).
Qed.

Lemma count_symbol_fold (h : HMM) (g : matrix) (i k : nat) (ts : list nat) (a : xreal) :
  (forall t, In t ts -> Pos (get2 g t i)) ->
  NonNeg a ->
  let r := fold_left (fun num t =>
             if (nth t (Obs h) (-1) =? Z.of_nat k)%Z then num + get2 g t i else num) ts a in
  NonNeg r /\
  (Pos a \/ (exists t, In t ts /\ nth t (Obs h) (-1)%Z = Z.of_nat k) -> Pos r).
Proof.
  revert a. induction ts as [|t ts IH]; intros a Hg Ha; cbn [fold_left].
  - split; [exact Ha|]. intros [Hp | (t & [] & _)]. exact Hp.
  - assert (Hg' : forall t, In t ts -> Pos (get2 g t i)) by (intros; apply Hg; now right).
    destruct (nth t (Obs h) (-1) =? Z.of_nat k)%Z eqn:E.
    + assert (Hp : Pos (a + get2 g t i)) by (apply NonNeg_Pos_add; [exact Ha | apply Hg; now left]).
      destruct (IH _ Hg' (Pos_NonNeg _ Hp)) as [H1 H2].
      split; [exact H1|]. intros _. apply H2. now left.
    + destruct (IH _ Hg' Ha) as [H1 H2].
      split; [exact H1|]. intros [Hp | (t' & [<- | Hin] & Ht')].
      * apply H2. now left.
      * apply Z.eqb_neq in E. contradiction.
      * apply H2. right. now exists t'.
Qed.


Lemma mstep_Model (h : HMM) (g : matrix) (x : list matrix) (ll : xreal) (its : Z) :
  Usable h -> trainable h -> PosOccupancy h g x ->
  Model (set_params h (mstep_formula h g x) ll its).
Proof.
  intros Hu (HTlen & HT & (t0 & o0 & Ho0 & Hrange)) (Hg & Hx & _).
  pose proof Hu as (Hn & _).
  assert (Hgp : forall t i, (t < T h)%nat -> (i < Nn h)%nat -> Pos (get2 g t i)).
  { intros t i Ht Hi. destruct (Hg t Ht) as (Hl & Hp & _).
    unfold get2. apply get_Forall; [exact Hp | now rewrite Hl]. }
  assert (Hden : forall i k, (1 <= k <= T h)%nat -> (i < Nn h)%nat ->
                  Pos (or_num (sum_over k (fun t => get2 g t i)) lit_1e_300)).
  { intros i k Hk Hi.
    assert (Hs : Pos (sum_over k (fun t => get2 g t i)))
      by (apply sum_over_Pos; [lia|]; intros t Ht; apply Hgp; [lia|exact Hi]).
    now rewrite or_num_Pos. }
  (* the new rows *)
  assert (Hpi : Forall Pos (normalise (nth 0%nat g [])) /\ sum (normalise (nth 0%nat g [])) = Fin 1).
  { destruct (Hg 0%nat ltac:(lia)) as (Hl & Hp & _). apply normalise_Pos; [exact Hp|].
    apply (nonempty_of_length _ (Nn h)); assumption. }
  assert (HA : forall i, (i < Nn h)%nat ->
            Forall Pos (normalise (map (A_ratio h g x i) (seq 0 (Nn h)))) /\
            sum (normalise (map (A_ratio h g x i) (seq 0 (Nn h)))) = Fin 1).
  { intros i Hi. apply normalise_Pos.
    - apply map_seq_Forall. intros j Hj. unfold A_ratio.
      apply Pos_div; [|apply Hden; [lia|exact Hi]].
      apply sum_over_Pos; [lia|]. intros t Ht. apply Hx; [lia|exact Hi|exact Hj].
    - destruct (Nn h); [lia|discriminate]. }
  assert (HB : forall i, (i < Nn h)%nat ->
            Forall NonNeg (normalise (map (B_ratio h g i) (seq 0 (Z.to_nat (M h))))) /\
            sum (normalise (map (B_ratio h g i) (seq 0 (Z.to_nat (M h))))) = Fin 1).
  { intros i Hi.
    assert (Hcount : forall k,
              NonNeg (count_symbol h g i k) /\
              ((exists t, In t (seq 0 (T h)) /\ nth t (Obs h) (-1)%Z = Z.of_nat k) ->
               Pos (count_symbol h g i k))).
    { intros k. unfold count_symbol.
      destruct (count_symbol_fold h g i k (seq 0 (T h)) (Fin 0)) as [H1 H2].
      - intros t Ht. apply in_seq in Ht. apply Hgp; [lia|exact Hi].
      - apply zero_NonNeg.
      - split; [exact H1|]. intros He. apply H2. now right. }
    apply normalise_NonNeg.
    - apply map_seq_Forall. intros k Hk. unfold B_ratio.
      apply NonNeg_div; [apply Hcount | apply Hden; [lia|exact Hi]].
    - apply Exists_exists. exists (B_ratio h g i (Z.to_nat o0)). split.
      + apply in_map. apply in_seq. lia.
      + unfold B_ratio. apply Pos_div; [|apply Hden; [lia|exact Hi]].
        apply Hcount. exists t0.
        assert (Ht0 : (t0 < length (Obs h))%nat) by (apply nth_error_Some; congruence).
        split; [apply in_seq; lia|].
        rewrite (nth_error_nth _ _ _ Ho0). lia. }
  (* the invariant *)
  unfold Model, Usable, rows_sum_to_one, mstep_formula.
  cbn [set_params new_pi new_A new_B pi A B Nn N M].
  fold (Nn h).
  repeat split.
  - exact Hn.
  - rewrite normalise_length. now destruct (Hg 0%nat ltac:(lia)).
  - apply Hpi.
  - now rewrite length_map, length_seq.
  - apply Forall_map, Forall_forall. intros i Hi. apply in_seq in Hi.
    split; [rewrite normalise_length; now rewrite length_map, length_seq|].
    apply HA. lia.
  - apply Forall_map, Forall_forall. intros i Hi. apply in_seq in Hi.
    apply HB. lia.
  - apply Hpi.
  - apply Forall_map, Forall_forall. intros i Hi. apply in_seq in Hi.
    apply HA. lia.
  - apply Forall_map, Forall_forall. intros i Hi. apply in_seq in Hi.
    apply HB. lia.
  - now rewrite length_map, length_seq.
  - apply Forall_map, Forall_forall. intros i Hi.
    rewrite normalise_length. now rewrite length_map, length_seq.
Qed.

End MstepExact.

(* ================================================================== *)
(** ** Training keeps the rows normalised *)

Section TrainExact.
Import XR.
Local Existing Instance XR.arith.
Local Open Scope num_scope.

Lemma Model_Usable (h : HMM) : Model h -> Usable h.
Proof. now intros (Hu & _). Qed.

Lemma trainable_T (h : HMM) : trainable h -> (1 <= T h)%nat.
Proof. intros (_ & HT & _). lia. Qed.

Lemma em_update_formula (h : HMM) (iter : nat) :
  rows_ok h = true -> (1 <= T h)%nat ->
  em_update h iter
  = Some (set_params h
            (mstep_formula h
               (gamma (estep_formula h (alpha (forward_formula h))
                         (backward_formula h (c (forward_formula h)))))
               (xi (estep_formula h (alpha (forward_formula h))
                      (backward_formula h (c (forward_formula h))))))
            (logLik (forward_formula h)) (Z.of_nat iter + 1),
          logLik (forward_formula h)).
Proof.
  intros Hok HT. unfold em_update.
  rewrite forward_eq by exact Hok.
  rewrite backward_eq by exact Hok.
  rewrite estep_eq by now apply rows_ok_alloc.
  rewrite mstep_eq; [reflexivity|].
  unfold estep_formula. cbn [gamma]. destruct (T h); [lia|discriminate].
Qed.

Lemma passes_PosOccupancy (h : HMM) :
  Usable h ->
  PosOccupancy h
    (gamma (estep_formula h (alpha (forward_formula h))
              (backward_formula h (c (forward_formula h)))))
    (xi (estep_formula h (alpha (forward_formula h))
           (backward_formula h (c (forward_formula h))))).
Proof.
  intros Hu. apply estep_PosOccupancy; [exact Hu | now apply forward_PosMatrix |].
  apply backward_PosMatrix; [exact Hu|]. intros t Ht. now apply forward_c_Pos.
Qed.

(** One iteration keeps the invariant. *)
Lemma em_update_Model (h h1 : HMM) (iter : nat) (ll : xreal) :
  Usable h -> trainable h ->
  em_update h iter = Some (h1, ll) ->
  Model h1 /\ trainable h1.
Proof.
  intros Hu Htr Hup.
  rewrite em_update_formula in Hup
    by (try apply Usable_rows_ok; auto using trainable_T).
  injection Hup as <- _. split.
  - apply mstep_Model; [exact Hu | exact Htr | now apply passes_PosOccupancy].
  - exact Htr.
Qed.

Lemma Model_same (h h' : HMM) :
  same_model h h' -> same_params h h' -> Model h -> Model h'.
Proof.
  intros (_ & _ & HN & HM & _) (Hpi & HA & HB).
  unfold Model, Usable, rows_sum_to_one, Nn. now rewrite Hpi, HA, HB, HN, HM.
Qed.

Lemma trainable_same (h h' : HMM) : same_model h h' -> trainable h -> trainable h'.
Proof.
  intros (HO & HT & _ & HM & _). unfold trainable. now rewrite HO, HT, HM.
Qed.

Lemma set_converged_same (h : HMM) :
  same_model h (set_converged h) /\ same_params h (set_converged h).
Proof. unfold same_model, same_params. simpl. repeat split. Qed.

(** The loop keeps the invariant, and raises nothing. *)
Lemma train_loop_Model (cb : bool) (todo iter : nat) (s : loop_state) :
  Model (ls_hmm s) -> trainable (ls_hmm s) ->
  exists s',
    train_loop cb todo iter s = Some s' /\
    Model (ls_hmm s') /\ trainable (ls_hmm s').
Proof.
  revert iter s. induction todo as [|todo IH]; intros iter s Hm Htr.
  - exists s. split; [reflexivity|]. split; assumption.
  - pose proof (Usable_rows_ok _ (Model_Usable _ Hm) (trainable_T _ Htr)) as Hok.
    destruct (train_loop_total cb (S todo) iter s Hok (trainable_T _ Htr)) as (s' & Hrun & _).
    exists s'. split; [exact Hrun|].
    simpl in Hrun.
    destruct (train_body cb iter s) as [r|] eqn:Hbody; [|discriminate].
    destruct (train_body_cases _ _ _ _ Hbody) as (h1 & ll & Hup & Hcase).
    destruct (em_update_Model _ _ _ _ (Model_Usable _ Hm) Htr Hup) as (Hm1 & Htr1).
    destruct (fires iter (ls_prevLL s) ll (epsilon (ls_hmm s))).
    + destruct Hcase as (h2 & Hfp & ->). injection Hrun as <-. simpl.
      destruct (final_pass_fields _ _ Hfp) as (Hsm & Hsp & _).
      destruct (set_converged_same h1) as (Hsm' & Hsp').
      split.
      * eapply Model_same; [exact Hsm | exact Hsp |].
        eapply Model_same; [exact Hsm' | exact Hsp' | exact Hm1].
      * eapply trainable_same; [exact Hsm|].
        eapply trainable_same; [exact Hsm' | exact Htr1].
    + subst r.
      destruct (IH (S iter)
                  {| ls_hmm := h1; ls_prevLL := ll;
                     ls_calls := invoke cb (ls_calls s) (iter_call iter (ls_prevLL s) ll) |}
                  Hm1 Htr1) as (s'' & Hrun' & Hres).
      rewrite Hrun in Hrun'. injection Hrun' as <-. exact Hres.
Qed.

Lemma train_Model (cb : bool) (h : HMM) :
  Model h -> trainable h ->
  exists h' calls, train h cb = Some (h', calls) /\ Model h'.
Proof.
  intros Hm Htr. unfold train. cbv zeta.
  destruct (train_loop_Model cb (Z.to_nat (maxIter h)) 0
              {| ls_hmm := h; ls_prevLL := neg_Infinity; ls_calls := [] |} Hm Htr)
    as (s & -> & Hm' & Htr').
  destruct (negb (converged (ls_hmm s))).
  - pose proof (Usable_rows_ok _ (Model_Usable _ Hm') (trainable_T _ Htr')) as Hok.
    destruct (final_pass_total _ Hok) as (h2 & Hfp). rewrite Hfp.
    destruct (final_pass_fields _ _ Hfp) as (Hsm & Hsp & _).
    eexists _, _. split; [reflexivity|]. eapply Model_same; eauto.
  - eexists _, _. split; [reflexivity | exact Hm'].
Qed.

(** *** Initialisation *)

Lemma rand_NonNeg (g : rng) : NonNeg (fst (rand g)).
Proof.
  unfold rand. pose proof (Int32.to_uint32_range) as Hr.
  unfold rand_u32. cbv zeta. cbn [fst].
  match goal with |- NonNeg (of_Z (Int32.to_uint32 ?x) / _) =>
    specialize (Hr x); generalize dependent (Int32.to_uint32 x) end.
  intros u Hu. cbn [of_Z arith]. rewrite xdiv_Fin by (apply not_0_IZR; lia).
  exists (IZR u / IZR 4294967296)%R. split; [reflexivity|].
  apply Rmult_le_pos; [apply IZR_le; lia|].
  left. apply Rinv_0_lt_compat. apply IZR_lt. lia.
Qed.

Lemma randRow_Pos (k : Z) (g : rng) :
  (1 <= k)%Z ->
  Forall Pos (fst (_randRow k g)) /\ sum (fst (_randRow k g)) = Fin 1.
Proof.
  intros Hk. unfold _randRow.
  pose proof (Array_from_rng_length (Z.to_nat k)
    (fun g => let '(x, g') := rand g in (x + lit_0_2, g')) g) as Hl.
  pose proof (Array_from_rng_Forall Pos (Z.to_nat k)
    (fun g => let '(x, g') := rand g in (x + lit_0_2, g')) g) as Hp.
  destruct (Array_from_rng _ _ g) as [v g']. cbn [fst] in *.
  assert (Hv : Forall Pos v).
  { apply Hp. intros g0. pose proof (rand_NonNeg g0) as H.
    destruct (rand g0) as [x g1]. cbn [fst] in *.
    apply NonNeg_Pos_add; [exact H | apply lit_0_2_Pos]. }
  assert (Hne : v <> []) by (apply (nonempty_of_length _ (Z.to_nat k)); [exact Hl|lia]).
  destruct (sum_Pos v Hv Hne) as (s & Hs & Hpos). rewrite Hs. split.
  - now apply Pos_divided.
  - apply sum_divided; auto. now apply Forall_Pos_NonNeg.
Qed.

Lemma Array_from_rng_Forall_rows (P : row -> Prop) (n : nat) (k : Z) (g : rng) :
  (forall g, P (fst (_randRow k g))) ->
  Forall P (fst (Array_from_rng n (_randRow k) g)).
Proof. intros H. now apply Array_from_rng_Forall. Qed.

(** The estimator the constructor returns is positive and normalised. *)
Lemma constructor_Model (obs : list Z) (N0 M0 : Z) (opts : options) :
  (1 <= N0)%Z -> (1 <= M0)%Z ->
  let h := constructor obs N0 M0 opts in
  Model h /\ Forall (Forall Pos) (B h).
Proof.
  intros HN HM.
  destruct (constructor_shape obs N0 M0 opts) as (Hlp & Hla & Hla' & Hlb & Hlb').
  destruct (constructor_fields obs N0 M0 opts) as (_ & _ & HNf & HMf & _).
  cbv zeta in *. revert Hlp Hla Hla' Hlb Hlb' HNf HMf.
  unfold constructor.
  pose proof (randRow_Pos N0 (mulberry32 (or_elseZ (opt_seed opts) 42)) HN) as Hp.
  destruct (_randRow N0 _) as [p g1]. cbn [fst] in Hp.
  pose proof (Array_from_rng_Forall_rows
                (fun r => Forall Pos r /\ sum r = Fin 1) (Z.to_nat N0) N0 g1
                (fun g => randRow_Pos N0 g HN)) as Ha.
  destruct (Array_from_rng _ (_randRow N0) g1) as [a g2]. cbn [fst] in Ha.
  pose proof (Array_from_rng_Forall_rows
                (fun r => Forall Pos r /\ sum r = Fin 1) (Z.to_nat N0) M0 g2
                (fun g => randRow_Pos M0 g HM)) as Hb.
  destruct (Array_from_rng _ (_randRow M0) g2) as [b g3]. cbn [fst] in Hb.
  cbn [pi A B N M]. intros Hlp Hla Hla' Hlb Hlb' _ _.
  unfold Model, Usable, rows_sum_to_one, Nn. cbn [pi A B N M].
  rewrite Forall_forall in Ha, Hb, Hla', Hlb'.
  repeat split; try assumption; try apply Hp; try lia;
    try (apply Forall_forall; intros r Hr).
  - split; [now apply Hla' | now apply Ha].
  - apply Forall_Pos_NonNeg. now apply Hb.
  - now apply Ha.
  - now apply Hb.
  - now apply Hlb'.
  - now apply Hb.
Qed.

End TrainExact.

(* ================================================================== *)
(** ** Initialisation, the forward pass and the E-step: the statements *)





Lemma constructor_Usable :
  Usable (@constructor XR.arith [0; 1; 0]%Z 2 2 no_options).
Proof.
  apply Model_Usable.
  apply (constructor_Model [0; 1; 0]%Z 2 2 no_options); lia.
Qed.




(* ================================================================== *)
(** ** logSumExp *)

Section LogSumExpFacts.
Context {AR : Arith}.
Local Open Scope num_scope.

Lemma max_of_neg_Infinity (arr : row) :
  Forall (fun x => x = neg_Infinity) arr ->
  fold_left (fun max x => if x >? max then x else max) arr neg_Infinity = neg_Infinity.
Proof.
  induction 1 as [|x l Hx _ IH]; [reflexivity|].
  simpl. subst x. now rewrite ngt_neg_Infinity.
Qed.

Lemma logSumExp_neg_Infinity (arr : row) :
  Forall (fun x => x = neg_Infinity) arr -> logSumExp arr = neg_Infinity.
Proof.
  intros H. unfold logSumExp. rewrite (max_of_neg_Infinity arr H).
  now rewrite isFinite_neg_Infinity.
Qed.

End LogSumExpFacts.

Section LogSumExpExact.
Import XR.
Local Existing Instance XR.arith.
Local Open Scope num_scope.


Lemma pick_extended acc x : extended acc -> extended x -> extended (pick acc x).
Proof. intros Ha Hx. unfold pick. now destruct (xgt x acc). Qed.

Lemma pick_cases acc x : pick acc x = x \/ pick acc x = acc.
Proof. unfold pick. destruct (xgt x acc); auto. Qed.

Lemma pick_ge_new acc a :
  extended acc -> exists m, pick acc (Fin a) = Fin m /\ (a <= m)%R.
Proof.
  intros Ha. unfold pick. destruct acc as [b| | |]; try contradiction; simpl.
  - unfold Rgtb. destruct (Rlt_dec b a).
    + exists a. split; [reflexivity|lra].
    + exists b. split; [reflexivity|lra].
  - exists a. split; [reflexivity|lra].
Qed.

Lemma pick_ge_old a x :
  extended x -> exists m, pick (Fin a) x = Fin m /\ (a <= m)%R.
Proof.
  intros Hx. unfold pick. destruct x as [b| | |]; try contradiction; simpl.
  - unfold Rgtb. destruct (Rlt_dec a b).
    + exists b. split; [reflexivity|lra].
    + exists a. split; [reflexivity|lra].
  - exists a. split; [reflexivity|lra].
Qed.

Lemma running_max (arr : list xreal) :
  forall acc, Forall extended arr -> extended acc ->
    extended (fold_left pick arr acc) /\
    (In (fold_left pick arr acc) arr \/ fold_left pick arr acc = acc) /\
    (forall a, In (Fin a) arr \/ acc = Fin a ->
       exists m, fold_left pick arr acc = Fin m /\ (a <= m)%R).
Proof.
  induction arr as [|x l IH]; intros acc Harr Hacc.
  - simpl. split; [exact Hacc|]. split; [now right|].
    intros a [[]| ->]. exists a. split; [reflexivity|lra].
  - inversion Harr as [|? ? Hx Hl]; subst. simpl.
    destruct (IH (pick acc x) Hl (pick_extended acc x Hacc Hx)) as (He & Hin & Hmax).
    split; [exact He|]. split.
    + destruct Hin as [Hin|Hin]; [left; now right|].
      rewrite Hin. destruct (pick_cases acc x) as [Hp|Hp]; rewrite Hp.
      * left. now left.
      * now right.
    + intros a [[Ha|Ha]|Ha].
      * subst x. destruct (pick_ge_new acc a Hacc) as (m & Hm & Hle).
        destruct (Hmax m (or_intror Hm)) as (m' & Hm' & Hle').
        exists m'. split; [exact Hm'|lra].
      * apply Hmax. now left.
      * subst acc. destruct (pick_ge_old a x Hx) as (m & Hm & Hle).
        destruct (Hmax m (or_intror Hm)) as (m' & Hm' & Hle').
        exists m'. split; [exact Hm'|lra].
Qed.

Lemma shifted_sum (m : R) (arr : list xreal) :
  forall s0, Forall extended arr ->
    fold_left (fun s x => xadd s (xexp (xsub x (Fin m)))) arr (Fin s0)
    = Fin (s0 + Rsum (map (Rexp_from m) arr)).
Proof.
  induction arr as [|x l IH]; intros s0 H.
  - simpl. unfold Rsum. simpl. f_equal. lra.
  - inversion H as [|? ? Hx Hl]; subst. simpl. rewrite Rsum_cons.
    destruct x as [a| | |]; try contradiction; simpl.
    + rewrite (IH _ Hl). f_equal. unfold Rminus. lra.
    + rewrite (IH _ Hl). f_equal. lra.
Qed.

Lemma Rexp_from_nonneg (m : R) (arr : list xreal) :
  Forall (fun a => 0 <= a)%R (map (Rexp_from m) arr).
Proof.
  apply Forall_forall. intros a Ha. apply in_map_iff in Ha as (x & <- & _).
  destruct x; simpl; try lra. left. apply exp_pos.
Qed.

Lemma Rexp_from_pos (m : R) (arr : list xreal) :
  In (Fin m) arr -> (0 < Rsum (map (Rexp_from m) arr))%R.
Proof.
  intros Hin. apply Rsum_pos_exists; [apply Rexp_from_nonneg|].
  apply Exists_exists. exists (Rexp_from m (Fin m)). split.
  - now apply in_map.
  - simpl. apply exp_pos.
Qed.

Lemma Rexp_from_scaled (m : R) (arr : list xreal) :
  Rsum (map (Rexp_from m) arr) = (exp (- m) * Rsum (map Rexp arr))%R.
Proof.
  induction arr as [|x l IH].
  - unfold Rsum. simpl. lra.
  - simpl. rewrite !Rsum_cons, IH. destruct x as [a| | |]; simpl; try lra.
    unfold Rminus. rewrite exp_plus. lra.
Qed.

Lemma logSumExp_exact (arr : list xreal) :
  Forall extended arr -> Exists (fun x => xfinite x = true) arr ->
  exists m,
    In (Fin m) arr /\
    (forall a, In (Fin a) arr -> (a <= m)%R) /\
    logSumExp arr = Fin (m + ln (Rsum (map (Rexp_from m) arr))) /\
    logSumExp arr = Fin (ln (Rsum (map Rexp arr))).
Proof.
  intros Harr Hfin.
  destruct (running_max arr NInf Harr I) as (_ & Hin & Hmax).
  apply Exists_exists in Hfin as (x & Hx & Hxf).
  destruct x as [a| | |]; try discriminate.
  destruct (Hmax a (or_introl Hx)) as (m & Hm & _).
  assert (Hinm : In (Fin m) arr).
  { destruct Hin as [Hin|Hin]; [now rewrite Hm in Hin|]. rewrite Hm in Hin. discriminate. }
  assert (Hle : forall b, In (Fin b) arr -> (b <= m)%R).
  { intros b Hb. destruct (Hmax b (or_introl Hb)) as (m' & Hm' & Hle).
    rewrite Hm in Hm'. injection Hm' as <-. exact Hle. }
  assert (Hval : logSumExp arr = Fin (m + ln (Rsum (map (Rexp_from m) arr)))).
  { unfold logSumExp. simpl.
    change (fold_left (fun max x => if xgt x max then x else max) arr NInf)
      with (fold_left pick arr NInf).
    rewrite Hm. simpl. rewrite (shifted_sum m arr _ Harr). rewrite Rplus_0_l.
    simpl. rewrite Rgtb_true by now apply Rexp_from_pos. reflexivity. }
  exists m. split; [exact Hinm|]. split; [exact Hle|]. split; [exact Hval|].
  rewrite Hval. f_equal.
  pose proof (Rexp_from_pos m arr Hinm) as Hpos.
  rewrite Rexp_from_scaled in Hpos |- *.
  assert (HE : (0 < Rsum (map Rexp arr))%R).
  { pose proof (exp_pos (- m)).
    destruct (Rle_or_lt (Rsum (map Rexp arr)) 0) as [Hn|]; [|assumption].
    exfalso. nra. }
  rewrite ln_mult by (assumption || apply exp_pos). rewrite ln_exp. lra.
Qed.

Lemma logSumExp_single (a : R) : logSumExp [Fin a] = Fin a.
Proof.
  destruct (logSumExp_exact [Fin a]) as (m & _ & _ & _ & H).
  - repeat constructor.
  - constructor. reflexivity.
  - rewrite H. simpl. unfold Rsum. simpl. rewrite Rplus_0_l, ln_exp. reflexivity.
Qed.

End LogSumExpExact.

(** C9. [logSumExp] returns [-Infinity] for the empty sequence and for a
    sequence of [-Infinity] only; in exact arithmetic, [logSumExp [x]] is
    [x] for a real [x], and for a sequence of reals and [-Infinity] with at
    least one real, the result is [m + log (sum_i exp (x_i - m))] with [m]
    the largest real of the sequence, which is [log (sum_i exp x_i)]
    ([exp] of [-Infinity] being 0). *)
Theorem logSumExp_contract :
  (forall (AR : Arith) (arr : row),
     Forall (fun x => x = neg_Infinity) arr -> logSumExp arr = neg_Infinity) /\
  (forall AR : Arith, @logSumExp AR [] = neg_Infinity) /\
  (forall a : R, @logSumExp XR.arith [XR.Fin a] = XR.Fin a) /\
  (forall arr : list XR.xreal,
     Forall extended arr -> Exists (fun x => XR.xfinite x = true) arr ->
     exists m,
       In (XR.Fin m) arr /\
       (forall a, In (XR.Fin a) arr -> (a <= m)%R) /\
       @logSumExp XR.arith arr = XR.Fin (m + ln (Rsum (map (Rexp_from m) arr))) /\
       @logSumExp XR.arith arr = XR.Fin (ln (Rsum (map Rexp arr)))).
Proof.
  split; [|split; [|split]].
  - intros AR arr. apply logSumExp_neg_Infinity.
  - intros AR. apply logSumExp_neg_Infinity. constructor.
  - apply logSumExp_single.
  - apply logSumExp_exact.
Qed.

Lemma logSumExp_contract_witness :
  @logSumExp XR.arith [XR.NInf; XR.NInf] = XR.NInf /\
  @logSumExp XR.arith [XR.Fin 2] = XR.Fin 2 /\
  exists m,
    In (XR.Fin m) [XR.Fin 1; XR.NInf; XR.Fin 3] /\
    @logSumExp XR.arith [XR.Fin 1; XR.NInf; XR.Fin 3]
    = XR.Fin (ln (Rsum (map Rexp [XR.Fin 1; XR.NInf; XR.Fin 3]))).
Proof.
  destruct logSumExp_contract as (Hninf & _ & Hone & Hsum).
  split; [|split].
  - apply (Hninf XR.arith). repeat constructor.
  - apply Hone.
  - destruct (Hsum [XR.Fin 1; XR.NInf; XR.Fin 3]) as (m & Hin & _ & _ & Hval).
    + repeat constructor.
    + constructor. reflexivity.
    + exists m. split; assumption.
Defined.

(* ================================================================== *)
(** ** A run on the sequence 0, 1, 0 with two states *)

Lemma constructor_rows_ok :
  rows_ok (@constructor XR.arith [0; 1; 0]%Z 2 2 no_options) = true.
Proof.
  apply Usable_rows_ok; [exact constructor_Usable|].
  apply Nat.leb_le. reflexivity.
Qed.

Lemma constructor_not_converged :
  converged (@constructor XR.arith [0; 1; 0]%Z 2 2 no_options) = false.
Proof. apply (@constructor_fields XR.arith [0; 1; 0]%Z 2 2 no_options). Qed.


Lemma train_convergence_witness :
  let h := @constructor XR.arith [0; 1; 0]%Z 2 2 no_options in
  exists h' calls lls,
    train h true = Some (h', calls) /\
    logLikeHistory h' = logLikeHistory h ++ lls /\
    exists f b e,
      _forward h' = Some f /\ _backward h' (c f) = Some b /\
      _estep h' (alpha f) b = Some e /\
      finalAlpha h' = Some (logAlpha f) /\ finalGamma h' = Some (gamma e).
Proof.
  destruct (@train_convergence XR.arith true
              (@constructor XR.arith [0; 1; 0]%Z 2 2 no_options)
              constructor_not_converged) as [Htot Hchar].
  destruct (Htot constructor_rows_ok) as (h' & calls & Hrun).
  { apply Nat.leb_le. reflexivity. }
  destruct (Hchar h' calls Hrun) as (lls & Hh & _ & Hart & _).
  exists h', calls, lls. split; [exact Hrun|]. split; [exact Hh|exact Hart].
Defined.



(* ================================================================== *)
(** * Further properties of the estimator *)


(* ================================================================== *)
(** ** When training raises *)

Section TrainEdges.
Context {AR : Arith}.
Local Open Scope num_scope.



Lemma forward_raises (h : HMM) : rows_ok h = false -> _forward h = None.
Proof. intros H. unfold _forward. now rewrite H. Qed.

(** With an empty sequence the E-step returns no row and the M-step
    raises on [gamma[0]]. *)
Lemma em_update_empty (h : HMM) (iter : nat) : T h = 0%nat -> em_update h iter = None.
Proof.
  intros HT. unfold em_update.
  destruct (rows_ok h) eqn:Hok.
  - rewrite (forward_eq h Hok), (backward_eq h _ Hok).
    rewrite (estep_eq h _ _ (rows_ok_alloc h Hok)).
    unfold estep_formula. cbn [gamma xi]. rewrite HT. reflexivity.
  - now rewrite (forward_raises h Hok).
Qed.


Lemma em_update_raises (h : HMM) (iter : nat) :
  rows_ok h = false -> em_update h iter = None.
Proof. intros H. unfold em_update. now rewrite (forward_raises h H). Qed.



End TrainEdges.


(* ================================================================== *)
(** ** Shapes and counters after training *)

Section TrainShapes.
Context {AR : Arith}.
Local Open Scope num_scope.

(** What a successful iteration is: the sequence is not empty, the
    allocations succeed, and the estimator is updated by the formulas. *)
Lemma em_update_inv (h h1 : HMM) (iter : nat) (ll : num) :
  em_update h iter = Some (h1, ll) ->
  rows_ok h = true /\ (1 <= T h)%nat /\
  h1 = set_params h
         (mstep_formula h
            (gamma (estep_formula h (alpha (forward_formula h))
                      (backward_formula h (c (forward_formula h)))))
            (xi (estep_formula h (alpha (forward_formula h))
                   (backward_formula h (c (forward_formula h))))))
         (logLik (forward_formula h)) (Z.of_nat iter + 1) /\
  ll = logLik (forward_formula h).
Proof.
  intros Hup.
  destruct (rows_ok h) eqn:Hok;
    [|rewrite (em_update_raises h iter Hok) in Hup; discriminate].
  destruct (T h) as [|t] eqn:HT;
    [rewrite (em_update_empty h iter HT) in Hup; discriminate|].
  split; [reflexivity|]. split; [lia|].
  unfold em_update in Hup.
  rewrite (forward_eq h Hok), (backward_eq h _ Hok) in Hup.
  rewrite (estep_eq h _ _ (rows_ok_alloc h Hok)) in Hup.
  rewrite mstep_eq in Hup.
  - injection Hup as <- <-. split; reflexivity.
  - unfold estep_formula. cbn [gamma]. rewrite HT. discriminate.
Qed.

Lemma normalise_keeps_length (r : row) : length (normalise r) = length r.
Proof. unfold normalise. now rewrite length_map. Qed.

Lemma normalised_if_pos_length (r : row) : length (normalised_if_pos r) = length r.
Proof. unfold normalised_if_pos. destruct (sum r >? 0); [now rewrite length_map|reflexivity]. Qed.

Lemma gamma_raw_length (h : HMM) (a b : matrix) (t : nat) :
  length (gamma_raw h a b t) = Nn h.
Proof. unfold gamma_raw. now rewrite length_map, length_seq. Qed.

Lemma Forall_map_seq {X : Type} (P : X -> Prop) (f : nat -> X) (n : nat) :
  (forall i, (i < n)%nat -> P (f i)) -> Forall P (map f (seq 0 n)).
Proof.
  intros H. apply Forall_forall. intros x Hx.
  apply in_map_iff in Hx as (i & <- & Hi). apply in_seq in Hi. apply H. lia.
Qed.

Lemma em_update_shaped (h h1 : HMM) (iter : nat) (ll : num) :
  em_update h iter = Some (h1, ll) -> shaped h1.
Proof.
  intros Hup. apply em_update_inv in Hup as (_ & HT & -> & _).
  unfold shaped, Nn. cbn [pi A B N M set_params mstep_formula new_pi new_A new_B].
  fold (Nn h). repeat split.
  - rewrite normalise_keeps_length. unfold estep_formula. cbn [gamma].
    destruct (T h) as [|t]; [lia|]. cbn [seq map nth].
    now rewrite normalised_if_pos_length, gamma_raw_length.
  - now rewrite length_map, length_seq.
  - apply Forall_map_seq. intros i _.
    now rewrite normalise_keeps_length, length_map, length_seq.
  - now rewrite length_map, length_seq.
  - apply Forall_map_seq. intros i _.
    now rewrite normalise_keeps_length, length_map, length_seq.
Qed.

Lemma shaped_same (h h' : HMM) :
  same_model h h' -> same_params h h' -> shaped h -> shaped h'.
Proof.
  intros (_ & _ & HN & HM & _) (Hpi & HA & HB).
  unfold shaped, Nn. now rewrite Hpi, HA, HB, HN, HM.
Qed.

Lemma train_loop_shaped (cb : bool) (todo iter : nat) (s s' : loop_state) :
  train_loop cb todo iter s = Some s' ->
  shaped (ls_hmm s) -> shaped (ls_hmm s').
Proof.
  revert iter s. induction todo as [|todo IH]; intros iter s Hrun Hs; simpl in Hrun.
  - now inversion Hrun; subst.
  - destruct (train_body cb iter s) as [r|] eqn:Hbody; [|discriminate].
    apply train_body_cases in Hbody as (h1 & ll & Hup & Hcase).
    pose proof (em_update_shaped _ _ _ _ Hup) as H1.
    destruct (fires iter (ls_prevLL s) ll (epsilon (ls_hmm s))).
    + destruct Hcase as (h2 & Hfin & ->). inversion Hrun; subst s'. cbn [ls_hmm].
      apply final_pass_fields in Hfin as (Hm & Hp & _).
      eapply shaped_same; [exact Hm | exact Hp | exact H1].
    + subst r. apply (IH _ _ Hrun). exact H1.
Qed.

Lemma train_shaped (cb : bool) (h h' : HMM) (calls : list call) :
  train h cb = Some (h', calls) -> shaped h -> shaped h'.
Proof.
  unfold train. cbv zeta.
  destruct (train_loop cb (Z.to_nat (maxIter h)) 0 _) as [s|] eqn:Hloop; [|discriminate].
  intros Hrun Hs. apply train_loop_shaped in Hloop; [|exact Hs]. cbn [ls_hmm] in Hloop.
  destruct (negb (converged (ls_hmm s))).
  - destruct (final_pass (ls_hmm s)) as [h2|] eqn:Hfin; [|discriminate].
    inversion Hrun; subst. apply final_pass_fields in Hfin as (Hm & Hp & _).
    eapply shaped_same; [exact Hm | exact Hp | exact Hloop].
  - now inversion Hrun; subst.
Qed.

Lemma forward_inv (h : HMM) (f : forward_result) :
  _forward h = Some f -> rows_ok h = true /\ f = forward_formula h.
Proof.
  intros Hf. destruct (rows_ok h) eqn:Hok;
    [|rewrite (forward_raises h Hok) in Hf; discriminate].
  split; [reflexivity|]. rewrite (forward_eq h Hok) in Hf. now injection Hf.
Qed.

Lemma logAlpha_T_by_N (h : HMM) : T_by_N h (logAlpha (forward_formula h)).
Proof.
  unfold T_by_N, forward_formula. cbn [logAlpha]. split.
  - now rewrite length_map, length_seq.
  - apply Forall_map_seq. intros t _. unfold logAlpha_row.
    now rewrite length_map, alpha_at_length.
Qed.

Lemma gamma_T_by_N (h : HMM) (a b : matrix) : T_by_N h (gamma (estep_formula h a b)).
Proof.
  unfold T_by_N, estep_formula. cbn [gamma]. split.
  - now rewrite length_map, length_seq.
  - apply Forall_map_seq. intros t _.
    now rewrite normalised_if_pos_length, gamma_raw_length.
Qed.

Lemma constructor_shaped (obs : list Z) (N0 M0 : Z) (opts : options) :
  shaped (constructor obs N0 M0 opts).
Proof.
  destruct (constructor_fields obs N0 M0 opts) as (_ & _ & HN & HM & _).
  destruct (constructor_shape obs N0 M0 opts) as (Hp & Ha & Ha' & Hb & Hb').
  unfold shaped, Nn. rewrite HN, HM. repeat split; assumption.
Qed.

(** The iteration counter and the history after [train]. *)
Lemma train_counts (cb : bool) (h h' : HMM) (calls : list call) :
  converged h = false ->
  train h cb = Some (h', calls) ->
  exists lls,
    logLikeHistory h' = logLikeHistory h ++ lls /\
    iterations h' = match lls with
                    | [] => iterations h
                    | _ :: _ => Z.of_nat (length lls)
                    end /\
    (length lls <= Z.to_nat (maxIter h))%nat /\
    (converged h' = false -> length lls = Z.to_nat (maxIter h)) /\
    (converged h' = true -> (2 <= length lls)%nat).
Proof.
  intros Hconv. unfold train. cbv zeta.
  destruct (train_loop cb (Z.to_nat (maxIter h)) 0 _) as [s|] eqn:Hloop; [|discriminate].
  apply train_loop_run in Hloop; [|exact Hconv].
  cbv zeta in Hloop. cbn [ls_hmm ls_prevLL ls_calls] in Hloop.
  destruct Hloop as (_ & lls & Hh & Hit & Hnil & _ & Hrest).
  assert (Hits : iterations (ls_hmm s)
                 = match lls with
                   | [] => iterations h
                   | _ :: _ => Z.of_nat (length lls)
                   end).
  { destruct lls as [|l lls]; [now rewrite Hnil|]. rewrite Hit by discriminate. reflexivity. }
  assert (Hfacts :
    (length lls <= Z.to_nat (maxIter h))%nat /\
    (converged (ls_hmm s) = false -> length lls = Z.to_nat (maxIter h)) /\
    (converged (ls_hmm s) = true -> (2 <= length lls)%nat)).
  { destruct (converged (ls_hmm s)).
    - destruct Hrest as (lls0 & ll & -> & Hlen & _ & Hf & _).
      split; [exact Hlen|]. split; [discriminate|]. intros _.
      unfold fires in Hf. apply andb_prop in Hf as [Hpos _]. apply Nat.ltb_lt in Hpos.
      rewrite length_app. simpl. simpl in Hpos. lia.
    - destruct Hrest as (Hlen & _). split; [lia|]. split; [auto|discriminate]. }
  destruct (negb (converged (ls_hmm s))).
  - destruct (final_pass (ls_hmm s)) as [h2|] eqn:Hfin; [|discriminate].
    intros H. inversion H; subst h' calls.
    apply final_pass_fields in Hfin as (_ & _ & Hc & Hl & Hi & _).
    exists lls. rewrite Hl, Hi, Hc. split; [exact Hh|]. split; [exact Hits|exact Hfacts].
  - intros H. inversion H; subst h' calls.
    exists lls. split; [exact Hh|]. split; [exact Hits|exact Hfacts].
Qed.

End TrainShapes.

(** X2. When [train] returns, [pi] has N entries, [A] has N rows of N
    entries, [B] has N rows of M entries, and [finalAlpha] and
    [finalGamma] are set, each to T rows of N entries. *)
Theorem train_keeps_shapes
    {AR : Arith} (obs : list Z) (N0 M0 : Z) (opts : options) (cb : bool)
    (h' : HMM) (calls : list call) :
  train (constructor obs N0 M0 opts) cb = Some (h', calls) ->
  length (pi h') = Z.to_nat N0 /\
  length (A h') = Z.to_nat N0 /\
  Forall (fun r : row => length r = Z.to_nat N0) (A h') /\
  length (B h') = Z.to_nat N0 /\
  Forall (fun r : row => length r = Z.to_nat M0) (B h') /\
  exists fa fg,
    finalAlpha h' = Some fa /\ finalGamma h' = Some fg /\
    length fa = length obs /\ Forall (fun r : row => length r = Z.to_nat N0) fa /\
    length fg = length obs /\ Forall (fun r : row => length r = Z.to_nat N0) fg.
Proof.
  intros Hrun.
  destruct (constructor_fields obs N0 M0 opts)
    as (_ & HT & HN & HM & _ & _ & _ & _ & Hconv & _).
  pose proof (train_shaped cb _ _ _ Hrun (constructor_shaped obs N0 M0 opts)) as Hs.
  destruct (train_run cb _ _ _ Hconv Hrun)
    as ((_ & HT' & HN' & HM' & _) & _ & _ & _ & _ & (f & b & e & Hf & Hb & He & Hfa & Hfg) & _).
  rewrite HT in HT'. rewrite HN in HN'. rewrite HM in HM'.
  unfold shaped, Nn in Hs. rewrite HN', HM' in Hs.
  destruct Hs as (H1 & H2 & H3 & H4 & H5).
  repeat (split; [assumption|]).
  exists (logAlpha f), (gamma e). split; [exact Hfa|]. split; [exact Hfg|].
  apply forward_inv in Hf as (Hok & ->).
  rewrite (backward_eq _ _ Hok) in Hb. injection Hb as <-.
  rewrite (estep_eq _ _ _ (rows_ok_alloc _ Hok)) in He. injection He as <-.
  destruct (logAlpha_T_by_N h') as (Ha1 & Ha2).
  destruct (gamma_T_by_N h' (alpha (forward_formula h'))
              (backward_formula h' (c (forward_formula h')))) as (Hg1 & Hg2).
  unfold Nn in Ha2, Hg2. rewrite HN' in Ha2, Hg2. rewrite HT' in Ha1, Hg1.
  repeat split; assumption.
Qed.

(** X3. When [train] returns, the sequence, N and M are unchanged,
    [iterations] is the number of log-likelihoods recorded, which is at
    most maxIter, is maxIter when [converged] is false, and is at least 2
    when [converged] is true. *)
Theorem train_counts_iterations
    {AR : Arith} (obs : list Z) (N0 M0 : Z) (opts : options) (cb : bool)
    (h' : HMM) (calls : list call) :
  train (constructor obs N0 M0 opts) cb = Some (h', calls) ->
  Obs h' = obs /\ N h' = N0 /\ M h' = M0 /\
  iterations h' = Z.of_nat (length (logLikeHistory h')) /\
  (length (logLikeHistory h') <= Z.to_nat (or_elseZ (opt_maxIter opts) 100))%nat /\
  (converged h' = false ->
   length (logLikeHistory h') = Z.to_nat (or_elseZ (opt_maxIter opts) 100)) /\
  (converged h' = true -> (2 <= length (logLikeHistory h'))%nat).
Proof.
  intros Hrun.
  destruct (constructor_fields obs N0 M0 opts)
    as (HO & _ & HN & HM & Hmax & _ & Hhist & Hits & Hconv & _).
  destruct (train_run cb _ _ _ Hconv Hrun) as ((HO' & _ & HN' & HM' & _) & _).
  destruct (train_counts cb _ _ _ Hconv Hrun) as (lls & Hh & Hi & Hlen & Hcap & Htwo).
  rewrite Hhist in Hh. simpl in Hh. rewrite Hits in Hi. rewrite Hmax in Hlen, Hcap.
  rewrite Hh. split; [congruence|]. split; [congruence|]. split; [congruence|].
  split; [now destruct lls|]. repeat split; assumption.
Qed.

(* ================================================================== *)
(** ** Special values in logSumExp, and an epsilon that is not positive *)

Section LogSumExpSpecial.
Import XR.
Local Existing Instance XR.arith.
Local Open Scope num_scope.

Lemma logSumExp_unfold (arr : list xreal) :
  logSumExp arr
  = if negb (xfinite (fold_left pick arr NInf)) then NInf
    else xadd (fold_left pick arr NInf)
           (xlog (fold_left (fun s x => xadd s (xexp (xsub x (fold_left pick arr NInf))))
                    arr (Fin 0))).
Proof. reflexivity. Qed.

Lemma pick_PInf (arr : list xreal) : fold_left pick arr PInf = PInf.
Proof.
  induction arr as [|x l IH]; [reflexivity|]. simpl.
  replace (pick PInf x) with PInf; [exact IH|]. unfold pick. now destruct x.
Qed.

Lemma max_with_PInf (arr : list xreal) :
  forall acc, acc <> Nan -> In PInf arr -> fold_left pick arr acc = PInf.
Proof.
  induction arr as [|x l IH]; intros acc Hacc Hin; [contradiction|].
  simpl. destruct Hin as [->|Hin].
  - replace (pick acc PInf) with PInf; [apply pick_PInf|].
    unfold pick. destruct acc; try reflexivity. contradiction.
  - apply IH; [|exact Hin]. unfold pick.
    destruct (xgt x acc) eqn:E; [|exact Hacc]. intros ->. destruct acc; discriminate.
Qed.

Lemma max_without_number (arr : list xreal) :
  Forall (fun x => x = Nan \/ x = NInf) arr -> fold_left pick arr NInf = NInf.
Proof.
  induction 1 as [|x l Hx _ IH]; [reflexivity|].
  simpl. replace (pick NInf x) with NInf; [exact IH|].
  destruct Hx as [-> | ->]; reflexivity.
Qed.

Lemma max_is_number (arr : list xreal) :
  forall acc, ~ In PInf arr -> (acc = NInf \/ exists a, acc = Fin a) ->
    (fold_left pick arr acc = NInf \/ exists m, fold_left pick arr acc = Fin m) /\
    ((exists a, acc = Fin a) \/ Exists (fun x => xfinite x = true) arr ->
     exists m, fold_left pick arr acc = Fin m).
Proof.
  induction arr as [|x l IH]; intros acc Hno Hacc.
  - simpl. split; [exact Hacc|]. intros [H|H]; [exact H|inversion H].
  - simpl.
    assert (Hno' : ~ In PInf l) by (intros H; apply Hno; now right).
    assert (Hx : x <> PInf) by (intros ->; apply Hno; now left).
    assert (Hp : pick acc x = NInf \/ exists a, pick acc x = Fin a).
    { unfold pick. destruct (xgt x acc) eqn:E; [|exact Hacc].
      destruct x as [a| | |].
      - right. now exists a.
      - exfalso. now apply Hx.
      - destruct acc; discriminate.
      - destruct acc; discriminate. }
    destruct (IH (pick acc x) Hno' Hp) as [H1 H2]. split; [exact H1|].
    intros Hsome. apply H2.
    destruct Hsome as [(a & ->)|Hex].
    + left. unfold pick. destruct (xgt x (Fin a)) eqn:E; [|now exists a].
      destruct x as [b| | |]; try discriminate; [now exists b|].
      exfalso. now apply Hx.
    + inversion Hex as [? ? Hfin|? ? Hex']; subst; [|now right].
      left. destruct x as [b| | |]; try discriminate.
      unfold pick. destruct (xgt (Fin b) acc) eqn:E; [now exists b|].
      destruct Hacc as [->|Ha]; [discriminate|exact Ha].
Qed.

Lemma sum_from_Nan (f : xreal -> xreal) (arr : list xreal) :
  fold_left (fun s x => xadd s (f x)) arr Nan = Nan.
Proof. induction arr as [|x l IH]; [reflexivity|]. simpl. exact IH. Qed.

Lemma xadd_Nan_r (s : xreal) : xadd s Nan = Nan.
Proof. now destruct s. Qed.

Lemma sum_with_Nan (m : xreal) (arr : list xreal) :
  forall s, In Nan arr ->
    fold_left (fun s x => xadd s (xexp (xsub x m))) arr s = Nan.
Proof.
  induction arr as [|x l IH]; intros s Hin; [contradiction|].
  simpl. destruct Hin as [->|Hin]; [|now apply IH].
  replace (xsub Nan m) with Nan by now destruct m.
  simpl xexp. rewrite xadd_Nan_r. apply sum_from_Nan.
Qed.

Lemma logSumExp_PInf (arr : list xreal) : In PInf arr -> logSumExp arr = NInf.
Proof.
  intros Hin. rewrite logSumExp_unfold.
  rewrite (max_with_PInf arr NInf) by (discriminate || exact Hin). reflexivity.
Qed.

Lemma logSumExp_no_number (arr : list xreal) :
  Forall (fun x => x = Nan \/ x = NInf) arr -> logSumExp arr = NInf.
Proof.
  intros H. rewrite logSumExp_unfold. now rewrite (max_without_number arr H).
Qed.

Lemma logSumExp_Nan (arr : list xreal) :
  In Nan arr -> ~ In PInf arr -> Exists (fun x => xfinite x = true) arr ->
  logSumExp arr = Nan.
Proof.
  intros Hnan Hno Hex. rewrite logSumExp_unfold.
  destruct (max_is_number arr NInf Hno (or_introl eq_refl)) as [_ H].
  destruct (H (or_intror Hex)) as (m & ->). simpl negb. cbv iota.
  rewrite (sum_with_Nan (Fin m) arr _ Hnan). reflexivity.
Qed.

End LogSumExpSpecial.

(** X8. With the IEEE special values: [logSumExp] returns [-Infinity]
    when the input holds [+Infinity], and when it holds no finite number
    and no [+Infinity] (an input of [NaN] only included); it returns [NaN]
    when the input holds [NaN], a finite number and no [+Infinity]. *)
Theorem logSumExp_special_values :
  (forall arr : list XR.xreal, In XR.PInf arr -> @logSumExp XR.arith arr = XR.NInf) /\
  (forall arr : list XR.xreal,
     Forall (fun x => x = XR.Nan \/ x = XR.NInf) arr ->
     @logSumExp XR.arith arr = XR.NInf) /\
  (forall arr : list XR.xreal,
     In XR.Nan arr -> ~ In XR.PInf arr ->
     Exists (fun x => XR.xfinite x = true) arr ->
     @logSumExp XR.arith arr = XR.Nan).
Proof.
  split; [|split].
  - apply logSumExp_PInf.
  - apply logSumExp_no_number.
  - apply logSumExp_Nan.
Qed.

Section NoConvergence.
Import XR.
Local Existing Instance XR.arith.
Local Open Scope num_scope.

Lemma abs_not_below (d : xreal) (e : R) : (e <= 0)%R -> (Math_abs d <? Fin e) = false.
Proof.
  intros He. cbn [Math_abs nlt arith]. destruct d as [a| | |]; simpl; try reflexivity.
  apply Rgtb_false. pose proof (Rabs_pos a). lra.
Qed.

Lemma never_fires (iter : nat) (prev ll : xreal) (e : R) :
  (e <= 0)%R -> fires iter prev ll (Fin e) = false.
Proof.
  intros He. unfold fires. rewrite abs_not_below by exact He. apply andb_false_r.
Qed.

Lemma train_never_converges (cb : bool) (h h' : HMM) (calls : list call) (e : R) :
  converged h = false -> epsilon h = Fin e -> (e <= 0)%R ->
  train h cb = Some (h', calls) ->
  converged h' = false /\
  exists lls,
    logLikeHistory h' = logLikeHistory h ++ lls /\
    length lls = Z.to_nat (maxIter h).
Proof.
  intros Hconv Heps He Hrun.
  destruct (train_run cb h h' calls Hconv Hrun) as (_ & lls & Hh & _ & _ & _ & Hrest).
  destruct (converged h').
  - destruct Hrest as (lls0 & ll & _ & _ & _ & Hf & _).
    rewrite Heps, never_fires in Hf by exact He. discriminate.
  - split; [reflexivity|]. exists lls. split; [exact Hh|apply Hrest].
Qed.

(** X4. In exact arithmetic, with a negative epsilon (which [||] keeps)
    the convergence test never passes: training runs maxIter iterations
    and leaves [converged] false. *)
Theorem negative_epsilon_never_converges
    (obs : list Z) (N0 M0 : Z) (mi sd : option Z) (e : R) (cb : bool)
    (h' : HMM) (calls : list call) :
  (e < 0)%R ->
  train (constructor obs N0 M0
           {| opt_maxIter := mi; opt_epsilon := Some (Fin e); opt_seed := sd |}) cb
  = Some (h', calls) ->
  converged h' = false /\
  length (logLikeHistory h') = Z.to_nat (or_elseZ mi 100) /\
  iterations h' = Z.of_nat (Z.to_nat (or_elseZ mi 100)).
Proof.
  intros He Hrun.
  set (opts := @Build_options arith mi (Some (Fin e)) sd) in *.
  destruct (constructor_fields obs N0 M0 opts)
    as (_ & _ & _ & _ & Hmax & Heps & Hhist & Hits0 & Hconv & _).
  assert (Heps' : epsilon (constructor obs N0 M0 opts) = Fin e).
  { rewrite Heps. unfold opts. cbn [opt_epsilon or_else ToBoolean XR.arith XR.xtruthy].
    rewrite Reqb_false by lra. reflexivity. }
  destruct (train_never_converges cb _ _ _ e Hconv Heps' (Rlt_le _ _ He) Hrun)
    as (Hc & lls & Hh & Hlen).
  destruct (@train_counts arith cb _ h' calls Hconv Hrun) as (lls' & Hh' & Hits & _).
  rewrite Hh in Hh'. apply app_inv_head in Hh'. subst lls'.
  rewrite Hhist in Hh. simpl in Hh. rewrite Hmax in Hlen. unfold opts in Hlen.
  cbn [opt_maxIter] in Hlen. rewrite Hits0 in Hits.
  split; [exact Hc|]. rewrite Hh. split; [exact Hlen|].
  rewrite Hits, <- Hlen. now destruct lls.
Qed.

End NoConvergence.

(* ================================================================== *)
(** ** The artifacts kept for the charts *)

Section ChartArtifacts.
Import XR.
Local Existing Instance XR.arith.
Local Open Scope num_scope.

Lemma xlog_Fin (a : R) : (0 < a)%R -> Math_log (Fin a) = Fin (ln a).
Proof. intros H. cbn [Math_log arith xlog]. now rewrite Rgtb_true. Qed.

Lemma floor_pos_Fin (a : R) : (0 < a)%R -> floor_pos (Fin a) = Fin a.
Proof. intros H. apply floor_pos_Pos. now exists a. Qed.

Lemma logAlpha_row_exact (raw : row) :
  Forall Pos raw -> raw <> [] ->
  logAlpha_row (scaled raw) (scale (sum raw)) = map (fun x => Fin (ln (toR x))) raw.
Proof.
  intros Hpos Hne.
  destruct (scaled_Pos raw Hpos Hne) as (s & _ & Hs & Hscale & Hscaled & _).
  rewrite Hscale, Hscaled. unfold logAlpha_row. rewrite map_map.
  assert (Hinv : (0 < 1 / s)%R) by (apply Rdiv_lt_0_compat; lra).
  rewrite (floor_pos_Fin _ Hinv), (xlog_Fin _ Hinv).
  apply map_ext_in. intros x Hx.
  rewrite Forall_forall in Hpos. destruct (Hpos x Hx) as (a & -> & Ha).
  rewrite xdiv_Fin by lra.
  assert (Hq : (0 < a / s)%R) by (apply Rdiv_lt_0_compat; lra).
  rewrite (floor_pos_Fin _ Hq), (xlog_Fin _ Hq).
  cbn [nadd nneg arith xadd xneg toR]. f_equal.
  unfold Rdiv. rewrite Rmult_1_l.
  rewrite ln_mult by (try apply Rinv_0_lt_compat; lra). lra.
Qed.

Lemma logAlpha_exact (h : HMM) (t : nat) :
  Usable h -> (t < T h)%nat ->
  nth t (logAlpha (forward_formula h)) []
  = map (fun x => Fin (ln (toR x))) (raw_at h t).
Proof.
  intros Hu Ht. cbn [logAlpha forward_formula].
  rewrite (nth_map_seq _ _ _ _ Ht). unfold alpha_at, c_at.
  apply logAlpha_row_exact; [now apply raw_at_Pos | now apply raw_at_nonempty].
Qed.

(** X11. In exact arithmetic, [logAlpha[t][i]] is the logarithm of entry
    [i] of the forward row at [t] as it is before that row is scaled: the
    row computed from the scaled row of [t - 1], not the row of the
    recursion without scaling. *)
Theorem logAlpha_is_log_of_row_before_scaling (h : HMM) :
  Usable h -> (1 <= T h)%nat ->
  exists f,
    _forward h = Some f /\
    forall t, (t < T h)%nat ->
      Forall Pos (forward_raw h (alpha f) t) /\
      nth t (logAlpha f) []
      = map (fun x => Fin (ln (toR x))) (forward_raw h (alpha f) t).
Proof.
  intros Hu HT. exists (forward_formula h).
  split; [apply forward_eq; now apply Usable_rows_ok|].
  intros t Ht. rewrite (forward_raw_formula h t Ht).
  split; [now apply raw_at_Pos | now apply logAlpha_exact].
Qed.

Lemma logAlpha_finite (h : HMM) (t i : nat) :
  Usable h -> (t < T h)%nat -> (i < Nn h)%nat ->
  isFinite (get2 (logAlpha (forward_formula h)) t i) = true.
Proof.
  intros Hu Ht Hi. unfold get2. rewrite (logAlpha_exact h t Hu Ht).
  apply (get_Forall (fun x => xfinite x = true)).
  - apply Forall_forall. intros x Hx. apply in_map_iff in Hx as (y & <- & _). reflexivity.
  - eapply Nat.lt_le_trans; [exact Hi|]. rewrite length_map.
    apply Nat.eq_le_incl. symmetry. exact (raw_at_length h t).
Qed.

(** X15. In exact arithmetic, for N >= 1, M >= 1 and a sequence of at
    least two symbols one of which is a symbol of the alphabet, [train]
    returns with [finalGamma] holding T rows of N positive numbers that
    sum to 1 and [finalAlpha] holding T rows of N finite numbers. *)
Theorem final_artifacts_after_training
    (obs : list Z) (N0 M0 : Z) (opts : options) (cb : bool) :
  (1 <= N0)%Z -> (1 <= M0)%Z -> (2 <= length obs)%nat ->
  (exists t o, nth_error obs t = Some o /\ (0 <= o < M0)%Z) ->
  exists h' calls fa fg,
    train (constructor obs N0 M0 opts) cb = Some (h', calls) /\
    finalAlpha h' = Some fa /\ finalGamma h' = Some fg /\
    length fa = length obs /\ length fg = length obs /\
    (forall t, (t < length obs)%nat ->
       length (nth t fg []) = Z.to_nat N0 /\
       Forall Pos (nth t fg []) /\
       sum (nth t fg []) = Fin 1) /\
    (forall t i, (t < length obs)%nat -> (i < Z.to_nat N0)%nat ->
       isFinite (get2 fa t i) = true).
Proof.
  intros HN HM HT Hsym.
  destruct (constructor_Model obs N0 M0 opts HN HM) as [Hm _].
  destruct (constructor_fields obs N0 M0 opts)
    as (HO & HTf & HNf & HMf & _ & _ & _ & _ & Hconv & _).
  assert (Htr : trainable (constructor obs N0 M0 opts)).
  { unfold trainable. rewrite HO, HTf, HMf. repeat split; assumption. }
  destruct (train_Model cb _ Hm Htr) as (h' & calls & Hrun & Hm').
  destruct (train_run cb _ _ _ Hconv Hrun)
    as ((_ & HT' & HN' & _) & _ & _ & _ & _ & (f & b & e & Hf & Hb & He & Hfa & Hfg) & _).
  rewrite HTf in HT'. rewrite HNf in HN'.
  apply forward_inv in Hf as (Hok & ->).
  rewrite (backward_eq _ _ Hok) in Hb. injection Hb as <-.
  rewrite (estep_eq _ _ _ (rows_ok_alloc _ Hok)) in He. injection He as <-.
  pose proof (Model_Usable _ Hm') as Hu.
  destruct (passes_PosOccupancy h' Hu) as (Hg & _).
  exists h', calls, (logAlpha (forward_formula h')),
    (gamma (estep_formula h' (alpha (forward_formula h'))
              (backward_formula h' (c (forward_formula h'))))).
  split; [exact Hrun|]. split; [exact Hfa|]. split; [exact Hfg|].
  assert (HNn : Nn h' = Z.to_nat N0) by (unfold Nn; now rewrite HN').
  split; [|split; [|split]].
  - cbn [logAlpha forward_formula]. now rewrite length_map, length_seq.
  - cbn [gamma estep_formula]. now rewrite length_map, length_seq.
  - intros t Ht. rewrite <- HNn. apply Hg. now rewrite HT'.
  - intros t i Ht Hi. apply logAlpha_finite; [exact Hu | now rewrite HT' | now rewrite HNn].
Qed.

End ChartArtifacts.

Lemma logAlpha_is_log_of_row_before_scaling_witness :
  let h := @constructor XR.arith [0; 1; 0]%Z 2 2 no_options in
  exists f,
    _forward h = Some f /\
    forall t, (t < T h)%nat ->
      Forall Pos (forward_raw h (alpha f) t) /\
      nth t (logAlpha f) []
      = map (fun x => XR.Fin (ln (XR.toR x))) (forward_raw h (alpha f) t).
Proof.
  apply (logAlpha_is_log_of_row_before_scaling
           (@constructor XR.arith [0; 1; 0]%Z 2 2 no_options)).
  - exact constructor_Usable.
  - apply Nat.leb_le. reflexivity.
Defined.

Lemma final_artifacts_after_training_witness :
  exists h' calls fa fg,
    train (@constructor XR.arith [0; 1; 0]%Z 2 2 no_options) true = Some (h', calls) /\
    finalAlpha h' = Some fa /\ finalGamma h' = Some fg /\
    length fa = 3%nat /\ length fg = 3%nat.
Proof.
  destruct (final_artifacts_after_training [0; 1; 0]%Z 2 2 no_options true)
    as (h' & calls & fa & fg & Hrun & Hfa & Hfg & Hla & Hlg & _);
    [lia | lia | simpl; lia | |].
  - exists 0%nat, 0%Z. split; [reflexivity | lia].
  - exists h', calls, fa, fg. repeat split; assumption.
Defined.

(* ================================================================== *)
(** ** Sums of real numbers *)

(** Sums of reals over a list of indices. *)
Section RealSums.

Lemma Rsum_nil : Rsum [] = 0%R.
Proof. reflexivity. Qed.

Lemma Rsum_map_ext {X : Type} (f g : X -> R) (l : list X) :
  (forall x, In x l -> f x = g x) -> Rsum (map f l) = Rsum (map g l).
Proof. intros H. f_equal. now apply map_ext_in. Qed.

Lemma Rsum_map_le {X : Type} (f g : X -> R) (l : list X) :
  (forall x, In x l -> (f x <= g x)%R) -> (Rsum (map f l) <= Rsum (map g l))%R.
Proof.
  induction l as [|x l IH]; intros H; simpl.
  - rewrite Rsum_nil. lra.
  - rewrite !Rsum_cons. pose proof (H x (or_introl eq_refl)).
    assert (Rsum (map f l) <= Rsum (map g l))%R by (apply IH; intros; apply H; now right).
    lra.
Qed.

Lemma Rsum_map_scal {X : Type} (k : R) (f : X -> R) (l : list X) :
  Rsum (map (fun x => k * f x)%R l) = (k * Rsum (map f l))%R.
Proof.
  induction l as [|x l IH]; simpl.
  - rewrite Rsum_nil. lra.
  - rewrite !Rsum_cons, IH. lra.
Qed.

Lemma Rsum_map_add {X : Type} (f g : X -> R) (l : list X) :
  Rsum (map (fun x => f x + g x)%R l) = (Rsum (map f l) + Rsum (map g l))%R.
Proof.
  induction l as [|x l IH]; simpl.
  - rewrite !Rsum_nil. lra.
  - rewrite !Rsum_cons, IH. lra.
Qed.

Lemma Rsum_map_zero {X : Type} (l : list X) : Rsum (map (fun _ => 0%R) l) = 0%R.
Proof.
  induction l as [|x l IH]; simpl; [apply Rsum_nil|]. rewrite Rsum_cons, IH. lra.
Qed.

Lemma Rsum_exchange {X Y : Type} (f : X -> Y -> R) (l1 : list X) (l2 : list Y) :
  Rsum (map (fun x => Rsum (map (fun y => f x y) l2)) l1)
  = Rsum (map (fun y => Rsum (map (fun x => f x y) l1)) l2).
Proof.
  induction l1 as [|x l1 IH]; simpl.
  - rewrite Rsum_nil. symmetry. apply Rsum_map_zero.
  - rewrite Rsum_cons, IH.
    rewrite <- Rsum_map_add. apply Rsum_map_ext. intros y _. now rewrite Rsum_cons.
Qed.

Lemma Rsum_map_nonneg {X : Type} (f : X -> R) (l : list X) :
  (forall x, In x l -> (0 <= f x)%R) -> (0 <= Rsum (map f l))%R.
Proof.
  intros H. apply Rsum_nonneg. apply Forall_forall. intros a Ha.
  apply in_map_iff in Ha as (x & <- & Hx). now apply H.
Qed.

Lemma Rsum_ge_each (l : list R) (a : R) :
  Forall (fun x => 0 <= x)%R l -> In a l -> (a <= Rsum l)%R.
Proof.
  induction 1 as [|x l Hx Hl IH]; intros Hin; [contradiction|].
  rewrite Rsum_cons. pose proof (Rsum_nonneg l Hl).
  destruct Hin as [->|Hin]; [lra|]. specialize (IH Hin). lra.
Qed.

Lemma map_seq_nth {X Y : Type} (g : X -> Y) (l : list X) (d : X) :
  map (fun i => g (nth i l d)) (seq 0 (length l)) = map g l.
Proof.
  induction l as [|x l IH]; [reflexivity|].
  simpl. f_equal. rewrite <- seq_shift, map_map. exact IH.
Qed.

End RealSums.

Section RealView.
Import XR.
Local Existing Instance XR.arith.
Local Open Scope num_scope.


Lemma Pos_real x : Pos x -> real x.
Proof. intros (a & -> & _). now exists a. Qed.

Lemma NonNeg_real x : NonNeg x -> real x.
Proof. intros (a & -> & _). now exists a. Qed.

Lemma Pos_toR x : Pos x -> x = Fin (toR x) /\ (0 < toR x)%R.
Proof. intros (a & -> & Ha). now split. Qed.

Lemma NonNeg_toR x : NonNeg x -> x = Fin (toR x) /\ (0 <= toR x)%R.
Proof. intros (a & -> & Ha). now split. Qed.

Lemma real_row (r : list xreal) : Forall real r -> r = map Fin (map toR r).
Proof.
  induction 1 as [|x l (a & ->) _ IH]; [reflexivity|]. simpl. now rewrite <- IH.
Qed.

Lemma sum_toR (r : list xreal) : Forall real r -> sum r = Fin (Rsum (map toR r)).
Proof. intros H. rewrite (real_row r H) at 1. apply sum_Fin. Qed.

Lemma sum_over_toR (n : nat) (f : nat -> xreal) :
  (forall i, (i < n)%nat -> real (f i)) ->
  sum_over n f = Fin (Rsum (map (fun i => toR (f i)) (seq 0 n))).
Proof.
  intros H. unfold sum_over. rewrite sum_toR.
  - now rewrite map_map.
  - apply Forall_forall. intros x Hx. apply in_map_iff in Hx as (i & <- & Hi).
    apply in_seq in Hi. apply H. lia.
Qed.

Lemma get_toR (r : list xreal) (n : nat) :
  length r = n ->
  Rsum (map (fun i => toR (get r i)) (seq 0 n)) = Rsum (map toR r).
Proof. intros <-. unfold get. now rewrite (map_seq_nth toR r). Qed.

(** The entries of a row of non-negative numbers that sums to 1 are at
    most 1. *)
Lemma stochastic_row_le_1 (r : list xreal) (x : xreal) :
  Forall NonNeg r -> sum r = Fin 1 -> In x r ->
  exists a, x = Fin a /\ (0 <= a <= 1)%R.
Proof.
  intros Hr Hs Hx.
  destruct (NonNeg_row r Hr) as (l & -> & Hl).
  rewrite sum_Fin in Hs. injection Hs as Hs.
  apply in_map_iff in Hx as (a & <- & Ha). exists a. split; [reflexivity|].
  rewrite Forall_forall in Hl. split; [now apply Hl|].
  rewrite <- Hs. apply Rsum_ge_each; [now apply Forall_forall|exact Ha].
Qed.

Lemma lit_1e_300_le_1 : exists a, lit_1e_300 = Fin a /\ (0 < a <= 1)%R.
Proof.
  exists (/ 10 ^ 300)%R. split; [reflexivity|].
  assert (H : (1 <= 10 ^ 300)%R) by (apply pow_R1_Rle; lra).
  split; [apply Rinv_0_lt_compat; lra|].
  rewrite <- Rinv_1. apply Rinv_le_contravar; lra.
Qed.

Lemma emit_le_1 (h : HMM) (j t : nat) :
  Forall (Forall NonNeg) (B h) ->
  Forall (fun r : row => sum r = Fin 1) (B h) ->
  exists e, emit h j t = Fin e /\ (0 < e <= 1)%R.
Proof.
  intros HB Hsum.
  destruct (emit_Pos h j t HB) as (e & He & Hpos). exists e. split; [exact He|].
  split; [exact Hpos|].
  revert He. unfold emit.
  destruct (nth_error (Obs h) t) as [o|];
    [|cbn [or_else]; destruct lit_1e_300_le_1 as (a & -> & Ha); intros E; injection E as <-; lra].
  unfold index. destruct (o <? 0)%Z;
    [cbn [or_else]; destruct lit_1e_300_le_1 as (a & -> & Ha); intros E; injection E as <-; lra|].
  destruct (nth_error (nth j (B h) []) (Z.to_nat o)) as [v|] eqn:Ev;
    [|cbn [or_else]; destruct lit_1e_300_le_1 as (a & -> & Ha); intros E; injection E as <-; lra].
  cbn [or_else]. destruct (ToBoolean v);
    [|destruct lit_1e_300_le_1 as (a & -> & Ha); intros E; injection E as <-; lra].
  intros ->. apply nth_error_In in Ev.
  destruct (Nat.lt_ge_cases j (length (B h))) as [Hj|Hj].
  - assert (Hin : In (nth j (B h) []) (B h)) by now apply nth_In.
    rewrite Forall_forall in HB, Hsum.
    destruct (stochastic_row_le_1 _ _ (HB _ Hin) (Hsum _ Hin) Ev) as (a & Ea & Ha).
    injection Ea as <-. lra.
  - rewrite nth_overflow in Ev by exact Hj. contradiction.
Qed.

End RealView.

(* ================================================================== *)
(** ** The log-likelihood is never positive *)

Section LikelihoodBound.
Import XR.
Local Existing Instance XR.arith.
Local Open Scope num_scope.

Lemma row_total (r : list xreal) (n : nat) :
  length r = n -> Forall real r -> sum r = Fin 1 ->
  Rsum (map (fun i => toR (get r i)) (seq 0 n)) = 1%R.
Proof.
  intros Hlen Hr Hs. rewrite (get_toR r n Hlen).
  rewrite (sum_toR r Hr) in Hs. now injection Hs.
Qed.

Lemma Forall_Pos_real (r : list xreal) : Forall Pos r -> Forall real r.
Proof. intros H. eapply Forall_impl; [|exact H]. apply Pos_real. Qed.

Lemma A_row_total (h : HMM) (i : nat) :
  Model h -> (i < Nn h)%nat ->
  Rsum (map (fun j => toR (get2 (A h) i j)) (seq 0 (Nn h))) = 1%R.
Proof.
  intros ((_ & _ & _ & HlA & HA & _) & (_ & HsA & _) & _) Hi.
  assert (Hin : In (nth i (A h) []) (A h)) by (apply nth_In; now rewrite HlA).
  rewrite Forall_forall in HA, HsA. destruct (HA _ Hin) as [Hlen Hpos].
  unfold get2. apply row_total; [exact Hlen | now apply Forall_Pos_real | now apply HsA].
Qed.

(** A row of weights that sums to 1, each weight multiplied by an emission
    probability, sums to at most 1. *)
Lemma damped_sum_le (n : nat) (w e : nat -> R) :
  (forall j, (j < n)%nat -> (0 <= w j)%R) ->
  (forall j, (j < n)%nat -> (0 < e j <= 1)%R) ->
  (Rsum (map (fun j => w j * e j)%R (seq 0 n)) <= Rsum (map w (seq 0 n)))%R.
Proof.
  intros Hw He. apply Rsum_map_le. intros j Hj. apply in_seq in Hj.
  specialize (Hw j ltac:(lia)). specialize (He j ltac:(lia)). nra.
Qed.

Lemma raw0_sum_le_1 (h : HMM) :
  Model h -> exists s, sum (alpha_raw0 h) = Fin s /\ (s <= 1)%R.
Proof.
  intros Hm. pose proof Hm as ((Hn & Hlp & Hp & _ & _ & HB) & (Hsp & _ & HsB) & _).
  unfold alpha_raw0.
  assert (Hterm : forall i, (i < Nn h)%nat ->
            get (pi h) i * emit h i 0
            = Fin (toR (get (pi h) i) * toR (emit h i 0))).
  { intros i Hi.
    destruct (get_Forall Pos (pi h) i Hp) as (p & -> & _); [now rewrite Hlp|].
    destruct (emit_le_1 h i 0 HB HsB) as (e & -> & _). reflexivity. }
  change (sum (map (fun i => get (pi h) i * emit h i 0) (seq 0 (Nn h))))
    with (sum_over (Nn h) (fun i => get (pi h) i * emit h i 0)).
  rewrite sum_over_toR by (intros i Hi; rewrite (Hterm i Hi); now eexists).
  eexists. split; [reflexivity|].
  rewrite (Rsum_map_ext _ (fun i => toR (get (pi h) i) * toR (emit h i 0))%R)
    by (intros i Hi; apply in_seq in Hi; rewrite (Hterm i) by lia; reflexivity).
  rewrite <- (row_total (pi h) (Nn h) Hlp (Forall_Pos_real _ Hp) Hsp).
  apply damped_sum_le.
  - intros j Hj. destruct (get_Forall Pos (pi h) j Hp) as (p & -> & Hpos);
      [now rewrite Hlp|]. simpl. lra.
  - intros j Hj. destruct (emit_le_1 h j 0 HB HsB) as (e & -> & He). exact He.
Qed.

Lemma raw_step_sum_le_1 (h : HMM) (prev : row) (t : nat) :
  Model h -> Forall Pos prev -> length prev = Nn h -> sum prev = Fin 1 ->
  exists s, sum (alpha_raw h prev t) = Fin s /\ (s <= 1)%R.
Proof.
  intros Hm Hprev Hlen Hsum.
  pose proof Hm as (Hu & (_ & _ & HsB) & _). pose proof Hu as (_ & _ & _ & _ & _ & HB).
  set (n := Nn h) in *.
  set (q := fun i => toR (@get arith prev i)).
  set (a := fun i j => toR (get2 (A h) i j)).
  set (e := fun j => toR (emit h j t)).
  assert (Hq : forall i, (i < n)%nat -> get prev i = Fin (q i) /\ (0 < q i)%R).
  { intros i Hi. apply Pos_toR. apply get_Forall; [exact Hprev|].
    eapply Nat.lt_le_trans; [exact Hi|]. apply Nat.eq_le_incl. symmetry. exact Hlen. }
  assert (Ha : forall i j, (i < n)%nat -> (j < n)%nat ->
            get2 (A h) i j = Fin (a i j) /\ (0 < a i j)%R).
  { intros i j Hi Hj. apply Pos_toR. now apply get2_A_Pos. }
  assert (He : forall j, emit h j t = Fin (e j) /\ (0 < e j <= 1)%R).
  { intros j. destruct (emit_le_1 h j t HB HsB) as (x & Hx & Hr). unfold e.
    rewrite Hx. now split. }
  assert (Hinner : forall j, (j < n)%nat ->
            sum_over n (fun i => get prev i * get2 (A h) i j)
            = Fin (Rsum (map (fun i => q i * a i j)%R (seq 0 n)))).
  { intros j Hj. rewrite sum_over_toR.
    - f_equal. apply Rsum_map_ext. intros i Hi. apply in_seq in Hi.
      destruct (Hq i ltac:(lia)) as [-> _]. destruct (Ha i j ltac:(lia) Hj) as [-> _].
      reflexivity.
    - intros i Hi. destruct (Hq i Hi) as [-> _]. destruct (Ha i j Hi Hj) as [-> _].
      now eexists. }
  unfold alpha_raw. fold n.
  change (sum (map (fun j => sum_over n (fun i => get prev i * get2 (A h) i j) * emit h j t)
                   (seq 0 n)))
    with (sum_over n (fun j => sum_over n (fun i => get prev i * get2 (A h) i j)
                               * emit h j t)).
  rewrite sum_over_toR
    by (intros j Hj; rewrite (Hinner j Hj); destruct (He j) as [-> _]; now eexists).
  eexists. split; [reflexivity|].
  rewrite (Rsum_map_ext _
             (fun j => Rsum (map (fun i => q i * a i j)%R (seq 0 n)) * e j)%R)
    by (intros j Hj; apply in_seq in Hj; rewrite (Hinner j) by lia;
        destruct (He j) as [-> _]; reflexivity).
  eapply Rle_trans.
  { apply damped_sum_le.
    - intros j Hj. apply Rsum_map_nonneg. intros i Hi. apply in_seq in Hi.
      destruct (Hq i ltac:(lia)) as [_ H1]. destruct (Ha i j ltac:(lia) Hj) as [_ H2]. nra.
    - intros j Hj. apply He. }
  rewrite (Rsum_exchange (fun j i => q i * a i j)%R).
  rewrite (Rsum_map_ext _ q).
  - apply Req_le. unfold q. apply row_total; [exact Hlen | now apply Forall_Pos_real | exact Hsum].
  - intros i Hi. apply in_seq in Hi. rewrite Rsum_map_scal.
    assert (E : Rsum (map (a i) (seq 0 n)) = 1%R)
      by (apply (A_row_total h i Hm); unfold n in *; lia).
    rewrite E. lra.
Qed.

Lemma raw_at_sum_le_1 (h : HMM) (t : nat) :
  Model h -> exists s, sum (raw_at h t) = Fin s /\ (0 < s <= 1)%R.
Proof.
  intros Hm. pose proof (Model_Usable h Hm) as Hu.
  destruct (sum_Pos (raw_at h t) (raw_at_Pos h t Hu) (raw_at_nonempty h t Hu))
    as (s & Hs & Hpos).
  exists s. split; [exact Hs|]. split; [exact Hpos|].
  destruct t as [|t].
  - destruct (raw0_sum_le_1 h Hm) as (s' & Hs' & Hle).
    cbn [raw_at] in Hs. rewrite Hs in Hs'. injection Hs' as <-. exact Hle.
  - destruct (scaled_Pos (raw_at h t) (raw_at_Pos h t Hu) (raw_at_nonempty h t Hu))
      as (s0 & _ & _ & _ & _ & Hp & Hone).
    destruct (raw_step_sum_le_1 h (alpha_at h t) (S t) Hm Hp (alpha_at_length h t) Hone)
      as (s' & Hs' & Hle).
    cbn [raw_at] in Hs. unfold alpha_at in Hs'. unfold alpha_at in Hs.
    rewrite Hs in Hs'. injection Hs' as <-. exact Hle.
Qed.

Lemma c_at_ge_1 (h : HMM) (t : nat) :
  Model h -> exists ct, c_at h t = Fin ct /\ (1 <= ct)%R.
Proof.
  intros Hm. pose proof (Model_Usable h Hm) as Hu.
  destruct (raw_at_sum_le_1 h t Hm) as (s & Hs & Hpos & Hle).
  destruct (scaled_Pos (raw_at h t) (raw_at_Pos h t Hu) (raw_at_nonempty h t Hu))
    as (s' & Hs' & _ & Hscale & _).
  rewrite Hs in Hs'. injection Hs' as <-.
  exists (1 / s)%R. split; [exact Hscale|].
  unfold Rdiv. rewrite Rmult_1_l. rewrite <- Rinv_1.
  apply Rinv_le_contravar; lra.
Qed.

Lemma ln_nonneg (x : R) : (1 <= x)%R -> (0 <= ln x)%R.
Proof.
  intros [H|<-]; [|rewrite ln_1; lra].
  rewrite <- ln_1. left. apply ln_increasing; lra.
Qed.

Lemma logLik_nonpos (h : HMM) :
  Model h -> exists ll, logLik (forward_formula h) = Fin ll /\ (ll <= 0)%R.
Proof.
  intros Hm. pose proof (Model_Usable h Hm) as Hu.
  cbn [logLik forward_formula]. rewrite logLik_of_Pos.
  - eexists. split; [reflexivity|].
    rewrite map_map.
    assert (0 <= Rsum (map (fun t => ln (toR (c_at h t))) (seq 0 (T h))))%R; [|lra].
    apply Rsum_map_nonneg. intros t _.
    destruct (c_at_ge_1 h t Hm) as (ct & -> & Hct). now apply ln_nonneg.
  - apply Forall_forall. intros x Hx. apply in_map_iff in Hx as (t & <- & _).
    now apply c_at_Pos.
Qed.


Lemma em_update_history (h h1 : HMM) (iter : nat) (ll : xreal) :
  Model h -> history_nonpos h ->
  em_update h iter = Some (h1, ll) -> history_nonpos h1.
Proof.
  intros Hm Hh Hup. destruct (@em_update_inv arith h h1 iter ll Hup) as (_ & _ & -> & _).
  unfold history_nonpos. cbn [logLikeHistory set_params].
  apply Forall_app. split; [exact Hh|]. constructor; [|constructor].
  now apply logLik_nonpos.
Qed.

Lemma train_loop_history (cb : bool) (todo iter : nat) (s s' : loop_state) :
  Model (ls_hmm s) -> trainable (ls_hmm s) -> history_nonpos (ls_hmm s) ->
  train_loop cb todo iter s = Some s' -> history_nonpos (ls_hmm s').
Proof.
  revert iter s. induction todo as [|todo IH]; intros iter s Hm Htr Hh Hrun; simpl in Hrun.
  - now inversion Hrun; subst.
  - destruct (train_body cb iter s) as [r|] eqn:Hbody; [|discriminate].
    apply train_body_cases in Hbody as (h1 & ll & Hup & Hcase).
    pose proof (em_update_history _ _ _ _ Hm Hh Hup) as Hh1.
    destruct (em_update_Model _ _ _ _ (Model_Usable _ Hm) Htr Hup) as [Hm1 Htr1].
    destruct (fires iter (ls_prevLL s) ll (epsilon (ls_hmm s))).
    + destruct Hcase as (h2 & Hfin & ->). inversion Hrun; subst s'. cbn [ls_hmm].
      apply final_pass_fields in Hfin as (_ & _ & _ & Hl & _).
      unfold history_nonpos. rewrite Hl. exact Hh1.
    + subst r. eapply IH in Hrun; [exact Hrun | exact Hm1 | exact Htr1 | exact Hh1].
Qed.

(** X10. In exact arithmetic, for [pi], [A] and [B] with rows summing to
    1, every scale factor [c[t]] is at least 1 and the log-likelihood is
    at most 0; and every log-likelihood [train] records on valid input is
    a real number, at most 0. *)
Theorem log_likelihood_never_positive :
  (forall h : HMM,
     Model h -> (1 <= T h)%nat ->
     exists f ll,
       _forward h = Some f /\ logLik f = Fin ll /\ (ll <= 0)%R /\
       forall t, (t < T h)%nat -> exists ct, get (c f) t = Fin ct /\ (1 <= ct)%R) /\
  (forall (obs : list Z) (N0 M0 : Z) (opts : options) (cb : bool),
     (1 <= N0)%Z -> (1 <= M0)%Z -> (2 <= length obs)%nat ->
     (exists t o, nth_error obs t = Some o /\ (0 <= o < M0)%Z) ->
     exists h' calls,
       train (constructor obs N0 M0 opts) cb = Some (h', calls) /\
       Forall (fun x => exists a, x = Fin a /\ (a <= 0)%R) (logLikeHistory h')).
Proof.
  split.
  - intros h Hm HT. destruct (logLik_nonpos h Hm) as (ll & Hll & Hle).
    exists (forward_formula h), ll.
    split; [apply forward_eq; apply Usable_rows_ok; [now apply Model_Usable|exact HT]|].
    split; [exact Hll|]. split; [exact Hle|].
    intros t Ht. cbn [c forward_formula]. rewrite get_map by exact Ht.
    now apply c_at_ge_1.
  - intros obs N0 M0 opts cb HN HM HT Hsym.
    destruct (constructor_Model obs N0 M0 opts HN HM) as [Hm _].
    destruct (constructor_fields obs N0 M0 opts)
      as (HO & HTf & _ & HMf & _ & _ & Hhist & _).
    assert (Htr : trainable (constructor obs N0 M0 opts)).
    { unfold trainable. rewrite HO, HTf, HMf. repeat split; assumption. }
    destruct (train_Model cb _ Hm Htr) as (h' & calls & Hrun & _).
    exists h', calls. split; [exact Hrun|].
    unfold train in Hrun. cbv zeta in Hrun.
    destruct (train_loop cb _ 0 _) as [s|] eqn:Hloop; [|discriminate].
    apply train_loop_history in Hloop; cbn [ls_hmm]; try assumption.
    + destruct (negb (converged (ls_hmm s))).
      * destruct (final_pass (ls_hmm s)) as [h2|] eqn:Hfin; [|discriminate].
        inversion Hrun; subst. apply final_pass_fields in Hfin as (_ & _ & _ & Hl & _).
        rewrite Hl. exact Hloop.
      * inversion Hrun; subst. exact Hloop.
    + unfold history_nonpos. rewrite Hhist. constructor.
Qed.

End LikelihoodBound.

(* ================================================================== *)
(** ** The occupancies of the E-step as real numbers *)

Section RealSums2.

Lemma Rsum_app (l1 l2 : list R) : Rsum (l1 ++ l2) = (Rsum l1 + Rsum l2)%R.
Proof.
  induction l1 as [|x l1 IH]; simpl.
  - rewrite Rsum_nil. lra.
  - rewrite !Rsum_cons, IH. lra.
Qed.

Lemma Rsum_concat (ll : list (list R)) : Rsum (concat ll) = Rsum (map Rsum ll).
Proof.
  induction ll as [|l ll IH]; simpl; [reflexivity|].
  now rewrite Rsum_app, Rsum_cons, IH.
Qed.

Lemma Rsum_map_div {X : Type} (f : X -> R) (s : R) (l : list X) :
  Rsum (map (fun x => f x / s)%R l) = (Rsum (map f l) / s)%R.
Proof.
  unfold Rdiv. rewrite <- (Rmult_comm (/ s)), <- Rsum_map_scal.
  apply Rsum_map_ext. intros x _. lra.
Qed.

End RealSums2.

Section OccupancyConsistency.
Import XR.
Local Existing Instance XR.arith.
Local Open Scope num_scope.

Lemma sum2_toR (m : list (list xreal)) :
  Forall (Forall real) m ->
  sum2 m = Fin (Rsum (map (fun r => Rsum (map toR r)) m)).
Proof.
  intros H. unfold sum2. rewrite sum_toR.
  - f_equal. rewrite concat_map, Rsum_concat, map_map. reflexivity.
  - apply Forall_concat. exact H.
Qed.

Lemma Forall_Forall_Pos_real (m : list (list xreal)) :
  Forall (Forall Pos) m -> Forall (Forall real) m.
Proof. intros H. eapply Forall_impl; [|exact H]. apply Forall_Pos_real. Qed.

(** The quantities of one time step [t] of the E-step, as real numbers. *)
Variable h : HMM.
Hypothesis Hu : Usable h.

Local Abbreviation n := (Nn h).
Local Abbreviation fw := (forward_formula h).
Local Abbreviation bw := (backward_formula h (c (forward_formula h))).

Lemma fw_Pos : PosMatrix h (alpha fw).
Proof. now apply forward_PosMatrix. Qed.

Lemma bw_Pos : PosMatrix h bw.
Proof.
  apply backward_PosMatrix; [exact Hu|]. intros t Ht. now apply forward_c_Pos.
Qed.

Lemma bw_step (t i : nat) :
  (S t < T h)%nat -> (i < n)%nat ->
  toR (get2 bw t i)
  = (Rsum (map (fun j => toR (get2 (A h) i j) * toR (emit h j (t + 1))
                         * toR (get2 bw (t + 1) j))%R (seq 0 n))
     * toR (get (c fw) t))%R.
Proof.
  intros Ht Hi. unfold backward_formula at 1.
  rewrite get2_map by lia. rewrite beta_at_step by exact Ht.
  unfold beta_prev. rewrite get_map by exact Hi.
  assert (Hterm : forall j, (j < n)%nat ->
            get2 (A h) i j * emit h j (t + 1) * get (beta_at h (c fw) (S t)) j
            = Fin (toR (get2 (A h) i j) * toR (emit h j (t + 1))
                   * toR (get2 bw (t + 1) j))).
  { intros j Hj.
    destruct (Pos_toR _ (get2_A_Pos h i j Hu Hi Hj)) as [-> _].
    destruct (Pos_toR _ (emit_Pos h j (t + 1) (proj2 (proj2 (proj2 (proj2 (proj2 Hu)))))))
      as [-> _].
    replace (get (beta_at h (c fw) (S t)) j) with (get2 bw (t + 1) j)
      by (unfold backward_formula; rewrite get2_map by lia;
          now replace (t + 1)%nat with (S t) by lia).
    destruct (Pos_toR _ (bw_Pos (t + 1)%nat j ltac:(lia) Hj)) as [-> _].
    reflexivity. }
  rewrite sum_over_toR by (intros j Hj; rewrite (Hterm j Hj); now eexists).
  rewrite (Rsum_map_ext _
             (fun j => toR (get2 (A h) i j) * toR (emit h j (t + 1))
                       * toR (get2 bw (t + 1) j))%R)
    by (intros j Hj; apply in_seq in Hj; rewrite (Hterm j) by lia; reflexivity).
  destruct (forward_c_Pos h t Hu ltac:(lia)) as (cv & E & _). rewrite E. reflexivity.
Qed.

Local Abbreviation es := (estep_formula h (alpha (forward_formula h))
                            (backward_formula h (c (forward_formula h)))).
Local Abbreviation al t i := (toR (get2 (alpha (forward_formula h)) t i)).
Local Abbreviation be t i := (toR (get2 (backward_formula h (c (forward_formula h))) t i)).
Local Abbreviation tr i j := (toR (get2 (A h) i j)).
Local Abbreviation em j t := (toR (emit h j t)).
Local Abbreviation ct t := (toR (get (c (forward_formula h)) t)).


Lemma gamma_raw_total (t : nat) :
  (t < T h)%nat ->
  sum (gamma_raw h (alpha fw) bw t) = Fin (occupancy_total h t) /\
  (0 < occupancy_total h t)%R.
Proof.
  intros Ht.
  assert (Hterm : forall i, (i < n)%nat ->
            get2 (alpha fw) t i * get2 bw t i = Fin (al t i * be t i)).
  { intros i Hi. destruct (fw_Pos t i Ht Hi) as (x & -> & _).
    destruct (bw_Pos t i Ht Hi) as (y & -> & _). reflexivity. }
  assert (Hsum : sum (gamma_raw h (alpha fw) bw t) = Fin (occupancy_total h t)).
  { unfold gamma_raw.
    change (sum (map (fun i => get2 (alpha fw) t i * get2 bw t i) (seq 0 n)))
      with (sum_over n (fun i => get2 (alpha fw) t i * get2 bw t i)).
    rewrite sum_over_toR by (intros i Hi; rewrite (Hterm i Hi); now eexists).
    f_equal. apply Rsum_map_ext. intros i Hi. apply in_seq in Hi.
    now rewrite (Hterm i) by lia. }
  split; [exact Hsum|].
  destruct (sum_Pos _ (gamma_raw_Pos h _ _ t fw_Pos bw_Pos Ht)
              (gamma_raw_nonempty h _ _ t (proj1 Hu))) as (s & Hs & Hpos).
  rewrite Hsum in Hs. injection Hs as ->. exact Hpos.
Qed.

Lemma gamma_entry (t i : nat) :
  (t < T h)%nat -> (i < n)%nat ->
  get2 (gamma es) t i = Fin (al t i * be t i / occupancy_total h t).
Proof.
  intros Ht Hi. cbn [gamma estep_formula]. rewrite get2_map by exact Ht.
  destruct (gamma_raw_total t Ht) as [Hsum Hpos].
  destruct (normalised_if_pos_Pos _ (gamma_raw_Pos h _ _ t fw_Pos bw_Pos Ht)
              (gamma_raw_nonempty h _ _ t (proj1 Hu))) as (s & Hs & _ & -> & _).
  rewrite Hsum in Hs. injection Hs as <-.
  unfold gamma_raw. rewrite map_map, get_map by exact Hi.
  destruct (fw_Pos t i Ht Hi) as (x & -> & _).
  destruct (bw_Pos t i Ht Hi) as (y & -> & _).
  cbn [nmul arith xmul toR]. apply xdiv_Fin. lra.
Qed.


Lemma xi_raw_entry (t i j : nat) :
  (S t < T h)%nat -> (i < n)%nat -> (j < n)%nat ->
  get2 (alpha fw) t i * get2 (A h) i j * emit h j (t + 1) * get2 bw (t + 1) j
  = Fin (al t i * tr i j * em j (t + 1) * be (t + 1) j).
Proof.
  intros Ht Hi Hj.
  destruct (fw_Pos t i ltac:(lia) Hi) as (x & -> & _).
  destruct (get2_A_Pos h i j Hu Hi Hj) as (y & -> & _).
  destruct (emit_Pos h j (t + 1) (proj2 (proj2 (proj2 (proj2 (proj2 Hu))))))
    as (z & -> & _).
  destruct (bw_Pos (t + 1)%nat j ltac:(lia) Hj) as (w & -> & _).
  reflexivity.
Qed.

Lemma xi_raw_total (t : nat) :
  (S t < T h)%nat ->
  sum2 (xi_raw h (alpha fw) bw t) = Fin (transition_total h t) /\
  (0 < transition_total h t)%R.
Proof.
  intros Ht.
  pose proof (xi_raw_Pos h _ _ t Hu fw_Pos bw_Pos Ht) as Hpos.
  assert (Hsum : sum2 (xi_raw h (alpha fw) bw t) = Fin (transition_total h t)).
  { rewrite sum2_toR by now apply Forall_Forall_Pos_real.
    f_equal. unfold xi_raw, transition_total. rewrite map_map.
    apply Rsum_map_ext. intros i Hi. apply in_seq in Hi. rewrite map_map.
    apply Rsum_map_ext. intros j Hj. apply in_seq in Hj.
    now rewrite xi_raw_entry by lia. }
  split; [exact Hsum|].
  destruct (normalised2_if_pos_Pos _ Hpos (xi_raw_nonempty h _ _ t (proj1 Hu)))
    as (s & Hs & Hs0 & _).
  rewrite Hsum in Hs. injection Hs as ->. exact Hs0.
Qed.

Lemma xi_entry (t i j : nat) :
  (S t < T h)%nat -> (i < n)%nat -> (j < n)%nat ->
  get3 (xi es) t i j
  = Fin (al t i * tr i j * em j (t + 1) * be (t + 1) j / transition_total h t).
Proof.
  intros Ht Hi Hj. unfold get3. cbn [xi estep_formula].
  assert (Ht1 : (t < T h - 1)%nat) by lia.
  rewrite (nth_map_seq _ _ _ _ Ht1).
  destruct (xi_raw_total t Ht) as [Hsum Hpos].
  destruct (normalised2_if_pos_Pos _ (xi_raw_Pos h _ _ t Hu fw_Pos bw_Pos Ht)
              (xi_raw_nonempty h _ _ t (proj1 Hu))) as (s & Hs & _ & -> & _).
  rewrite Hsum in Hs. injection Hs as <-.
  unfold xi_raw. rewrite map_map. rewrite get2_map by exact Hi.
  rewrite map_map, get_map by exact Hj.
  rewrite xi_raw_entry by assumption. apply xdiv_Fin. lra.
Qed.

(** The slice total is the occupancy total over the scale factor. *)
Lemma xi_row_raw (t i : nat) :
  (S t < T h)%nat -> (i < n)%nat ->
  Rsum (map (fun j => al t i * tr i j * em j (t + 1) * be (t + 1) j)%R (seq 0 n))
  = (al t i * be t i / ct t)%R.
Proof.
  intros Ht Hi. rewrite (bw_step t i Ht Hi).
  destruct (forward_c_Pos h t Hu ltac:(lia)) as (cv & E & Hc). rewrite E. cbn [toR].
  rewrite (Rsum_map_ext _
             (fun j => al t i * (tr i j * em j (t + 1) * be (t + 1) j))%R)
    by (intros; lra).
  rewrite Rsum_map_scal. field. lra.
Qed.

Lemma transition_total_eq (t : nat) :
  (S t < T h)%nat -> transition_total h t = (occupancy_total h t / ct t)%R.
Proof.
  intros Ht. unfold transition_total, occupancy_total.
  rewrite <- Rsum_map_div. apply Rsum_map_ext. intros i Hi. apply in_seq in Hi.
  apply xi_row_raw; [exact Ht|lia].
Qed.

Lemma xi_row_sum (t i : nat) :
  (S t < T h)%nat -> (i < n)%nat ->
  sum_over n (fun j => get3 (xi es) t i j) = get2 (gamma es) t i.
Proof.
  intros Ht Hi.
  rewrite sum_over_toR by (intros j Hj; rewrite xi_entry by assumption; now eexists).
  rewrite gamma_entry by (lia || assumption). f_equal.
  rewrite (Rsum_map_ext _
             (fun j => al t i * tr i j * em j (t + 1) * be (t + 1) j / transition_total h t)%R)
    by (intros j Hj; apply in_seq in Hj; rewrite xi_entry by (assumption || lia);
        reflexivity).
  rewrite Rsum_map_div, (xi_row_raw t i Ht Hi), (transition_total_eq t Ht).
  destruct (gamma_raw_total t ltac:(lia)) as [_ Hg].
  destruct (forward_c_Pos h t Hu ltac:(lia)) as (cv & E & Hc). rewrite E. cbn [toR].
  field. split; lra.
Qed.

End OccupancyConsistency.

(* ================================================================== *)
(** ** The M-step without its renormalisation *)

Section RealSums3.

Lemma Rsum_indicator (o : Z) (v : R) (m : nat) :
  (0 <= o < Z.of_nat m)%Z ->
  Rsum (map (fun k => if (o =? Z.of_nat k)%Z then v else 0%R) (seq 0 m)) = v.
Proof.
  revert o. induction m as [|m IH]; intros o Ho; [lia|].
  rewrite seq_S, map_app, Rsum_app. simpl map. rewrite Rsum_cons, Rsum_nil.
  destruct (o =? Z.of_nat m)%Z eqn:E.
  - apply Z.eqb_eq in E.
    rewrite (Rsum_map_ext _ (fun _ => 0%R)).
    + rewrite Rsum_map_zero. lra.
    + intros k Hk. apply in_seq in Hk.
      destruct (o =? Z.of_nat k)%Z eqn:E'; [apply Z.eqb_eq in E'; lia|reflexivity].
  - apply Z.eqb_neq in E. rewrite IH by lia. lra.
Qed.

End RealSums3.

Section Reestimation.
Import XR.
Local Existing Instance XR.arith.
Local Open Scope num_scope.

Lemma normalise_id (r : list xreal) :
  Forall real r -> sum r = Fin 1 -> normalise r = r.
Proof.
  intros Hr Hs. unfold normalise. rewrite Hs.
  replace (@or_num arith (Fin 1) 1) with (Fin 1)
    by (unfold or_num; cbn [ToBoolean arith xtruthy]; now rewrite Reqb_false by lra).
  rewrite <- (map_id r) at 2. apply map_ext_in. intros x Hx.
  rewrite Forall_forall in Hr. destruct (Hr x Hx) as (a & ->).
  rewrite xdiv_Fin by lra. f_equal. lra.
Qed.

Variable h : HMM.
Hypothesis Hu : Usable h.

Local Abbreviation n := (Nn h).
Local Abbreviation es := (estep_formula h (alpha (forward_formula h))
                            (backward_formula h (c (forward_formula h)))).
Local Abbreviation ga t i := (toR (get2 (gamma es) t i)).
Local Abbreviation xr t i j := (toR (get3 (xi es) t i j)).

Lemma gamma_Pos (t i : nat) :
  (t < T h)%nat -> (i < n)%nat ->
  get2 (gamma es) t i = Fin (ga t i) /\ (0 < ga t i)%R.
Proof.
  intros Ht Hi. apply Pos_toR.
  destruct (passes_PosOccupancy h Hu) as (Hg & _).
  destruct (Hg t Ht) as (Hlen & Hpos & _).
  unfold get2. apply get_Forall; [exact Hpos|].
  eapply Nat.lt_le_trans; [exact Hi|]. apply Nat.eq_le_incl. symmetry. exact Hlen.
Qed.

Lemma xi_real (t i j : nat) :
  (S t < T h)%nat -> (i < n)%nat -> (j < n)%nat ->
  get3 (xi es) t i j = Fin (xr t i j).
Proof. intros Ht Hi Hj. now rewrite (xi_entry h Hu t i j Ht Hi Hj). Qed.

Lemma xr_row (t i : nat) :
  (S t < T h)%nat -> (i < n)%nat ->
  Rsum (map (fun j => xr t i j) (seq 0 n)) = ga t i.
Proof.
  intros Ht Hi. pose proof (xi_row_sum h Hu t i Ht Hi) as H.
  rewrite sum_over_toR in H by (intros j Hj; rewrite xi_real by assumption; now eexists).
  destruct (gamma_Pos t i ltac:(lia) Hi) as [E _]. rewrite E in H. now injection H.
Qed.


Lemma visits_eq (upto i : nat) :
  (upto <= T h)%nat -> (i < n)%nat ->
  sum_over upto (fun t => get2 (gamma es) t i) = Fin (visits h upto i).
Proof.
  intros Hup Hi. rewrite sum_over_toR; [reflexivity|].
  intros t Ht. destruct (gamma_Pos t i ltac:(lia) Hi) as [-> _]. now eexists.
Qed.

Lemma visits_pos (upto i : nat) :
  (1 <= upto <= T h)%nat -> (i < n)%nat -> (0 < visits h upto i)%R.
Proof.
  intros Hup Hi. unfold visits. apply Rsum_pos.
  - apply Forall_forall. intros a Ha. apply in_map_iff in Ha as (t & <- & Ht).
    apply in_seq in Ht. apply (gamma_Pos t i); [lia|exact Hi].
  - destruct upto; [lia|]. rewrite seq_S, map_app. simpl. now destruct (map _ _).
Qed.

Lemma A_ratio_eq (i j : nat) :
  (2 <= T h)%nat -> (i < n)%nat -> (j < n)%nat ->
  A_ratio h (gamma es) (xi es) i j
  = Fin (Rsum (map (fun t => xr t i j) (seq 0 (T h - 1))) / visits h (T h - 1) i).
Proof.
  intros HT Hi Hj. unfold A_ratio.
  rewrite (visits_eq (T h - 1) i ltac:(lia) Hi).
  pose proof (visits_pos (T h - 1) i ltac:(lia) Hi) as Hpos.
  rewrite or_num_Pos by now eexists.
  rewrite sum_over_toR
    by (intros t Ht; rewrite xi_real by (assumption || lia); now eexists).
  apply xdiv_Fin. lra.
Qed.

Lemma A_ratio_row_sum (i : nat) :
  (2 <= T h)%nat -> (i < n)%nat ->
  sum (map (A_ratio h (gamma es) (xi es) i) (seq 0 n)) = Fin 1.
Proof.
  intros HT Hi.
  change (sum (map (A_ratio h (gamma es) (xi es) i) (seq 0 n)))
    with (sum_over n (A_ratio h (gamma es) (xi es) i)).
  rewrite sum_over_toR by (intros j Hj; rewrite A_ratio_eq by assumption; now eexists).
  f_equal.
  rewrite (Rsum_map_ext _
             (fun j => Rsum (map (fun t => xr t i j) (seq 0 (T h - 1)))
                       / visits h (T h - 1) i)%R)
    by (intros j Hj; apply in_seq in Hj; rewrite A_ratio_eq by (assumption || lia);
        reflexivity).
  rewrite Rsum_map_div.
  rewrite (Rsum_exchange (fun j t => xr t i j)).
  rewrite (Rsum_map_ext _ (fun t => ga t i))
    by (intros t Ht; apply in_seq in Ht; apply xr_row; [lia|exact Hi]).
  fold (visits h (T h - 1) i).
  pose proof (visits_pos (T h - 1) i ltac:(lia) Hi). field. lra.
Qed.


Lemma count_symbol_from (i k : nat) (ts : list nat) (a : R) :
  (i < n)%nat -> (forall t, In t ts -> (t < T h)%nat) ->
  fold_left (fun num t =>
               if (nth t (Obs h) (-1) =? Z.of_nat k)%Z
               then num + get2 (gamma es) t i else num) ts (Fin a)
  = Fin (a + Rsum (map (fun t => if (nth t (Obs h) (-1) =? Z.of_nat k)%Z
                                  then ga t i else 0%R) ts)).
Proof.
  intros Hi. revert a. induction ts as [|t ts IH]; intros a Hts.
  - simpl. rewrite Rsum_nil. f_equal. lra.
  - cbn [fold_left map]. rewrite Rsum_cons.
    destruct (gamma_Pos t i (Hts t (or_introl eq_refl)) Hi) as [E _].
    destruct (nth t (Obs h) (-1) =? Z.of_nat k)%Z.
    + rewrite E at 1. cbn [nadd arith xadd].
      rewrite IH by (intros; apply Hts; now right). f_equal. lra.
    + rewrite IH by (intros; apply Hts; now right). f_equal. lra.
Qed.

Lemma count_symbol_eq (i k : nat) :
  (i < n)%nat -> count_symbol h (gamma es) i k = Fin (visits_seeing h i k).
Proof.
  intros Hi. unfold count_symbol. change 0 with (Fin 0).
  rewrite count_symbol_from; [|exact Hi|intros t Ht; apply in_seq in Ht; lia].
  unfold visits_seeing. f_equal. lra.
Qed.

Lemma B_ratio_eq (i k : nat) :
  (1 <= T h)%nat -> (i < n)%nat ->
  B_ratio h (gamma es) i k = Fin (visits_seeing h i k / visits h (T h) i).
Proof.
  intros HT Hi. unfold B_ratio.
  rewrite (visits_eq (T h) i ltac:(lia) Hi).
  pose proof (visits_pos (T h) i ltac:(lia) Hi) as Hpos.
  rewrite or_num_Pos by now eexists.
  rewrite count_symbol_eq by exact Hi. apply xdiv_Fin. lra.
Qed.

Lemma B_ratio_row_sum (i : nat) :
  T h = length (Obs h) -> (1 <= T h)%nat ->
  Forall (fun o => 0 <= o < M h)%Z (Obs h) ->
  (i < n)%nat ->
  sum (map (B_ratio h (gamma es) i) (seq 0 (Z.to_nat (M h)))) = Fin 1.
Proof.
  intros HTlen HT Hobs Hi.
  change (sum (map (B_ratio h (gamma es) i) (seq 0 (Z.to_nat (M h)))))
    with (sum_over (Z.to_nat (M h)) (B_ratio h (gamma es) i)).
  rewrite sum_over_toR by (intros k Hk; rewrite B_ratio_eq by assumption; now eexists).
  f_equal.
  rewrite (Rsum_map_ext _ (fun k => visits_seeing h i k / visits h (T h) i)%R)
    by (intros k Hk; rewrite B_ratio_eq by assumption; reflexivity).
  rewrite Rsum_map_div. unfold visits_seeing.
  rewrite (Rsum_exchange
             (fun k t => if (nth t (Obs h) (-1) =? Z.of_nat k)%Z then ga t i else 0%R)).
  rewrite (Rsum_map_ext _ (fun t => ga t i)).
  - fold (visits h (T h) i). pose proof (visits_pos (T h) i ltac:(lia) Hi). field. lra.
  - intros t Ht. apply in_seq in Ht. apply Rsum_indicator.
    rewrite Forall_forall in Hobs.
    assert (Hin : In (nth t (Obs h) (-1)%Z) (Obs h)) by (apply nth_In; lia).
    specialize (Hobs _ Hin). lia.
Qed.

Lemma mstep_plain :
  T h = length (Obs h) -> (2 <= T h)%nat ->
  Forall (fun o => 0 <= o < M h)%Z (Obs h) ->
  mstep_formula h (gamma es) (xi es)
  = {| new_pi := nth 0%nat (gamma es) [];
       new_A := map (fun i => map (A_ratio h (gamma es) (xi es) i) (seq 0 n)) (seq 0 n);
       new_B := map (fun i => map (B_ratio h (gamma es) i) (seq 0 (Z.to_nat (M h))))
                    (seq 0 n) |}.
Proof.
  intros HTlen HT Hobs. unfold mstep_formula. f_equal.
  - destruct (passes_PosOccupancy h Hu) as (Hg & _).
    destruct (Hg 0%nat ltac:(lia)) as (_ & Hpos & Hsum).
    apply normalise_id; [now apply Forall_Pos_real|exact Hsum].
  - apply map_ext_in. intros i Hi. apply in_seq in Hi.
    apply normalise_id; [|apply A_ratio_row_sum; [exact HT|lia]].
    apply Forall_forall. intros x Hx. apply in_map_iff in Hx as (j & <- & Hj).
    apply in_seq in Hj. rewrite A_ratio_eq by lia. now eexists.
  - apply map_ext_in. intros i Hi. apply in_seq in Hi.
    apply normalise_id; [|apply B_ratio_row_sum; [exact HTlen|lia|exact Hobs|lia]].
    apply Forall_forall. intros x Hx. apply in_map_iff in Hx as (k & <- & Hk).
    rewrite B_ratio_eq by lia. now eexists.
Qed.

End Reestimation.

(* ================================================================== *)
(** ** The E-step and the M-step: the statements *)

Section ReestimationStatements.
Import XR.
Local Existing Instance XR.arith.
Local Open Scope num_scope.

(** X13. In exact arithmetic, for the [gamma] and [xi] the E-step
    computes from the two passes: for every [t < T - 1] and state [i], the
    sum over [j] of [xi[t][i][j]] is [gamma[t][i]]. *)
Theorem transitions_sum_to_occupancy (h : HMM) :
  Usable h -> (1 <= T h)%nat ->
  exists f b e,
    _forward h = Some f /\ _backward h (c f) = Some b /\
    _estep h (alpha f) b = Some e /\
    forall t i, (S t < T h)%nat -> (i < Nn h)%nat ->
      sum_over (Nn h) (fun j => get3 (xi e) t i j) = get2 (gamma e) t i.
Proof.
  intros Hu HT. pose proof (Usable_rows_ok h Hu HT) as Hok.
  exists (forward_formula h), (backward_formula h (c (forward_formula h))),
    (estep_formula h (alpha (forward_formula h))
       (backward_formula h (c (forward_formula h)))).
  split; [now apply forward_eq|]. split; [now apply backward_eq|].
  split; [apply estep_eq; now apply rows_ok_alloc|].
  intros t i Ht Hi. now apply xi_row_sum.
Qed.

(** X14. In exact arithmetic, for a sequence of at least two symbols, all
    in [0, M): an iteration sets [pi] to [gamma[0]], [A[i][j]] to
    [sum_t xi[t][i][j] / sum_t gamma[t][i]] over [t < T - 1], and
    [B[i][k]] to the sum of [gamma[t][i]] over the [t] with [O[t] = k]
    divided by [sum_t gamma[t][i]]; the denominators are positive, so the
    [|| 1e-300] guards are not met, and [normalise] changes nothing. *)
Theorem mstep_is_reestimation (h : HMM) (iter : nat) :
  Usable h -> T h = length (Obs h) -> (2 <= T h)%nat ->
  Forall (fun o => 0 <= o < M h)%Z (Obs h) ->
  exists f b e h1,
    _forward h = Some f /\ _backward h (c f) = Some b /\
    _estep h (alpha f) b = Some e /\
    em_update h iter = Some (h1, logLik f) /\
    pi h1 = nth 0%nat (gamma e) [] /\
    (forall i, (i < Nn h)%nat ->
       Pos (sum_over (T h - 1) (fun t => get2 (gamma e) t i)) /\
       Pos (sum_over (T h) (fun t => get2 (gamma e) t i))) /\
    (forall i j, (i < Nn h)%nat -> (j < Nn h)%nat ->
       get2 (A h1) i j
       = sum_over (T h - 1) (fun t => get3 (xi e) t i j)
         / sum_over (T h - 1) (fun t => get2 (gamma e) t i)) /\
    (forall i k, (i < Nn h)%nat -> (k < Z.to_nat (M h))%nat ->
       get2 (B h1) i k
       = count_symbol h (gamma e) i k
         / sum_over (T h) (fun t => get2 (gamma e) t i)).
Proof.
  intros Hu HTlen HT Hobs.
  assert (HT1 : (1 <= T h)%nat) by lia.
  pose proof (Usable_rows_ok h Hu HT1) as Hok.
  eexists (forward_formula h), (backward_formula h (c (forward_formula h))),
    (estep_formula h (alpha (forward_formula h))
       (backward_formula h (c (forward_formula h)))), _.
  split; [now apply forward_eq|]. split; [now apply backward_eq|].
  split; [apply estep_eq; now apply rows_ok_alloc|].
  split; [apply (em_update_formula h iter Hok HT1)|].
  cbn [pi A B set_params]. rewrite (mstep_plain h Hu HTlen HT Hobs).
  cbn [new_pi new_A new_B].
  assert (Hden : forall i, (i < Nn h)%nat ->
            Pos (sum_over (T h - 1)
                   (fun t => get2 (gamma (estep_formula h (alpha (forward_formula h))
                                (backward_formula h (c (forward_formula h))))) t i)) /\
            Pos (sum_over (T h)
                   (fun t => get2 (gamma (estep_formula h (alpha (forward_formula h))
                                (backward_formula h (c (forward_formula h))))) t i))).
  { intros i Hi. split.
    - rewrite (visits_eq h Hu (T h - 1) i) by (lia || assumption).
      eexists. split; [reflexivity|]. apply visits_pos; [exact Hu|lia|exact Hi].
    - rewrite (visits_eq h Hu (T h) i) by (lia || assumption).
      eexists. split; [reflexivity|]. apply visits_pos; [exact Hu|lia|exact Hi]. }
  split; [reflexivity|]. split; [exact Hden|]. split.
  - intros i j Hi Hj. rewrite get2_map by exact Hi. rewrite get_map by exact Hj.
    unfold A_ratio. now rewrite or_num_Pos by apply (Hden i Hi).
  - intros i k Hi Hk. rewrite get2_map by exact Hi. rewrite get_map by exact Hk.
    unfold B_ratio. now rewrite or_num_Pos by apply (Hden i Hi).
Qed.

End ReestimationStatements.

Lemma transitions_sum_to_occupancy_witness :
  let h := @constructor XR.arith [0; 1; 0]%Z 2 2 no_options in
  exists f b e,
    _forward h = Some f /\ _backward h (c f) = Some b /\
    _estep h (alpha f) b = Some e /\
    forall t i, (S t < T h)%nat -> (i < Nn h)%nat ->
      sum_over (Nn h) (fun j => get3 (xi e) t i j) = get2 (gamma e) t i.
Proof.
  apply (transitions_sum_to_occupancy
           (@constructor XR.arith [0; 1; 0]%Z 2 2 no_options)).
  - exact constructor_Usable.
  - apply Nat.leb_le. reflexivity.
Defined.

Lemma constructor_in_range :
  let h := @constructor XR.arith [0; 1; 0]%Z 2 2 no_options in
  T h = length (Obs h) /\ (2 <= T h)%nat /\ Forall (fun o => 0 <= o < M h)%Z (Obs h).
Proof.
  cbv zeta.
  destruct (@constructor_fields XR.arith [0; 1; 0]%Z 2 2 no_options)
    as (HO & HT & _ & HM & _).
  rewrite HO, HT, HM. split; [reflexivity|]. split; [simpl; lia|].
  repeat constructor; lia.
Qed.

Lemma mstep_is_reestimation_witness :
  let h := @constructor XR.arith [0; 1; 0]%Z 2 2 no_options in
  exists f b e h1,
    _forward h = Some f /\ _backward h (c f) = Some b /\
    _estep h (alpha f) b = Some e /\
    em_update h 0 = Some (h1, logLik f) /\
    pi h1 = nth 0%nat (gamma e) [].
Proof.
  destruct constructor_in_range as (H1 & H2 & H3).
  destruct (mstep_is_reestimation
              (@constructor XR.arith [0; 1; 0]%Z 2 2 no_options) 0
              constructor_Usable H1 H2 H3)
    as (f & b & e & h1 & Hf & Hb & He & Hup & Hpi & _).
  exists f, b, e, h1. repeat split; assumption.
Defined.
(** ** The generator, draw by draw *)

Lemma to_int32_same_mod (x y : Z) :
  Int32.to_int32 x = Int32.to_int32 y <-> (x mod Int32.two32 = y mod Int32.two32)%Z.
Proof.
  split; [|apply Int32.to_int32_eqm].
  intros H. rewrite <- (Int32.to_int32_mod x), <- (Int32.to_int32_mod y). now rewrite H.
Qed.

(** [0x6D2B79F5] is odd, hence invertible modulo 2^32. *)
Lemma increment_invertible (a b : Z) :
  ((a * 1831565813) mod Int32.two32 = (b * 1831565813) mod Int32.two32 <->
   a mod Int32.two32 = b mod Int32.two32)%Z.
Proof.
  unfold Int32.two32. split; intros H.
  - assert (E : forall x, (x mod 4294967296
                 = ((x * 1831565813) mod 4294967296 * 3696798301) mod 4294967296)%Z).
    { intros x. rewrite Z.mul_mod_idemp_l by lia.
      replace (x * 1831565813 * 3696798301)%Z
        with (x + x * 1576479847 * 4294967296)%Z by lia.
      now rewrite Z.mod_add by lia. }
    rewrite (E a), (E b). now rewrite H.
  - rewrite <- (Z.mul_mod_idemp_l a), <- (Z.mul_mod_idemp_l b) by lia. now rewrite H.
Qed.

Lemma nth_draw (n : nat) (s : rng) (d : Z) :
  nth n (fst (draws (S n) s)) d = fst (rand_u32 (s + Z.of_nat n * 1831565813)%Z).
Proof.
  revert s. induction n as [|n IH]; intros s.
  - rewrite draws_S. change (Z.of_nat 0) with 0%Z. rewrite Z.mul_0_l, Z.add_0_r.
    destruct (rand_u32 s) as [u g]. cbv iota. change (draws 0 g) with (@nil Z, g).
    reflexivity.
  - rewrite draws_S. pose proof (rand_u32_state s) as Hs.
    destruct (rand_u32 s) as [u g]. cbn [snd] in Hs. cbv iota.
    specialize (IH g). destruct (draws (S n) g) as [us g'']. cbn [fst nth] in *.
    rewrite IH. f_equal. apply rand_u32_congr. rewrite Hs.
    rewrite <- Zplus_mod_idemp_l, Int32.to_int32_mod, Zplus_mod_idemp_l.
    f_equal. lia.
Qed.

Lemma add_cancel_mod (s a b m : Z) :
  ((s + a) mod m = (s + b) mod m <-> a mod m = b mod m)%Z.
Proof.
  split; intros H.
  - rewrite <- (Z.add_simpl_l s a), <- (Z.add_simpl_l s b).
    rewrite (Zminus_mod (s + a)), (Zminus_mod (s + b)), H. reflexivity.
  - rewrite (Zplus_mod s a), (Zplus_mod s b), H. reflexivity.
Qed.

(** X7. The n-th number drawn from a generator seeded with [s] is the
    output of one call on the state [s + n * 0x6D2B79F5]; the states after
    n + 1 and m + 1 calls are equal exactly when n and m agree modulo
    2^32; and draws whose ranks agree modulo 2^32 are equal: the stream
    has period 2^32. *)
Theorem generator_has_period_two32 (s : Z) (n m : nat) (d : Z) :
  nth n (fst (draws (S n) (mulberry32 s))) d
  = fst (rand_u32 (s + Z.of_nat n * 1831565813)%Z) /\
  (snd (draws (S n) (mulberry32 s)) = snd (draws (S m) (mulberry32 s)) <->
   (Z.of_nat n mod Int32.two32 = Z.of_nat m mod Int32.two32)%Z) /\
  ((Z.of_nat n mod Int32.two32 = Z.of_nat m mod Int32.two32)%Z ->
   nth n (fst (draws (S n) (mulberry32 s))) d
   = nth m (fst (draws (S m) (mulberry32 s))) d).
Proof.
  unfold mulberry32. split; [apply nth_draw|]. split.
  - rewrite !draws_state, to_int32_same_mod, add_cancel_mod, increment_invertible.
    rewrite (Z.add_comm (Z.of_nat n)), (Z.add_comm (Z.of_nat m)).
    apply add_cancel_mod.
  - intros H. rewrite !nth_draw. f_equal. apply rand_u32_congr.
    apply add_cancel_mod. now apply increment_invertible.
Qed.

Lemma generator_has_period_two32_witness :
  nth 0 (fst (draws 1 (mulberry32 7%Z))) 0%Z
  = nth (Z.to_nat 4294967296)
        (fst (draws (S (Z.to_nat 4294967296)) (mulberry32 7%Z))) 0%Z.
Proof.
  apply (proj2 (proj2 (generator_has_period_two32 7%Z 0%nat (Z.to_nat 4294967296) 0%Z))).
  rewrite Z2Nat.id by lia. reflexivity.
Defined.

(* ================================================================== *)
(** ** The initial probabilities are bounded away from zero *)

Section InitialBounds.
Import XR.
Local Existing Instance XR.arith.
Local Open Scope num_scope.


Lemma rand_unit (g : rng) : within 0 1 (fst (rand g)).
Proof.
  unfold rand. pose proof (Int32.to_uint32_range) as Hr.
  unfold rand_u32. cbv zeta. cbn [fst].
  match goal with |- within _ _ (of_Z (Int32.to_uint32 ?x) / _) =>
    specialize (Hr x); generalize dependent (Int32.to_uint32 x) end.
  intros u Hu. unfold Int32.two32 in Hu. cbn [of_Z arith].
  rewrite xdiv_Fin by (apply not_0_IZR; lia).
  exists (IZR u / IZR 4294967296)%R. split; [reflexivity|].
  assert (H0 : (0 <= IZR u)%R) by (apply IZR_le; lia).
  assert (H1 : (IZR u < IZR 4294967296)%R) by (apply IZR_lt; lia).
  assert (H2 : (0 < IZR 4294967296)%R) by (apply IZR_lt; lia).
  split.
  - apply Rmult_le_pos; [exact H0|]. left. now apply Rinv_0_lt_compat.
  - apply (Rmult_lt_reg_r (IZR 4294967296)); [exact H2|].
    unfold Rdiv. rewrite Rmult_assoc, Rinv_l by lra. lra.
Qed.

Lemma draw_plus_floor (g : rng) :
  within (2 / 10) (12 / 10)
    (fst (let '(x, g') := rand g in (x + lit_0_2, g'))).
Proof.
  pose proof (rand_unit g) as (a & E & Ha). destruct (rand g) as [x g'].
  cbn [fst] in *. subst x. exists (a + 2 / 10)%R. split; [reflexivity|lra].
Qed.

Lemma within_row (lo hi : R) (v : list xreal) :
  Forall (within lo hi) v ->
  exists l, v = map Fin l /\ Forall (fun a => lo <= a < hi)%R l.
Proof.
  induction 1 as [|x v (a & -> & Ha) _ (l & -> & Hl)].
  - now exists [].
  - exists (a :: l). split; [reflexivity|now constructor].
Qed.

Lemma Rsum_within (lo hi : R) (l : list R) :
  Forall (fun a => lo <= a < hi)%R l -> l <> [] ->
  (INR (length l) * lo <= Rsum l < INR (length l) * hi)%R.
Proof.
  induction 1 as [|x l Hx Hl IH]; intros Hne; [congruence|].
  rewrite Rsum_cons. change (length (x :: l)) with (S (length l)). rewrite S_INR.
  destruct l as [|y l].
  - rewrite Rsum_nil. simpl. lra.
  - specialize (IH ltac:(discriminate)). lra.
Qed.

Lemma randRow_above_sixth (k : Z) (g : rng) :
  (1 <= k)%Z -> Forall (above_sixth k) (fst (_randRow k g)).
Proof.
  intros Hk. unfold _randRow.
  pose proof (Array_from_rng_length (Z.to_nat k)
    (fun g => let '(x, g') := rand g in (x + lit_0_2, g')) g) as Hlen.
  pose proof (Array_from_rng_Forall (within (2 / 10) (12 / 10)) (Z.to_nat k)
    (fun g => let '(x, g') := rand g in (x + lit_0_2, g')) g draw_plus_floor) as Hw.
  destruct (Array_from_rng _ _ g) as [v g']. cbn [fst] in *.
  destruct (within_row _ _ v Hw) as (l & -> & Hl).
  rewrite length_map in Hlen.
  assert (Hne : l <> []) by (intros ->; simpl in Hlen; lia).
  pose proof (Rsum_within _ _ l Hl Hne) as Hs. rewrite Hlen in Hs.
  rewrite INR_IZR_INZ, Z2Nat.id in Hs by lia.
  assert (Hkr : (1 <= IZR k)%R) by (apply IZR_le; lia).
  rewrite sum_Fin. rewrite map_map. apply Forall_forall. intros x Hx.
  apply in_map_iff in Hx as (a & <- & Ha).
  rewrite Forall_forall in Hl. pose proof (Hl a Ha) as Hr.
  assert (Hsa : (a <= Rsum l)%R).
  { apply Rsum_ge_each; [|exact Ha]. apply Forall_forall. intros b Hb.
    specialize (Hl b Hb). lra. }
  rewrite xdiv_Fin by lra. exists (a / Rsum l)%R. split; [reflexivity|]. split.
  - apply (Rmult_lt_reg_r (Rsum l)); [lra|].
    unfold Rdiv at 2. rewrite Rmult_assoc, Rinv_l, Rmult_1_r by lra.
    apply (Rmult_lt_reg_r (6 * IZR k)); [lra|].
    replace (1 / (6 * IZR k) * Rsum l * (6 * IZR k))%R with (Rsum l) by (field; lra).
    nra.
  - apply (Rmult_le_reg_r (Rsum l)); [lra|].
    unfold Rdiv. rewrite Rmult_assoc, Rinv_l by lra. lra.
Qed.

(** X6. In exact arithmetic, for N >= 1 and M >= 1, every entry of a row
    of length k of the initial [pi], [A] and [B] is above 1 / (6 k) and at
    most 1: each entry is a draw in [0, 1) plus 0.2, divided by the sum
    of k such numbers. *)
Theorem initial_entries_bounded (obs : list Z) (N0 M0 : Z) (opts : options) :
  (1 <= N0)%Z -> (1 <= M0)%Z ->
  let h := constructor obs N0 M0 opts in
  Forall (above_sixth N0) (pi h) /\
  Forall (Forall (above_sixth N0)) (A h) /\
  Forall (Forall (above_sixth M0)) (B h).
Proof.
  intros HN HM. unfold constructor.
  pose proof (randRow_above_sixth N0 (mulberry32 (or_elseZ (opt_seed opts) 42)) HN) as Hp.
  destruct (_randRow N0 _) as [p g1]. cbn [fst] in Hp.
  pose proof (Array_from_rng_Forall_rows (Forall (above_sixth N0)) (Z.to_nat N0) N0 g1
                (fun g => randRow_above_sixth N0 g HN)) as Ha.
  destruct (Array_from_rng _ (_randRow N0) g1) as [a g2]. cbn [fst] in Ha.
  pose proof (Array_from_rng_Forall_rows (Forall (above_sixth M0)) (Z.to_nat N0) M0 g2
                (fun g => randRow_above_sixth M0 g HM)) as Hb.
  destruct (Array_from_rng _ (_randRow M0) g2) as [b g3]. cbn [fst] in Hb.
  cbn [pi A B]. repeat split; assumption.
Qed.

End InitialBounds.

Lemma initial_entries_bounded_witness :
  let h := @constructor XR.arith [0; 1; 0]%Z 2 2 no_options in
  Forall (above_sixth 2) (pi h) /\
  Forall (Forall (above_sixth 2)) (A h) /\
  Forall (Forall (above_sixth 2)) (B h).
Proof.
  apply (initial_entries_bounded [0; 1; 0]%Z 2 2 no_options); lia.
Defined.

(* ================================================================== *)
(** ** The scale factors normalise the occupancies *)

Section ScaleIdentity.
Import XR.
Local Existing Instance XR.arith.
Local Open Scope num_scope.

Variable h : HMM.
Hypothesis Hu : Usable h.

Local Abbreviation n := (Nn h).
Local Abbreviation fw := (forward_formula h).
Local Abbreviation bw := (backward_formula h (c (forward_formula h))).
Local Abbreviation al t i := (toR (get2 (alpha (forward_formula h)) t i)).
Local Abbreviation be t i := (toR (get2 (backward_formula h (c (forward_formula h))) t i)).
Local Abbreviation tr i j := (toR (get2 (A h) i j)).
Local Abbreviation em j t := (toR (emit h j t)).
Local Abbreviation ct t := (toR (get (c (forward_formula h)) t)).
Local Abbreviation rw t i := (toR (get (raw_at h t) i)).

Lemma ct_pos (t : nat) : (t < T h)%nat -> (0 < ct t)%R.
Proof. intros Ht. now destruct (forward_c_Pos h t Hu Ht) as (cv & -> & Hc). Qed.

Lemma alpha_scaled (t i : nat) :
  (t < T h)%nat -> (i < n)%nat -> al t i = (rw t i * ct t)%R.
Proof.
  intros Ht Hi. cbn [alpha c forward_formula].
  rewrite get2_map by exact Ht. rewrite get_map by exact Ht.
  unfold alpha_at, c_at.
  destruct (scaled_Pos (raw_at h t) (raw_at_Pos h t Hu) (raw_at_nonempty h t Hu))
    as (s & _ & Hs & -> & -> & _).
  rewrite <- (map_get_seq (raw_at h t)) at 1. rewrite map_map.
  rewrite raw_at_length, get_map by exact Hi.
  destruct (get_Forall Pos (raw_at h t) i (raw_at_Pos h t Hu)) as (a & -> & _);
    [now rewrite raw_at_length|].
  rewrite xdiv_Fin by lra. cbn [toR]. field. lra.
Qed.

Lemma alpha_total (t : nat) :
  (t < T h)%nat -> Rsum (map (fun i => al t i) (seq 0 n)) = 1%R.
Proof.
  intros Ht. cbn [alpha forward_formula].
  rewrite (Rsum_map_ext _ (fun i => toR (get (alpha_at h t) i)))
    by (intros i _; now rewrite get2_map by exact Ht).
  destruct (scaled_Pos (raw_at h t) (raw_at_Pos h t Hu) (raw_at_nonempty h t Hu))
    as (s & _ & _ & _ & _ & Hp & Hone).
  apply row_total; [exact (alpha_at_length h t) | now apply Forall_Pos_real | exact Hone].
Qed.

Lemma raw_step (t j : nat) :
  (S t < T h)%nat -> (j < n)%nat ->
  rw (S t) j = (Rsum (map (fun i => al t i * tr i j)%R (seq 0 n)) * em j (S t))%R.
Proof.
  intros Ht Hj. cbn [raw_at]. unfold alpha_raw. rewrite get_map by exact Hj.
  change (scaled (raw_at h t)) with (alpha_at h t).
  assert (Hterm : forall i, (i < n)%nat ->
            get (alpha_at h t) i * get2 (A h) i j = Fin (al t i * tr i j)).
  { intros i Hi. cbn [alpha forward_formula]. rewrite get2_map by lia.
    destruct (get_Forall Pos (alpha_at h t) i (alpha_at_Pos h t Hu)) as (x & -> & _);
      [now rewrite alpha_at_length|].
    destruct (get2_A_Pos h i j Hu Hi Hj) as (y & -> & _). reflexivity. }
  rewrite sum_over_toR by (intros i Hi; rewrite (Hterm i Hi); now eexists).
  rewrite (Rsum_map_ext _ (fun i => al t i * tr i j)%R)
    by (intros i Hi; apply in_seq in Hi; rewrite (Hterm i) by lia; reflexivity).
  destruct (emit_Pos h j (S t) (proj2 (proj2 (proj2 (proj2 (proj2 Hu))))))
    as (e & -> & _). reflexivity.
Qed.

Lemma bw_last (i : nat) :
  (1 <= T h)%nat -> (i < n)%nat -> be (T h - 1) i = ct (T h - 1).
Proof.
  intros HT Hi. unfold backward_formula. rewrite get2_map by lia.
  rewrite beta_at_last by lia. unfold beta_last. now rewrite get_map by exact Hi.
Qed.

(** The slice total at [t] is the occupancy total at [t + 1] over the scale
    factor of [t + 1]. *)
Lemma transition_total_next (t : nat) :
  (S t < T h)%nat ->
  transition_total h t = (occupancy_total h (S t) / ct (S t))%R.
Proof.
  intros Ht. unfold transition_total, occupancy_total.
  rewrite (Rsum_exchange
             (fun i j => al t i * tr i j * em j (t + 1) * be (t + 1) j)%R).
  rewrite <- Rsum_map_div. apply Rsum_map_ext. intros j Hj. apply in_seq in Hj.
  rewrite (Rsum_map_ext _
             (fun i => (em j (t + 1) * be (t + 1) j) * (al t i * tr i j))%R)
    by (intros; lra).
  rewrite Rsum_map_scal.
  replace (t + 1)%nat with (S t) by lia.
  rewrite (alpha_scaled (S t) j) by lia. rewrite (raw_step t j) by lia.
  pose proof (ct_pos (S t) Ht). field. lra.
Qed.

Lemma occupancy_total_is_scale (k t : nat) :
  (t + k + 1 = T h)%nat -> occupancy_total h t = ct t.
Proof.
  revert t. induction k as [|k IH]; intros t Ht.
  - unfold occupancy_total.
    rewrite (Rsum_map_ext _ (fun i => ct t * al t i)%R).
    + rewrite Rsum_map_scal, alpha_total by lia. lra.
    + intros i Hi. apply in_seq in Hi.
      replace t with (T h - 1)%nat by lia. rewrite bw_last by lia. lra.
  - assert (Hs : (S t < T h)%nat) by lia.
    pose proof (transition_total_eq h Hu t Hs) as E1.
    pose proof (transition_total_next t Hs) as E2.
    rewrite (IH (S t)) in E2 by lia.
    pose proof (ct_pos t ltac:(lia)) as Hc. pose proof (ct_pos (S t) Hs) as Hc'.
    rewrite E2 in E1.
    replace (ct (S t) / ct (S t))%R with 1%R in E1 by (field; lra).
    apply (Rmult_eq_compat_r (ct t)) in E1.
    unfold Rdiv in E1. rewrite Rmult_assoc, Rinv_l in E1 by lra. lra.
Qed.

Lemma transition_total_is_1 (t : nat) :
  (S t < T h)%nat -> transition_total h t = 1%R.
Proof.
  intros Ht. rewrite (transition_total_eq h Hu t Ht).
  rewrite (occupancy_total_is_scale (T h - 1 - t) t) by lia.
  pose proof (ct_pos t ltac:(lia)). field. lra.
Qed.

End ScaleIdentity.

Section ScaleIdentityStatement.
Import XR.
Local Existing Instance XR.arith.
Local Open Scope num_scope.

(** X12. In exact arithmetic, for the [alpha], [c] and [beta] of the two
    passes: the sum that normalises row [t] of [gamma] is the scale factor
    [c[t]], and the sum that normalises slice [t] of [xi] is 1, so that
    [xi] is left as it was computed. *)
Theorem estep_normalisers (h : HMM) :
  Usable h -> (1 <= T h)%nat ->
  exists f b e,
    _forward h = Some f /\ _backward h (c f) = Some b /\
    _estep h (alpha f) b = Some e /\
    (forall t, (t < T h)%nat -> sum (gamma_raw h (alpha f) b t) = get (c f) t) /\
    (forall t, (S t < T h)%nat ->
       sum2 (xi_raw h (alpha f) b t) = Fin 1 /\
       nth t (xi e) [] = xi_raw h (alpha f) b t).
Proof.
  intros Hu HT. pose proof (Usable_rows_ok h Hu HT) as Hok.
  exists (forward_formula h), (backward_formula h (c (forward_formula h))),
    (estep_formula h (alpha (forward_formula h))
       (backward_formula h (c (forward_formula h)))).
  split; [now apply forward_eq|]. split; [now apply backward_eq|].
  split; [apply estep_eq; now apply rows_ok_alloc|]. split.
  - intros t Ht. destruct (gamma_raw_total h Hu t Ht) as [-> _].
    rewrite (occupancy_total_is_scale h Hu (T h - 1 - t) t) by lia.
    now destruct (forward_c_Pos h t Hu Ht) as (cv & -> & _).
  - intros t Ht. destruct (xi_raw_total h Hu t Ht) as [Hsum _].
    rewrite (transition_total_is_1 h Hu t Ht) in Hsum. split; [exact Hsum|].
    cbn [xi estep_formula].
    assert (Ht1 : (t < T h - 1)%nat) by lia.
    rewrite (nth_map_seq _ _ _ _ Ht1).
    pose proof (xi_raw_Pos h _ _ t Hu (fw_Pos h Hu) (bw_Pos h Hu) Ht) as Hpos.
    destruct (normalised2_if_pos_Pos _ Hpos (xi_raw_nonempty h _ _ t (proj1 Hu)))
      as (s & Hs & _ & -> & _).
    rewrite Hsum in Hs. injection Hs as <-.
    rewrite <- (map_id (xi_raw h _ _ t)) at 2.
    apply map_ext_in. intros r Hr. rewrite <- (map_id r) at 2.
    apply map_ext_in. intros x Hx.
    rewrite Forall_forall in Hpos. specialize (Hpos r Hr).
    rewrite Forall_forall in Hpos. destruct (Hpos x Hx) as (a & -> & _).
    rewrite xdiv_Fin by lra. f_equal. lra.
Qed.

End ScaleIdentityStatement.

Lemma estep_normalisers_witness :
  let h := @constructor XR.arith [0; 1; 0]%Z 2 2 no_options in
  exists f b e,
    _forward h = Some f /\ _backward h (c f) = Some b /\
    _estep h (alpha f) b = Some e /\
    (forall t, (t < T h)%nat -> sum (gamma_raw h (alpha f) b t) = get (c f) t) /\
    (forall t, (S t < T h)%nat ->
       sum2 (xi_raw h (alpha f) b t) = XR.Fin 1 /\
       nth t (xi e) [] = xi_raw h (alpha f) b t).
Proof.
  apply (estep_normalisers (@constructor XR.arith [0; 1; 0]%Z 2 2 no_options)).
  - exact constructor_Usable.
  - apply Nat.leb_le. reflexivity.
Defined.

(* ================================================================== *)
(** ** The log-likelihood is that of the recursion without scaling *)

Section Likelihood.
Import XR.
Local Existing Instance XR.arith.
Local Open Scope num_scope.


Variable h : HMM.
Hypothesis Hu : Usable h.

Local Abbreviation n := (Nn h).
Local Abbreviation al t i := (toR (get2 (alpha (forward_formula h)) t i)).
Local Abbreviation tr i j := (toR (get2 (A h) i j)).
Local Abbreviation ct t := (toR (get (c (forward_formula h)) t)).
Local Abbreviation rw t i := (toR (get (raw_at h t) i)).

Lemma scale_product_pos (t : nat) : (t <= T h)%nat -> (0 < scale_product h t)%R.
Proof.
  induction t as [|t IH]; intros Ht; simpl; [lra|].
  apply Rmult_lt_0_compat; [apply IH; lia|apply (ct_pos h Hu); lia].
Qed.

Lemma raw_unscaled (t i : nat) :
  (t < T h)%nat -> (i < n)%nat -> rw t i = (unscaled h t i * scale_product h t)%R.
Proof.
  revert i. induction t as [|t IH]; intros i Ht Hi.
  - cbn [raw_at unscaled scale_product]. unfold alpha_raw0. rewrite get_map by exact Hi.
    destruct Hu as (_ & Hlp & Hp & _ & _ & HB).
    destruct (get_Forall Pos (pi h) i Hp) as (p & -> & _); [now rewrite Hlp|].
    destruct (emit_Pos h i 0 HB) as (e & -> & _). cbn [nmul arith xmul toR]. lra.
  - rewrite (raw_step h Hu t i Ht Hi). cbn [unscaled scale_product].
    rewrite (Rsum_map_ext (fun k => al t k * tr k i)%R
               (fun k => (scale_product h t * ct t) * (unscaled h t k * tr k i))%R).
    + rewrite Rsum_map_scal. lra.
    + intros k Hk. apply in_seq in Hk.
      rewrite (alpha_scaled h Hu t k) by lia. rewrite IH by lia. lra.
Qed.

Lemma raw_total (t : nat) :
  (t < T h)%nat -> Rsum (map (fun i => rw t i) (seq 0 n)) = (1 / ct t)%R.
Proof.
  intros Ht. cbn [c forward_formula]. rewrite get_map by exact Ht. unfold c_at.
  destruct (scaled_Pos (raw_at h t) (raw_at_Pos h t Hu) (raw_at_nonempty h t Hu))
    as (s & Hs & Hpos & -> & _).
  cbn [toR]. rewrite (get_toR (raw_at h t) n (raw_at_length h t)).
  rewrite sum_toR in Hs by (apply Forall_Pos_real; now apply raw_at_Pos).
  injection Hs as ->. field. lra.
Qed.

Lemma unscaled_total (t : nat) :
  (t < T h)%nat ->
  Rsum (map (unscaled h t) (seq 0 n)) = (1 / scale_product h (S t))%R.
Proof.
  intros Ht. pose proof (raw_total t Ht) as H.
  rewrite (Rsum_map_ext _ (fun i => scale_product h t * unscaled h t i)%R) in H
    by (intros i Hi; apply in_seq in Hi; rewrite raw_unscaled by lia; lra).
  rewrite Rsum_map_scal in H. cbn [scale_product].
  pose proof (scale_product_pos t ltac:(lia)). pose proof (ct_pos h Hu t Ht).
  apply (Rmult_eq_reg_l (scale_product h t)); [|lra]. rewrite H. field. lra.
Qed.

Lemma ln_scale_product (t : nat) :
  (t <= T h)%nat ->
  ln (scale_product h t) = Rsum (map (fun s => ln (ct s)) (seq 0 t)).
Proof.
  induction t as [|t IH]; intros Ht.
  - simpl. rewrite Rsum_nil. apply ln_1.
  - cbn [scale_product]. rewrite seq_S, map_app, Rsum_app. simpl map.
    rewrite Rsum_cons, Rsum_nil.
    rewrite ln_mult by (try apply scale_product_pos; try apply (ct_pos h Hu); lia).
    rewrite IH by lia. simpl. lra.
Qed.

Lemma logLik_is_log_total :
  (1 <= T h)%nat ->
  logLik (forward_formula h)
  = Fin (ln (Rsum (map (unscaled h (T h - 1)) (seq 0 n)))) /\
  (0 < Rsum (map (unscaled h (T h - 1)) (seq 0 n)))%R.
Proof.
  intros HT. rewrite unscaled_total by lia.
  replace (S (T h - 1)) with (T h) by lia.
  pose proof (scale_product_pos (T h) ltac:(lia)) as Hp. split.
  - cbn [logLik forward_formula]. rewrite logLik_of_Pos.
    + f_equal. unfold Rdiv. rewrite Rmult_1_l, ln_Rinv by exact Hp.
      rewrite ln_scale_product by lia. f_equal. rewrite map_map.
      apply Rsum_map_ext. intros t Ht. apply in_seq in Ht.
      cbn [c forward_formula]. now rewrite get_map by lia.
    + apply Forall_forall. intros x Hx. apply in_map_iff in Hx as (t & <- & _).
      now apply c_at_Pos.
  - apply Rdiv_lt_0_compat; lra.
Qed.

End Likelihood.

Section LikelihoodStatement.
Import XR.
Local Existing Instance XR.arith.

(** X9. In exact arithmetic, on positive [pi] and [A] and non-negative
    [B], the log-likelihood [_forward] returns is the logarithm of the
    total of the last row of the forward recursion without scaling. *)
Theorem logLik_is_log_of_unscaled_total (h : HMM) :
  Usable h -> (1 <= T h)%nat ->
  exists f,
    _forward h = Some f /\
    (0 < Rsum (map (unscaled h (T h - 1)) (seq 0 (Nn h))))%R /\
    logLik f = Fin (ln (Rsum (map (unscaled h (T h - 1)) (seq 0 (Nn h))))).
Proof.
  intros Hu HT. exists (forward_formula h).
  split; [apply forward_eq; now apply Usable_rows_ok|].
  destruct (logLik_is_log_total h Hu HT) as [H1 H2]. now split.
Qed.

End LikelihoodStatement.

Lemma logLik_is_log_of_unscaled_total_witness :
  let h := @constructor XR.arith [0; 1; 0]%Z 2 2 no_options in
  exists f,
    _forward h = Some f /\
    (0 < Rsum (map (unscaled h (T h - 1)) (seq 0 (Nn h))))%R /\
    logLik f = XR.Fin (ln (Rsum (map (unscaled h (T h - 1)) (seq 0 (Nn h))))).
Proof.
  apply (logLik_is_log_of_unscaled_total
           (@constructor XR.arith [0; 1; 0]%Z 2 2 no_options)).
  - exact constructor_Usable.
  - apply Nat.leb_le. reflexivity.
Defined.
(** ** Runs on the sequence 0, 1, 0 with two states, continued *)

Lemma short_run_returns (opts : @options XR.arith) :
  exists h' calls,
    train (@constructor XR.arith [0; 1; 0]%Z 2 2 opts) true = Some (h', calls).
Proof.
  destruct (@constructor_fields XR.arith [0; 1; 0]%Z 2 2 opts) as (_ & HT & HN & _).
  apply train_total.
  - unfold rows_ok, alloc_ok. rewrite HT, HN. reflexivity.
  - rewrite HT. simpl. lia.
Qed.

Lemma train_keeps_shapes_witness :
  exists h' calls,
    train (@constructor XR.arith [0; 1; 0]%Z 2 2 no_options) true = Some (h', calls) /\
    length (pi h') = 2%nat /\ length (A h') = 2%nat /\ length (B h') = 2%nat.
Proof.
  destruct (short_run_returns no_options) as (h' & calls & Hrun).
  destruct (@train_keeps_shapes XR.arith [0; 1; 0]%Z 2 2 no_options true h' calls Hrun)
    as (H1 & H2 & _ & H3 & _).
  exists h', calls. repeat split; assumption.
Defined.

Lemma train_counts_iterations_witness :
  exists h' calls,
    train (@constructor XR.arith [0; 1; 0]%Z 2 2 no_options) true = Some (h', calls) /\
    iterations h' = Z.of_nat (length (logLikeHistory h')) /\
    (length (logLikeHistory h') <= 100)%nat.
Proof.
  destruct (short_run_returns no_options) as (h' & calls & Hrun).
  destruct (@train_counts_iterations XR.arith [0; 1; 0]%Z 2 2 no_options true h' calls Hrun)
    as (_ & _ & _ & H1 & H2 & _).
  exists h', calls. repeat split; assumption.
Defined.

Lemma negative_epsilon_never_converges_witness :
  exists h' calls,
    train (@constructor XR.arith [0; 1; 0]%Z 2 2
             (@Build_options XR.arith (Some 5%Z) (Some (XR.Fin (-1))) None)) true
    = Some (h', calls) /\
    converged h' = false /\ length (logLikeHistory h') = 5%nat.
Proof.
  destruct (short_run_returns
              (@Build_options XR.arith (Some 5%Z) (Some (XR.Fin (-1))) None))
    as (h' & calls & Hrun).
  destruct (negative_epsilon_never_converges [0; 1; 0]%Z 2 2 (Some 5%Z) None (-1) true
              h' calls ltac:(lra) Hrun) as (H1 & H2 & _).
  exists h', calls. repeat split; assumption.
Defined.

Lemma constructor_is_Model :
  Model (@constructor XR.arith [0; 1; 0]%Z 2 2 no_options).
Proof. apply (constructor_Model [0; 1; 0]%Z 2 2 no_options); lia. Qed.

Lemma log_likelihood_never_positive_witness :
  let h := @constructor XR.arith [0; 1; 0]%Z 2 2 no_options in
  exists f ll, _forward h = Some f /\ logLik f = XR.Fin ll /\ (ll <= 0)%R.
Proof.
  destruct (proj1 log_likelihood_never_positive
              (@constructor XR.arith [0; 1; 0]%Z 2 2 no_options) constructor_is_Model)
    as (f & ll & Hf & Hll & Hle & _).
  - apply Nat.leb_le. reflexivity.
  - exists f, ll. repeat split; assumption.
Defined.

Lemma logSumExp_special_values_witness :
  @logSumExp XR.arith [XR.Fin 1; XR.PInf] = XR.NInf /\
  @logSumExp XR.arith [XR.Nan] = XR.NInf /\
  @logSumExp XR.arith [XR.Nan; XR.Fin 1] = XR.Nan.
Proof.
  destruct logSumExp_special_values as (H1 & H2 & H3).
  split; [|split].
  - apply H1. right. now left.
  - apply H2. repeat constructor.
  - apply H3.
    + now left.
    + intros [H|[H|[]]]; discriminate.
    + right. now left.
Defined.

(* ================================================================== *)
(** ** A sequence of one symbol *)

Section SingleObservation.
Import XR.
Local Existing Instance XR.arith.
Local Open Scope num_scope.

Lemma sum_zeros (k : nat) : sum (map (fun _ : nat => Fin 0) (seq 0 k)) = Fin 0.
Proof.
  change (map (fun _ : nat => Fin 0) (seq 0 k))
    with (map (fun _ : nat => Fin 0) (seq 0 k)).
  rewrite <- (map_map (fun _ : nat => 0%R) Fin), sum_Fin. f_equal.
  apply Rsum_map_zero.
Qed.

Lemma normalise_zeros (k : nat) :
  normalise (map (fun _ : nat => Fin 0) (seq 0 k)) = map (fun _ : nat => Fin 0) (seq 0 k).
Proof.
  unfold normalise. rewrite sum_zeros.
  replace (@or_num arith (Fin 0) 1) with (Fin 1)
    by (unfold or_num; cbn [ToBoolean arith xtruthy]; now rewrite Reqb_true).
  rewrite map_map. apply map_ext. intros _. rewrite xdiv_Fin by lra. f_equal. lra.
Qed.

Lemma A_ratio_single (h : HMM) (g : matrix) (x : list matrix) (i j : nat) :
  T h = 1%nat -> A_ratio h g x i j = Fin 0.
Proof.
  intros HT. unfold A_ratio. rewrite HT. cbn [Nat.sub sum_over seq map sum fold_left].
  replace (or_num 0 lit_1e_300) with lit_1e_300
    by (unfold or_num; cbn [ToBoolean arith xtruthy of_Z]; now rewrite Reqb_true).
  destruct lit_1e_300_le_1 as (a & -> & Ha).
  cbn [of_Z arith]. rewrite xdiv_Fin by lra. f_equal. unfold Rdiv. lra.
Qed.

(** X5. In exact arithmetic, an iteration on a sequence of one symbol
    replaces [A] by the zero matrix: the sums over [t < T - 1] are empty,
    every ratio is [0 / 1e-300], and [normalise] divides the zero row
    by 1. *)
Theorem single_observation_zeroes_A (h h1 : HMM) (iter : nat) (ll : num) :
  T h = 1%nat ->
  em_update h iter = Some (h1, ll) ->
  A h1 = map (fun _ => map (fun _ => Fin 0) (seq 0 (Nn h))) (seq 0 (Nn h)) /\
  forall i j, (i < Nn h)%nat -> (j < Nn h)%nat -> get2 (A h1) i j = Fin 0.
Proof.
  intros HT Hup.
  destruct (@em_update_inv arith h h1 iter ll Hup) as (_ & _ & -> & _).
  cbn [A set_params mstep_formula new_A].
  assert (E : map (fun i => normalise (map (A_ratio h
                     (gamma (estep_formula h (alpha (forward_formula h))
                               (backward_formula h (c (forward_formula h)))))
                     (xi (estep_formula h (alpha (forward_formula h))
                            (backward_formula h (c (forward_formula h))))) i)
                     (seq 0 (Nn h)))) (seq 0 (Nn h))
              = map (fun _ => map (fun _ => Fin 0) (seq 0 (Nn h))) (seq 0 (Nn h))).
  { apply map_ext. intros i.
    rewrite (map_ext _ (fun _ => Fin 0)) by (intros j; now apply A_ratio_single).
    apply normalise_zeros. }
  rewrite E. split; [reflexivity|].
  intros i j Hi Hj.
  etransitivity;
    [exact (@get2_map arith (fun _ => map (fun _ => Fin 0) (seq 0 (Nn h))) (Nn h) i j Hi)|].
  exact (@get_map arith (fun _ => Fin 0) (Nn h) j Hj).
Qed.

End SingleObservation.

Lemma single_observation_zeroes_A_witness :
  exists h1 ll,
    em_update (@constructor XR.arith [0]%Z 2 2 no_options) 0 = Some (h1, ll) /\
    get2 (A h1) 0 1 = XR.Fin 0.
Proof.
  destruct (@em_update_total XR.arith (@constructor XR.arith [0]%Z 2 2 no_options) 0)
    as (h1 & ll & Hup).
  - destruct (@constructor_fields XR.arith [0]%Z 2 2 no_options) as (_ & HT & HN & _).
    unfold rows_ok, alloc_ok. rewrite HT, HN. reflexivity.
  - destruct (@constructor_fields XR.arith [0]%Z 2 2 no_options) as (_ & HT & _).
    rewrite HT. simpl. lia.
  - exists h1, ll. split; [exact Hup|].
    destruct (@constructor_fields XR.arith [0]%Z 2 2 no_options) as (_ & HT & HN & _).
    apply (proj2 (single_observation_zeroes_A _ h1 0 ll HT Hup)); unfold Nn; rewrite HN;
      simpl; lia.
Defined.

(* ================================================================== *)
(** ** The replay state of StateTransitionDiagram (diagram-lib.js)

    The fields of the class that record the snapshots fed by the training
    callback and the position of the replay cursor, and the public methods
    that change them.  [_build], [_render], [_updateControls] and the
    particle methods write the document and other fields only; they are
    left out, and so are the handlers that [wireControls] attaches to
    the controls.  [setTimeout] and [clearTimeout] are modelled by the set
    of timeouts that are pending, each with the identifier [setTimeout]
    returned. *)

Module Diagram.

Section Replay.
Variable snapshot : Type.      (* { A, B, pi, iteration, log_likelihood } *)

Record t : Type := {
  history : list snapshot;
  currentIdx : Z;
  isPlaying : bool;
  playTimer : option nat;      (* null, or the identifier of a timeout *)
  isScrubbing : bool;
  followLatest : bool;
  built : bool;
  pending : list nat;          (* the timeouts set and not yet fired or cleared *)
  next_timer : nat             (* the identifier the next [setTimeout] returns *)
}.

(** [this.history.length] *)
Definition len (s : t) : Z := Z.of_nat (length (history s)).

(** The fields as the constructor sets them. *)
Definition create : t :=
  {| history := []; currentIdx := -1; isPlaying := false; playTimer := None;
     isScrubbing := false; followLatest := true; built := false;
     pending := []; next_timer := 1 |}.

Definition set_cursor (s : t) (i : Z) (follow : bool) : t :=
  {| history := history s; currentIdx := i; isPlaying := isPlaying s;
     playTimer := playTimer s; isScrubbing := isScrubbing s;
     followLatest := follow; built := built s;
     pending := pending s; next_timer := next_timer s |}.

Definition feedIteration (d : snapshot) (s : t) : t :=
  let s := {| history := history s ++ [d]; currentIdx := currentIdx s;
              isPlaying := isPlaying s; playTimer := playTimer s;
              isScrubbing := isScrubbing s; followLatest := followLatest s;
              built := true;
              pending := pending s; next_timer := next_timer s |} in
  if negb (isScrubbing s) && followLatest s
  then set_cursor s (len s - 1) (followLatest s)
  else s.

Definition pause (s : t) : t :=
  {| history := history s; currentIdx := currentIdx s; isPlaying := false;
     playTimer := None; isScrubbing := isScrubbing s;
     followLatest := followLatest s; built := built s;
     pending := match playTimer s with
                | Some id => remove Nat.eq_dec id (pending s)
                | None => pending s
                end;
     next_timer := next_timer s |}.

Definition onComplete (s : t) : t := pause s.

Definition seekTo (i : Z) (s : t) : t :=
  if (i <? 0)%Z || (i >=? len s)%Z then s
  else set_cursor s i (i >=? len s - 1)%Z.

Definition _playStep (s : t) : t :=
  if negb (isPlaying s) then s
  else if (currentIdx s <? len s - 1)%Z then
    {| history := history s; currentIdx := currentIdx s + 1;
       isPlaying := isPlaying s; playTimer := Some (next_timer s);
       isScrubbing := isScrubbing s; followLatest := followLatest s;
       built := built s;
       pending := next_timer s :: pending s; next_timer := S (next_timer s) |}
  else pause s.

Definition play (s : t) : t :=
  if (length (history s) =? 0)%nat then s
  else
    _playStep
      {| history := history s; currentIdx := currentIdx s; isPlaying := true;
         playTimer := playTimer s; isScrubbing := isScrubbing s;
         followLatest := true; built := built s;
         pending := pending s; next_timer := next_timer s |}.

Definition stepForward (s : t) : t :=
  let s := pause s in
  if (currentIdx s <? len s - 1)%Z
  then set_cursor s (currentIdx s + 1) (followLatest s)
  else s.

Definition stepBack (s : t) : t :=
  let s := pause s in
  if (currentIdx s >? 0)%Z then set_cursor s (currentIdx s - 1) false else s.

Definition goFirst (s : t) : t := seekTo 0 (pause s).

Definition goLast (s : t) : t :=
  let s := pause s in
  let s := set_cursor s (currentIdx s) true in
  seekTo (len s - 1) s.

Definition reset (s : t) : t :=
  let s := pause s in
  {| history := []; currentIdx := -1; isPlaying := isPlaying s;
     playTimer := playTimer s; isScrubbing := false; followLatest := true;
     built := false; pending := pending s; next_timer := next_timer s |}.

(** The callback of the timeout [id], when that timeout is pending. *)
Definition fire (id : nat) (s : t) : t :=
  if in_dec Nat.eq_dec id (pending s) then
    _playStep
      {| history := history s; currentIdx := currentIdx s;
         isPlaying := isPlaying s; playTimer := playTimer s;
         isScrubbing := isScrubbing s; followLatest := followLatest s;
         built := built s;
         pending := remove Nat.eq_dec id (pending s);
         next_timer := next_timer s |}
  else s.

(** The calls a client can make, and the timeouts that can fire. *)
Inductive event : Type :=
| FeedIteration (d : snapshot)
| OnComplete
| SeekTo (i : Z)
| Play
| Pause
| StepForward
| StepBack
| GoFirst
| GoLast
| Reset
| Fire (id : nat).

Definition step (s : t) (e : event) : t :=
  match e with
  | FeedIteration d => feedIteration d s
  | OnComplete => onComplete s
  | SeekTo i => seekTo i s
  | Play => play s
  | Pause => pause s
  | StepForward => stepForward s
  | StepBack => stepBack s
  | GoFirst => goFirst s
  | GoLast => goLast s
  | Reset => reset s
  | Fire id => fire id s
  end.

Definition run (es : list event) (s : t) : t := fold_left step es s.

(** The timeout callback of the timer the player holds. *)
Definition tick (s : t) : t :=
  match playTimer s with
  | Some id => fire id s
  | None => s
  end.

(** The cursor is on a snapshot whenever there is one, and the player
    follows the latest snapshot while there is none. *)
Definition cursor_ok (s : t) : Prop :=
  isScrubbing s = false /\
  (history s = [] -> currentIdx s = (-1)%Z /\ followLatest s = true) /\
  (history s <> [] -> (0 <= currentIdx s < len s)%Z).

(** A timeout of the player is pending whenever it is playing. *)
Definition timer_ok (s : t) : Prop :=
  (forall id, In id (pending s) -> (id < next_timer s)%nat) /\
  (isPlaying s = true -> exists id, playTimer s = Some id /\ In id (pending s)).

End Replay.

Arguments create {snapshot}.
Arguments history {snapshot}.
Arguments currentIdx {snapshot}.
Arguments isPlaying {snapshot}.
Arguments playTimer {snapshot}.
Arguments isScrubbing {snapshot}.
Arguments followLatest {snapshot}.
Arguments built {snapshot}.
Arguments pending {snapshot}.
Arguments next_timer {snapshot}.
Arguments len {snapshot}.
Arguments set_cursor {snapshot}.
Arguments feedIteration {snapshot}.
Arguments pause {snapshot}.
Arguments onComplete {snapshot}.
Arguments seekTo {snapshot}.
Arguments _playStep {snapshot}.
Arguments play {snapshot}.
Arguments stepForward {snapshot}.
Arguments stepBack {snapshot}.
Arguments goFirst {snapshot}.
Arguments goLast {snapshot}.
Arguments reset {snapshot}.
Arguments fire {snapshot}.
Arguments step {snapshot}.
Arguments run {snapshot}.
Arguments tick {snapshot}.
Arguments cursor_ok {snapshot}.
Arguments timer_ok {snapshot}.
Arguments OnComplete {snapshot}.
Arguments SeekTo {snapshot}.
Arguments Play {snapshot}.
Arguments Pause {snapshot}.
Arguments StepForward {snapshot}.
Arguments StepBack {snapshot}.
Arguments GoFirst {snapshot}.
Arguments GoLast {snapshot}.
Arguments Reset {snapshot}.
Arguments Fire {snapshot}.
Arguments FeedIteration {snapshot}.

Section ReplayFacts.
Context {snapshot : Type}.
Implicit Types (s : t snapshot) (d : snapshot).

Lemma len_nonneg s : (0 <= len s)%Z.
Proof. unfold len. lia. Qed.

Lemma len_0 s : history s = [] <-> len s = 0%Z.
Proof. unfold len. destruct (history s); simpl; split; intros; (reflexivity || lia || discriminate). Qed.

Ltac cases :=
  repeat match goal with
  | |- context [(?a >? ?b)%Z] => rewrite (Z.gtb_ltb a b)
  | |- context [(?a >=? ?b)%Z] => rewrite (Z.geb_leb a b)
  | |- context [(?a <? ?b)%Z] => destruct (Z.ltb_spec a b)
  | |- context [(?a <=? ?b)%Z] => destruct (Z.leb_spec a b)
  | |- context [(?a =? ?b)%nat] => destruct (Nat.eqb_spec a b)
  end; cbn [orb andb negb].

(** The invariant in terms of [len]. *)
Lemma cursor_ok_len s :
  cursor_ok s <->
  isScrubbing s = false /\
  (len s = 0%Z -> currentIdx s = (-1)%Z /\ followLatest s = true) /\
  (len s <> 0%Z -> (0 <= currentIdx s < len s)%Z).
Proof.
  unfold cursor_ok. rewrite <- len_0.
  split; intros (H1 & H2 & H3); (split; [exact H1|]); (split; [exact H2|]);
    intros E; apply H3; exact E.
Qed.

Ltac start H :=
  let H1 := fresh "H1" in
  let H2 := fresh "H2" in
  let H3 := fresh "H3" in
  intros H; pose proof (proj1 (cursor_ok_len _) H) as (H1 & H2 & H3).

Ltac close :=
  apply cursor_ok_len; cbn [isScrubbing currentIdx followLatest set_cursor];
  (split; [assumption|]); split; intros ?; try split; try reflexivity; lia.

Lemma pause_cursor s : cursor_ok s -> cursor_ok (pause s).
Proof. intros H. exact H. Qed.

Lemma len_set_cursor s i f : len (set_cursor s i f) = len s.
Proof. reflexivity. Qed.

Lemma len_pause s : len (pause s) = len s.
Proof. reflexivity. Qed.

Lemma seekTo_cursor i s : cursor_ok s -> cursor_ok (seekTo i s).
Proof.
  start H. unfold seekTo. cases; try exact H;
    apply cursor_ok_len; rewrite len_set_cursor; cbn [isScrubbing currentIdx followLatest set_cursor];
    (split; [assumption|]); split; intros ?; try split; try reflexivity; lia.
Qed.

Lemma feedIteration_cursor d s : cursor_ok s -> cursor_ok (feedIteration d s).
Proof.
  start H. unfold feedIteration. cbn [isScrubbing followLatest].
  rewrite H1. cbn [negb andb].
  destruct (followLatest s) eqn:F; apply cursor_ok_len;
    unfold len in *; cbn [history isScrubbing currentIdx followLatest set_cursor];
    rewrite ?length_app; cbn [length];
    (split; [first [exact H1 | reflexivity]|]); split; intros ?; try lia.
Qed.

Lemma playStep_cursor s : cursor_ok s -> cursor_ok (_playStep s).
Proof.
  start H. unfold _playStep.
  destruct (isPlaying s); cbn [negb]; [|exact H].
  cases; [|exact H].
  apply cursor_ok_len. change (len _) with (len s).
  cbn [isScrubbing currentIdx followLatest].
  split; [exact H1|]. split; intros E.
  - destruct (H2 E). lia.
  - specialize (H3 E). lia.
Qed.

Lemma play_cursor s : cursor_ok s -> cursor_ok (play s).
Proof.
  start H. unfold play. cases; [exact H|]. apply playStep_cursor.
  apply cursor_ok_len. change (len _) with (len s).
  cbn [isScrubbing currentIdx followLatest].
  split; [exact H1|]. split; intros E; [|now apply H3].
  split; [now apply H2|reflexivity].
Qed.

Lemma stepForward_cursor s : cursor_ok s -> cursor_ok (stepForward s).
Proof.
  start H. unfold stepForward. rewrite len_pause. cbn [pause currentIdx followLatest].
  cases; [|exact H].
  apply cursor_ok_len. rewrite len_set_cursor, len_pause.
  cbn [isScrubbing currentIdx followLatest set_cursor pause].
  split; [exact H1|]. split; intros E.
  - destruct (H2 E). lia.
  - specialize (H3 E). lia.
Qed.

Lemma stepBack_cursor s : cursor_ok s -> cursor_ok (stepBack s).
Proof.
  start H. unfold stepBack. cbn [pause currentIdx].
  cases; [|exact H].
  apply cursor_ok_len. rewrite len_set_cursor, len_pause.
  cbn [isScrubbing currentIdx followLatest set_cursor pause].
  split; [exact H1|]. split; intros E.
  - destruct (H2 E). lia.
  - specialize (H3 E). lia.
Qed.

Lemma goLast_cursor s : cursor_ok s -> cursor_ok (goLast s).
Proof.
  start H. unfold goLast. apply seekTo_cursor.
  apply cursor_ok_len. rewrite len_set_cursor, len_pause.
  cbn [isScrubbing currentIdx followLatest set_cursor pause].
  split; [exact H1|]. split; intros E; [|now apply H3].
  split; [now apply H2|reflexivity].
Qed.

Lemma reset_cursor s : cursor_ok s -> cursor_ok (reset s).
Proof.
  intros (H1 & _). unfold cursor_ok, reset. cbn. repeat split. congruence.
Qed.

Lemma fire_cursor id s : cursor_ok s -> cursor_ok (fire id s).
Proof.
  intros H. unfold fire. destruct (in_dec Nat.eq_dec id (pending s)); [|exact H].
  apply playStep_cursor. exact H.
Qed.

Lemma step_cursor s (e : event snapshot) : cursor_ok s -> cursor_ok (step s e).
Proof.
  intros H. destruct e; cbn [step].
  - now apply feedIteration_cursor.
  - now apply pause_cursor.
  - now apply seekTo_cursor.
  - now apply play_cursor.
  - now apply pause_cursor.
  - now apply stepForward_cursor.
  - now apply stepBack_cursor.
  - apply seekTo_cursor. now apply pause_cursor.
  - now apply goLast_cursor.
  - now apply reset_cursor.
  - now apply fire_cursor.
Qed.

Lemma run_cursor (es : list (event snapshot)) s : cursor_ok s -> cursor_ok (run es s).
Proof.
  revert s. induction es as [|e es IH]; intros s H; [exact H|].
  apply IH. now apply step_cursor.
Qed.

Lemma create_cursor : cursor_ok (@create snapshot).
Proof. unfold cursor_ok, create. cbn. repeat split. congruence. Qed.

(** Snapshots fed one after the other. *)
Definition feed_all (ds : list snapshot) s : t snapshot :=
  fold_left (fun s d => feedIteration d s) ds s.

Lemma feed_all_following (ds : list snapshot) s :
  cursor_ok s -> followLatest s = true ->
  history (feed_all ds s) = history s ++ ds /\
  followLatest (feed_all ds s) = true /\
  cursor_ok (feed_all ds s) /\
  (ds <> [] -> currentIdx (feed_all ds s) = (len (feed_all ds s) - 1)%Z) /\
  (ds <> [] -> built (feed_all ds s) = true).
Proof.
  revert s. induction ds as [|d ds IH]; intros s Hok Hf.
  - cbn. rewrite app_nil_r. split; [reflexivity|]. split; [exact Hf|].
    split; [exact Hok|]. split; intros C; now elim C.
  - cbn [feed_all fold_left]. fold (feed_all ds (feedIteration d s)).
    pose proof (feedIteration_cursor d s Hok) as Hok'.
    assert (Hstep : history (feedIteration d s) = history s ++ [d] /\
                    followLatest (feedIteration d s) = true /\
                    currentIdx (feedIteration d s) = (len (feedIteration d s) - 1)%Z /\
                    built (feedIteration d s) = true).
    { unfold feedIteration. cbn [isScrubbing followLatest].
      destruct Hok as (-> & _). rewrite Hf. cbn. repeat split. }
    destruct Hstep as (Hh & Hf' & Hc & Hb).
    destruct (IH _ Hok' Hf') as (IH1 & IH2 & IH3 & IH4 & IH5).
    rewrite IH1, Hh, <- app_assoc. split; [reflexivity|]. split; [exact IH2|].
    split; [exact IH3|].
    destruct ds as [|d' ds'].
    + cbn. split; intros _; assumption.
    + split; intros _; [apply IH4|apply IH5]; discriminate.
Qed.

Lemma feed_all_inspecting (ds : list snapshot) s :
  followLatest s = false ->
  history (feed_all ds s) = history s ++ ds /\
  followLatest (feed_all ds s) = false /\
  currentIdx (feed_all ds s) = currentIdx s.
Proof.
  revert s. induction ds as [|d ds IH]; intros s Hf.
  - cbn. now rewrite app_nil_r.
  - cbn [feed_all fold_left]. fold (feed_all ds (feedIteration d s)).
    assert (Hstep : history (feedIteration d s) = history s ++ [d] /\
                    followLatest (feedIteration d s) = false /\
                    currentIdx (feedIteration d s) = currentIdx s).
    { unfold feedIteration. cbn [isScrubbing followLatest]. rewrite Hf.
      rewrite andb_false_r. cbn. repeat split. }
    destruct Hstep as (Hh & Hf' & Hc).
    destruct (IH _ Hf') as (IH1 & IH2 & IH3).
    rewrite IH1, Hh, <- app_assoc, IH3, Hc. repeat split. exact IH2.
Qed.

(** The player is playing, holds a pending timeout, and every pending
    timeout is older than the next one. *)
Definition playing (s : t snapshot) : Prop :=
  isPlaying s = true /\
  (exists id, playTimer s = Some id /\ In id (pending s)) /\
  (forall id, In id (pending s) -> (id < next_timer s)%nat).

Lemma tick_advances s :
  playing s -> (currentIdx s < len s - 1)%Z ->
  playing (tick s) /\
  currentIdx (tick s) = (currentIdx s + 1)%Z /\
  history (tick s) = history s.
Proof.
  intros (Hp & (id & Ht & Hin) & Hfresh) Hlt. unfold tick. rewrite Ht.
  unfold fire. destruct (in_dec Nat.eq_dec id (pending s)) as [_|C]; [|contradiction].
  unfold _playStep. cbn [isPlaying currentIdx]. rewrite Hp. cbn [negb].
  change (len _) with (len s). destruct (Z.ltb_spec (currentIdx s) (len s - 1)); [|lia].
  split; [|now split]. split; [reflexivity|]. split.
  - exists (next_timer s). split; [reflexivity|now left].
  - cbn [pending next_timer]. intros id' [<-|Hin']; [lia|].
    apply in_remove in Hin' as [Hin' _]. specialize (Hfresh _ Hin'). lia.
Qed.

Lemma tick_stops s :
  playing s -> (len s - 1 <= currentIdx s)%Z ->
  isPlaying (tick s) = false /\
  currentIdx (tick s) = currentIdx s /\
  history (tick s) = history s.
Proof.
  intros (Hp & (id & Ht & Hin) & Hfresh) Hge. unfold tick. rewrite Ht.
  unfold fire. destruct (in_dec Nat.eq_dec id (pending s)) as [_|C]; [|contradiction].
  unfold _playStep. cbn [isPlaying currentIdx]. rewrite Hp. cbn [negb].
  change (len _) with (len s). destruct (Z.ltb_spec (currentIdx s) (len s - 1)); [lia|].
  cbn. repeat split.
Qed.

Lemma ticks_reach_end (k : nat) s :
  playing s -> (currentIdx s + Z.of_nat k = len s - 1)%Z ->
  isPlaying (Nat.iter (S k) tick s) = false /\
  currentIdx (Nat.iter (S k) tick s) = (len s - 1)%Z /\
  history (Nat.iter (S k) tick s) = history s.
Proof.
  revert s. induction k as [|k IH]; intros s Hp Hk.
  - cbn [Nat.iter nat_rect]. destruct (tick_stops s Hp ltac:(lia)) as (H1 & H2 & H3).
    repeat split; try assumption. lia.
  - rewrite Nat.iter_succ_r.
    destruct (tick_advances s Hp ltac:(lia)) as (Hp' & Hc & Hh).
    assert (Hlen : len (tick s) = len s) by (unfold len; now rewrite Hh).
    destruct (IH (tick s) Hp') as (H1 & H2 & H3); [rewrite Hc, Hlen; lia|].
    rewrite Hlen in H2. rewrite Hh in H3. repeat split; assumption.
Qed.

Lemma play_starts s :
  cursor_ok s -> history s <> [] ->
  (forall id, In id (pending s) -> (id < next_timer s)%nat) ->
  history (play s) = history s /\
  if (currentIdx s <? len s - 1)%Z
  then playing (play s) /\ currentIdx (play s) = (currentIdx s + 1)%Z
  else isPlaying (play s) = false /\ currentIdx (play s) = currentIdx s.
Proof.
  intros Hok Hne Hfresh. unfold play.
  destruct (Nat.eqb_spec (length (history s)) 0) as [E|_];
    [destruct (history s); [congruence|discriminate]|].
  unfold _playStep. cbn [isPlaying negb currentIdx]. change (len _) with (len s).
  destruct (Z.ltb_spec (currentIdx s) (len s - 1)).
  - split; [reflexivity|]. split; [|reflexivity]. split; [reflexivity|]. split.
    + exists (next_timer s). split; [reflexivity|now left].
    + cbn [pending next_timer]. intros id [<-|Hin]; [lia|].
      specialize (Hfresh _ Hin). lia.
  - repeat split.
Qed.

End ReplayFacts.

(** X16. After any sequence of calls of the methods above and of timeout
    callbacks on a new diagram, [currentIdx] is -1 when there is no
    snapshot and an index of [history] otherwise. *)
Theorem cursor_always_on_a_snapshot
    {snapshot : Type} (es : list (event snapshot)) :
  let s := run es create in
  (history s = [] -> currentIdx s = (-1)%Z) /\
  (history s <> [] -> (0 <= currentIdx s < len s)%Z).
Proof.
  cbv zeta. destruct (run_cursor es create create_cursor) as (_ & H2 & H3).
  split; [intros E; now apply H2 | exact H3].
Qed.

(** X17. On a new diagram, feeding snapshots leaves them in [history] in
    order with the cursor on the latest; after [seekTo] has put the cursor
    on a snapshot before the last, feeding leaves the cursor where it
    is. *)
Theorem feeding_moves_the_cursor_only_when_following
    {snapshot : Type} (ds : list snapshot) :
  (let s := feed_all ds create in
   history s = ds /\
   currentIdx s = (Z.of_nat (length ds) - 1)%Z /\
   built s = negb (length ds =? 0)%nat) /\
  (forall (es : list (event snapshot)) (i : Z),
     let s := run es create in
     (0 <= i < len s - 1)%Z ->
     let s' := feed_all ds (seekTo i s) in
     history s' = history s ++ ds /\ currentIdx s' = i).
Proof.
  split.
  - cbv zeta.
    destruct (feed_all_following ds create create_cursor eq_refl)
      as (Hh & _ & _ & Hc & Hb).
    cbn [history create app] in Hh. split; [exact Hh|].
    destruct ds as [|d ds]; [now cbn|].
    rewrite Hc, Hb by discriminate. unfold len. rewrite Hh. now split.
  - intros es i s Hi s'.
    assert (Hseek : followLatest (seekTo i s) = false /\
                    currentIdx (seekTo i s) = i /\
                    history (seekTo i s) = history s).
    { unfold seekTo.
      destruct (Z.ltb_spec i 0); [lia|]. rewrite Z.geb_leb.
      destruct (Z.leb_spec (len s) i); [lia|]. cbn [orb set_cursor followLatest currentIdx history].
      rewrite Z.geb_leb. destruct (Z.leb_spec (len s - 1) i); [lia|]. now repeat split. }
    destruct Hseek as (Hf & Hc & Hh).
    destruct (feed_all_inspecting ds _ Hf) as (H1 & _ & H3).
    subst s'. rewrite H1, H3, Hh, Hc. now split.
Qed.

(** X18. From a state with at least one snapshot, [play] followed by as
    many timeout callbacks as there are snapshots after the cursor ends
    paused on the last snapshot. *)
Theorem playback_ends_on_the_last_snapshot
    {snapshot : Type} (s : t snapshot) :
  cursor_ok s -> history s <> [] ->
  (forall id, In id (pending s) -> (id < next_timer s)%nat) ->
  let n := Z.to_nat (len s - 1 - currentIdx s) in
  let s' := Nat.iter n tick (play s) in
  isPlaying s' = false /\ currentIdx s' = (len s - 1)%Z /\ history s' = history s.
Proof.
  intros Hok Hne Hfresh n s'.
  pose proof (proj1 (cursor_ok_len s) Hok) as (_ & _ & H3).
  assert (Hlen : len s <> 0%Z) by (intros E; apply len_0 in E; contradiction).
  specialize (H3 Hlen).
  destruct (play_starts s Hok Hne Hfresh) as (Hh & Hcase).
  assert (Hl : len (play s) = len s) by (unfold len; now rewrite Hh).
  destruct (Z.ltb_spec (currentIdx s) (len s - 1)) as [Hlt|Hge].
  - destruct Hcase as (Hp & Hc).
    assert (En : n = S (Z.to_nat (len s - 1 - (currentIdx s + 1)))) by (unfold n; lia).
    subst s'. rewrite En.
    destruct (ticks_reach_end (Z.to_nat (len s - 1 - (currentIdx s + 1))) (play s) Hp)
      as (H1 & H2 & H4); [rewrite Hc, Hl; lia|].
    rewrite Hl in H2. rewrite Hh in H4. repeat split; assumption.
  - destruct Hcase as (Hp & Hc).
    assert (En : n = 0%nat) by (unfold n; lia).
    subst s'. rewrite En. cbn [Nat.iter nat_rect]. repeat split; try assumption. lia.
Qed.

Lemma playback_ends_on_the_last_snapshot_witness :
  let s := run [FeedIteration tt; FeedIteration tt; FeedIteration tt; GoFirst] create in
  let n := Z.to_nat (len s - 1 - currentIdx s) in
  let s' := Nat.iter n tick (play s) in
  isPlaying s' = false /\ currentIdx s' = (len s - 1)%Z /\ history s' = history s.
Proof.
  apply (playback_ends_on_the_last_snapshot
           (run [FeedIteration tt; FeedIteration tt; FeedIteration tt; GoFirst] create)).
  - apply run_cursor, create_cursor.
  - discriminate.
  - intros id [].
Defined.

End Diagram.
